(** * Offers: a shallow embedding of [chia/wallet/puzzles/offer.py]

    The development follows the Python source method by method.  The
    collaborators that the module imports but does not define (the CLVM
    [Program] type, hashing, the CAT wrapper, the spend bundle codec, BLS
    signatures) are the fields of the class [Externals]; theorems are stated
    for every instance of that class, and a small reference instance is used
    to run the definitions on concrete offers. *)

From Stdlib Require Import ZArith List Lia.
From Stdlib.Strings Require Import Byte.
From stdpp Require Import base tactics option list numbers countable gmap sorting.

Open Scope Z_scope.

(** ** Exceptions and the error monad *)

(** A [bytes32] is a 32-byte string, read as a big-endian 256-bit number, so
    that the lexicographic order on the bytes is the numeric order.  A
    [bytes32] is never empty: in a Python condition it is always truthy. *)
Definition bytes32 : Type := N.

(** [bytes32([0] * 32)] *)
Definition ZERO_32 : bytes32 := 0%N.

(** The key of the asset maps: [None] is XCH, [Some tail] a CAT. *)
Definition AssetKey : Type := option bytes32.

(** The exceptions the module raises, named after the error kinds of the
    specification; the comment gives the Python exception. *)
Inductive exn : Type :=
  | EmptyOffer          (* ValueError("Bundle is not offering anything") *)
  | DuplicatePayment    (* ValueError("Bundle has duplicate requested payments") *)
  | OverlappingInputs   (* ValueError("The aggregated offers overlap inputs") *)
  | Incomplete          (* ValueError("Offer is currently incomplete") *)
  | Overflow            (* ValueError raised by uint64(...) *)
  | KeyError (k : AssetKey)   (* d[k] on a dict without the key k *)
  | IndexError          (* list(...)[0] on an empty list *)
  | AssertionError      (* assert matched *)
  | StopIteration       (* next(...) on an exhausted iterator *)
  | Malformed           (* a condition that Payment.from_condition rejects *)
  | BadBytes32          (* ValueError raised by bytes32(...) on a value that is not 32 bytes *)
  | UnpackError.        (* ValueError of unpacking into three names a sequence of another length *)

Inductive result (A : Type) : Type :=
  | Ok (a : A)
  | Raise (e : exn).
Arguments Ok {A} a.
Arguments Raise {A} e.

#[export] Instance result_ret : MRet result := λ A a, Ok a.
#[export] Instance result_bind : MBind result := λ A B f m,
  match m with
  | Ok a => f a
  | Raise e => Raise e
  end.

(** A [for] loop that threads an accumulator and stops at the first raise. *)
Fixpoint foldM {A B : Type} (f : B → A → result B) (acc : B) (l : list A) : result B :=
  match l with
  | [] => Ok acc
  | x :: l' => acc' ← f acc x; foldM f acc' l'
  end.

(** ** Python dictionaries

    A [dict] keeps its keys in insertion order, and the order is observable
    here (it fixes the order of the dummy spends of [__bytes__] and of the
    completion spends), so a dictionary is the list of its items in insertion
    order. *)
Abbreviation dict K V := (list (K * V)).

Section dict.
Context {K V : Type} `{EqDecision K}.

(** [d.get(k)] *)
Fixpoint dict_get (k : K) (d : dict K V) : option V :=
  match d with
  | [] => None
  | (k', v) :: d' => if decide (k = k') then Some v else dict_get k d'
  end.

(** [k in d] *)
Definition dict_in (k : K) (d : dict K V) : bool :=
  match dict_get k d with Some _ => true | None => false end.

(** [d[k] = v]: the value is replaced where the key stands, a new key goes
    to the end. *)
Fixpoint dict_set (k : K) (v : V) (d : dict K V) : dict K V :=
  match d with
  | [] => [(k, v)]
  | (k', v') :: d' =>
      if decide (k = k') then (k', v) :: d' else (k', v') :: dict_set k v d'
  end.

Definition dict_keys (d : dict K V) : list K := map fst d.
Definition dict_values (d : dict K V) : list V := map snd d.

(** The keys of a dictionary are pairwise different. *)
Definition dict_wf (d : dict K V) : Prop := NoDup (dict_keys d).
End dict.

(** ** Data model *)

(** Modelled from the spec: [chia.types.blockchain_format.coin.Coin] is not in
    the sources; a coin is the triple of its parent, its puzzle hash and its
    [uint64] amount, compared field by field. *)
Record Coin : Type := mkCoin {
  parent_coin_info : bytes32;
  puzzle_hash : bytes32;
  amount : Z;
}.

#[export] Instance Coin_eq_dec : EqDecision Coin.
Proof. solve_decision. Defined.

#[export] Instance Coin_countable : Countable Coin.
Proof.
  apply (inj_countable' (λ c, (parent_coin_info c, puzzle_hash c, amount c))
                        (λ t, mkCoin t.1.1 t.1.2 t.2)).
  by intros [].
Defined.

(** Modelled from the spec: [chia.wallet.payment.Payment] is not in the
    sources; a payment is a puzzle hash, a [uint64] amount and memos. *)
Record Payment : Type := mkPayment {
  p_puzzle_hash : bytes32;
  p_amount : Z;
  p_memos : list (list byte);
}.

(** [NotarizedPayment(Payment)]: the fields of [Payment] and [nonce]. *)
Record NotarizedPayment : Type := mkNotarizedPayment {
  np_payment : Payment;
  nonce : bytes32;
}.

(** The Python values that are handed to [Program.to]. *)
#[warnings="-register-all"] Inductive PyVal (Program : Type) : Type :=
  | VBytes32 (h : bytes32)
  | VInt (z : Z)
  | VBytes (b : list byte)
  | VList (l : list (PyVal Program))
  | VProgram (p : Program).
Arguments VBytes32 {Program} h.
Arguments VInt {Program} z.
Arguments VBytes {Program} b.
Arguments VList {Program} l.
Arguments VProgram {Program} p.

(** Modelled from the spec: [chia.types.coin_spend.CoinSpend] is not in the
    sources; a coin spend is a coin, its puzzle reveal and a solution. *)
Record CoinSpend (Program : Type) : Type := mkCoinSpend {
  coin : Coin;
  puzzle_reveal : Program;
  solution : Program;
}.
Arguments mkCoinSpend {Program} coin puzzle_reveal solution.
Arguments coin {Program} c.
Arguments puzzle_reveal {Program} c.
Arguments solution {Program} c.

(** Modelled from the spec: [chia.types.spend_bundle.SpendBundle] is not in the
    sources; a spend bundle is the sequence of its coin spends and a
    signature. *)
Record SpendBundle (Program G2Element : Type) : Type := mkSpendBundle {
  coin_spends : list (CoinSpend Program);
  aggregated_signature : G2Element;
}.
Arguments mkSpendBundle {Program G2Element} coin_spends aggregated_signature.
Arguments coin_spends {Program G2Element} s.
Arguments aggregated_signature {Program G2Element} s.

(** [chia.wallet.lineage_proof.LineageProof], with the three fields that
    [to_valid_spend] sets. *)
Record LineageProof : Type := mkLineageProof {
  lp_parent_name : bytes32;
  lp_inner_puzzle_hash : bytes32;
  lp_amount : Z;
}.

(** [chia.wallet.cat_wallet.cat_utils.SpendableCAT], with the fields that
    [to_valid_spend] sets. *)
Record SpendableCAT (Program : Type) : Type := mkSpendableCAT {
  sc_coin : Coin;
  sc_limitations_program_hash : bytes32;
  sc_inner_puzzle : Program;
  sc_inner_solution : Program;
  sc_lineage_proof : LineageProof;
}.
Arguments mkSpendableCAT {Program} _ _ _ _ _.
Arguments sc_coin {Program} s.
Arguments sc_limitations_program_hash {Program} s.
Arguments sc_inner_puzzle {Program} s.
Arguments sc_inner_solution {Program} s.
Arguments sc_lineage_proof {Program} s.

(** The value of an [Offer]: what its two fields hold at one moment. *)
Record Offer (Program G2Element : Type) : Type := mkOffer {
  requested_payments : dict AssetKey (list NotarizedPayment);
  bundle : SpendBundle Program G2Element;
}.
Arguments mkOffer {Program G2Element} requested_payments bundle.
Arguments requested_payments {Program G2Element} o.
Arguments bundle {Program G2Element} o.

(** ** The collaborators of the module

    What [offer.py] imports and calls but does not define.  A collaborator
    is a function of its arguments; the codec and [Payment.from_condition]
    can raise and return a [result], the conversion to [bytes32] is partial,
    the others are total. *)

Class Externals (Program G2Element : Type) : Type := {
  (** [Coin.name()] *)
  Coin_name : Coin → bytes32;
  (** [Program.get_tree_hash()] *)
  get_tree_hash : Program → bytes32;
  (** [Program.to(v)] *)
  Program_to : PyVal Program → Program;
  (** [list(p.as_iter())] *)
  as_iter : Program → list Program;
  (** [p.as_python()] as a [bytes32], when [p] is an atom of 32 bytes *)
  as_bytes32 : Program → option bytes32;
  (** [load_clvm("settlement_payments.clvm")] and [CAT_MOD] *)
  OFFER_MOD : Program;
  CAT_MOD : Program;
  (** [construct_cat_puzzle(mod_code, limitations_program_hash, inner_puzzle)] *)
  construct_cat_puzzle : Program → bytes32 → Program → Program;
  (** [match_cat_puzzle(puzzle)]: [None] when [matched] is false, otherwise
      the curried arguments, which for a CAT are the mod hash, the tail hash
      and the inner puzzle *)
  match_cat_puzzle : Program → option (list Program);
  (** [CoinSpend.additions()]: the coins created by running the puzzle
      reveal on the solution *)
  CoinSpend_additions : CoinSpend Program → list Coin;
  (** [Payment.from_condition(condition)] *)
  Payment_from_condition : Program → result Payment;
  (** [unsigned_spend_bundle_for_spendable_cats(CAT_MOD, [sc]).coin_spends[0].solution] *)
  cat_spend_solution : SpendableCAT Program → Program;
  (** [G2Element()] and [AugSchemeMPL.aggregate] *)
  G2Element_default : G2Element;
  AugSchemeMPL_aggregate : list G2Element → G2Element;
  (** [bytes(spend_bundle)] and [SpendBundle.from_bytes] *)
  SpendBundle_bytes : SpendBundle Program G2Element → list byte;
  SpendBundle_from_bytes : list byte → result (SpendBundle Program G2Element);
}.

(** ** The methods of the module, on offer values *)

Section offer.
Context {Program G2Element : Type} `{!Externals Program G2Element}.

#[local] Abbreviation CoinSpend := (CoinSpend Program).
#[local] Abbreviation SpendBundle := (SpendBundle Program G2Element).
#[local] Abbreviation Offer := (Offer Program G2Element).

(** Modelled from the spec: [chia.util.ints.uint64] is not in the sources;
    the specification makes a sum outside the 64-bit range a fatal
    [Overflow] error. *)
Definition uint64 (v : Z) : result Z :=
  if decide (0 ≤ v < 2 ^ 64) then Ok v else Raise Overflow.

(** [sum([c.amount for c in coins])] *)
Definition sum_amounts {A : Type} (f : A → Z) (l : list A) : Z :=
  foldr (λ x s, f x + s) 0 l.

(** Modelled from the spec: [Payment.as_condition_args()] is not in the
    sources; it yields the positional form [[puzzle_hash, amount, memos]]. *)
Definition as_condition_args (p : Payment) : list (PyVal Program) :=
  [VBytes32 (p_puzzle_hash p); VInt (p_amount p); VList (map VBytes (p_memos p))].

(** The list that [NotarizedPayment.as_condition] hands to [Program.to]:
    [[self.nonce, *self.as_condition_args()]]. *)
Definition as_condition_list (np : NotarizedPayment) : list (PyVal Program) :=
  VBytes32 (nonce np) :: as_condition_args (np_payment np).

Definition as_condition (np : NotarizedPayment) : Program :=
  Program_to (VList (as_condition_list np)).

(** Modelled from the spec: [Payment.name()] is not in the sources; the
    name of a notarized payment is the tree hash of its condition, over all
    fields including the nonce. *)
Definition name (np : NotarizedPayment) : bytes32 :=
  get_tree_hash (as_condition np).

(** [NotarizedPayment(puzzle_hash, amount)]: the dataclass defaults are the
    empty memos (from the spec) and [nonce = ZERO_32] (line 29). *)
Definition NotarizedPayment_default (ph : bytes32) (amt : Z) : NotarizedPayment :=
  mkNotarizedPayment (mkPayment ph amt []) ZERO_32.

(** [bytes32(p.as_python())], which raises unless [p] is an atom of 32
    bytes. *)
Definition bytes32_of (p : Program) : result bytes32 :=
  match as_bytes32 p with
  | Some h => Ok h
  | None => Raise BadBytes32
  end.

(** [a, b, c = curried_args]: unpacking into three names. *)
Definition unpack3 (curried_args : list Program) : result (Program * Program * Program) :=
  match curried_args with
  | [a; b; c] => Ok (a, b, c)
  | _ => Raise UnpackError
  end.

(** [NotarizedPayment.from_condition]: the constructor call unpacks
    [p.as_condition_args()], so it keeps the three fields of [p], and adds
    the nonce read from the first element of the condition. *)
Definition from_condition (condition : Program) : result NotarizedPayment :=
  p ← Payment_from_condition condition;
  match as_iter condition with
  | [] => Raise StopIteration
  | first :: _ => nonce ← bytes32_of first; Ok (mkNotarizedPayment p nonce)
  end.

(** Modelled from the spec: [SpendBundle.aggregate] is not in the sources;
    it is the union of the spends, in order, with the aggregated
    signature. *)
Definition SpendBundle_aggregate (bundles : list SpendBundle) : SpendBundle :=
  mkSpendBundle (concat (map coin_spends bundles))
                (AugSchemeMPL_aggregate (map aggregated_signature bundles)).

(** Modelled from the spec: [SpendBundle.additions] is not in the sources;
    it collects the outputs of every puzzle and solution, in order. *)
Definition additions (b : SpendBundle) : list Coin :=
  concat (map CoinSpend_additions (coin_spends b)).

(** Modelled from the spec: [Coin.as_list()] is not in the sources; the
    canonical list form of a coin is the list of its three fields. *)
Definition Coin_as_list (c : Coin) : PyVal Program :=
  VList [VBytes32 (parent_coin_info c); VBytes32 (puzzle_hash c); VInt (amount c)].

(** [list(filter(lambda cs: cs.coin.name() == parent, coin_spends))[0]] *)
Definition parent_spend_of (b : SpendBundle) (parent : bytes32) : result CoinSpend :=
  match filter (λ cs, Coin_name (coin cs) = parent) (coin_spends b) with
  | [] => Raise IndexError
  | cs :: _ => Ok cs
  end.

(** Lines 98 to 105: the asset key of a parent puzzle and the settlement
    puzzle hash expected for it. *)
Definition offer_target (parent_puzzle : Program) : result (AssetKey * bytes32) :=
  match match_cat_puzzle parent_puzzle with
  | Some curried_args =>
      '(_, tail_hash, _) ← unpack3 curried_args;
      tail_hash ← bytes32_of tail_hash;
      Ok (Some tail_hash, get_tree_hash (construct_cat_puzzle CAT_MOD tail_hash OFFER_MOD))
  | None => Ok (None, get_tree_hash OFFER_MOD)
  end.

(** The body of the loop of [get_offered_coins]. *)
Definition offered_step (b : SpendBundle) (offered_coins : dict AssetKey (list Coin))
    (addition : Coin) : result (dict AssetKey (list Coin)) :=
  parent_spend ← parent_spend_of b (parent_coin_info addition);
  '(tail_hash, offer_ph) ← offer_target (puzzle_reveal parent_spend);
  if decide (puzzle_hash addition = offer_ph) then
    match dict_get tail_hash offered_coins with
    | Some l => Ok (dict_set tail_hash (l ++ [addition]) offered_coins)
    | None => Ok (dict_set tail_hash [addition] offered_coins)
    end
  else Ok offered_coins.

Definition get_offered_coins (self : Offer) : result (dict AssetKey (list Coin)) :=
  foldM (offered_step (bundle self)) [] (additions (bundle self)).

(** The loop shared by the two amount views:
    [amounts[asset_id] = uint64(sum([c.amount for c in coins]))]. *)
Definition amounts_of {A : Type} (f : A → Z) (d : dict AssetKey (list A))
    : result (dict AssetKey Z) :=
  foldM (λ amounts '(asset_id, coins),
           v ← uint64 (sum_amounts f coins); Ok (dict_set asset_id v amounts))
        [] d.

Definition get_offered_amounts (self : Offer) : result (dict AssetKey Z) :=
  offered_coins ← get_offered_coins self;
  amounts_of amount offered_coins.

Definition get_requested_payments (self : Offer) : dict AssetKey (list NotarizedPayment) :=
  requested_payments self.

Definition get_requested_amounts (self : Offer) : result (dict AssetKey Z) :=
  amounts_of (λ np, p_amount (np_payment np)) (requested_payments self).

(** [d.get(k, 0)] *)
Definition get0 (k : AssetKey) (d : dict AssetKey Z) : Z :=
  default 0 (dict_get k d).

Definition arbitrage (self : Offer) : result (dict AssetKey Z) :=
  offered_amounts ← get_offered_amounts self;
  requested_amounts ← get_requested_amounts self;
  Ok (foldl (λ arbitrage_dict asset_id,
               dict_set asset_id (get0 asset_id offered_amounts - get0 asset_id requested_amounts)
                        arbitrage_dict)
            [] (dict_keys requested_amounts ++ dict_keys offered_amounts)).

Definition is_valid (self : Offer) : result bool :=
  arbitrage_dict ← arbitrage self;
  Ok (forallb (λ value, bool_decide (0 ≤ value)) (dict_values arbitrage_dict)).

(** [__post_init__]: the two checks made when an [Offer] is built. *)
Definition __post_init__ (self : Offer) : result unit :=
  offered_coins ← get_offered_coins self;
  match offered_coins with
  | [] => Raise EmptyOffer
  | _ :: _ =>
      foldM (λ _ payments,
               let payment_programs := map name payments in
               if decide (size (list_to_set payment_programs : gset bytes32)
                          ≠ length payment_programs)
               then Raise DuplicatePayment else Ok ())
            () (dict_values (requested_payments self))
  end.

(** [Offer(requested_payments, bundle)] *)
Definition Offer_new (requested_payments : dict AssetKey (list NotarizedPayment))
    (bundle : SpendBundle) : result Offer :=
  let self := mkOffer requested_payments bundle in
  _ ← __post_init__ self; Ok self.

(** Line 176: the payments declared by the first offered coin. *)
Definition all_payments_of (arbitrage_ph : bytes32) (payments : list NotarizedPayment)
    (arbitrage_amount : Z) : list NotarizedPayment :=
  if decide (0 < arbitrage_amount)
  then payments ++ [NotarizedPayment_default arbitrage_ph arbitrage_amount]
  else payments.

(** Lines 179 to 181. *)
Definition inner_solution_of (all_payments : list NotarizedPayment)
    (offered_coins : list Coin) (c : Coin) : Program :=
  Program_to (VList (if decide (head offered_coins = Some c)
                     then map (λ np, VProgram (as_condition np)) all_payments
                     else [])).

(** Lines 178 to 210: the completion spend of one offered coin. *)
Definition completion_spend (self : Offer) (tail_hash : AssetKey)
    (all_payments : list NotarizedPayment) (offered_coins : list Coin) (c : Coin)
    : result CoinSpend :=
  let inner_solution := inner_solution_of all_payments offered_coins c in
  match tail_hash with
  | Some tail =>
      parent_spend ← parent_spend_of (bundle self) (parent_coin_info c);
      let parent_coin := coin parent_spend in
      match match_cat_puzzle (puzzle_reveal parent_spend) with
      | None => Raise AssertionError
      | Some curried_args =>
          '(_, _, inner_puzzle) ← unpack3 curried_args;
          let spendable_cat :=
            mkSpendableCAT c tail OFFER_MOD inner_solution
              (mkLineageProof (parent_coin_info parent_coin)
                              (get_tree_hash inner_puzzle) (amount parent_coin)) in
          Ok (mkCoinSpend c (construct_cat_puzzle CAT_MOD tail OFFER_MOD)
                          (cat_spend_solution spendable_cat))
      end
  | None => Ok (mkCoinSpend c OFFER_MOD inner_solution)
  end.

(** The body of the outer loop of [to_valid_spend]. *)
Definition completion_step (self : Offer) (arbitrage_ph : bytes32)
    (completion_spends : list CoinSpend)
    (item : AssetKey * list NotarizedPayment) : result (list CoinSpend) :=
  let '(tail_hash, payments) := item in
  offered ← get_offered_coins self;
  match dict_get tail_hash offered with
  | None => Raise (KeyError tail_hash)
  | Some offered_coins =>
      arbitrage_dict ← arbitrage self;
      match dict_get tail_hash arbitrage_dict with
      | None => Raise (KeyError tail_hash)
      | Some arbitrage_amount =>
          let all_payments := all_payments_of arbitrage_ph payments arbitrage_amount in
          foldM (λ spends c,
                   cs ← completion_spend self tail_hash all_payments offered_coins c;
                   Ok (spends ++ [cs]))
                completion_spends offered_coins
      end
  end.

Definition to_valid_spend (self : Offer) (arbitrage_ph : bytes32) : result SpendBundle :=
  valid ← is_valid self;
  if negb valid then Raise Incomplete
  else
    completion_spends ← foldM (completion_step self arbitrage_ph) []
                              (requested_payments self);
    Ok (SpendBundle_aggregate
          [mkSpendBundle completion_spends G2Element_default; bundle self]).

(** The settlement puzzle of an asset key (lines 207 and 226). *)
Definition settlement_puzzle (tail_hash : AssetKey) : Program :=
  match tail_hash with
  | Some tail => construct_cat_puzzle CAT_MOD tail OFFER_MOD
  | None => OFFER_MOD
  end.

(** Lines 224 to 237: one dummy spend per asset key. *)
Definition additional_coin_spend (item : AssetKey * list NotarizedPayment) : CoinSpend :=
  let '(tail_hash, payments) := item in
  let puzzle_reveal := settlement_puzzle tail_hash in
  mkCoinSpend (mkCoin ZERO_32 (get_tree_hash puzzle_reveal) 0) puzzle_reveal
              (Program_to (VList (map (λ np, VProgram (as_condition np)) payments))).

(** The spend bundle that [__bytes__] serialises. *)
Definition as_spend_bundle (self : Offer) : SpendBundle :=
  SpendBundle_aggregate
    [mkSpendBundle (map additional_coin_spend (requested_payments self)) G2Element_default;
     bundle self].

Definition __bytes__ (self : Offer) : list byte :=
  SpendBundle_bytes (as_spend_bundle self).

(** The body of the loop of [from_bytes]. *)
Definition from_bytes_step
    (acc : dict AssetKey (list NotarizedPayment) * list CoinSpend)
    (coin_spend : CoinSpend)
    : result (dict AssetKey (list NotarizedPayment) * list CoinSpend) :=
  let '(requested_payments, leftover_coin_spends) := acc in
  if decide (parent_coin_info (coin coin_spend) = ZERO_32) then
    tail_hash ←
      match match_cat_puzzle (puzzle_reveal coin_spend) with
      | Some curried_args =>
          '(_, tail_hash, _) ← unpack3 curried_args;
          tail_hash ← bytes32_of tail_hash;
          Ok (Some tail_hash)
      | None => Ok None
      end;
    payments ← mapM from_condition (as_iter (solution coin_spend));
    Ok (dict_set tail_hash payments requested_payments, leftover_coin_spends)
  else Ok (requested_payments, leftover_coin_spends ++ [coin_spend]).

Definition from_bytes (as_bytes : list byte) : result Offer :=
  bundle ← SpendBundle_from_bytes as_bytes;
  acc ← foldM from_bytes_step ([], []) (coin_spends bundle);
  Offer_new acc.1 (mkSpendBundle acc.2 (aggregated_signature bundle)).

(** [sorted(coins, key=Coin.name)]: Python's sort is stable, and a stable
    sort is the stable insertion of every element in turn. *)
Fixpoint insert_by_name (c : Coin) (l : list Coin) : list Coin :=
  match l with
  | [] => [c]
  | c' :: l' =>
      if decide (Coin_name c' ≤ Coin_name c)%N
      then c' :: insert_by_name c l'
      else c :: c' :: l'
  end.

Definition sorted_by_name (coins : list Coin) : list Coin :=
  foldl (λ acc c, insert_by_name c acc) [] coins.

(** Lines 54 to 56 of [notarize_payments]. *)
Definition notarization_nonce (coins : list Coin) : bytes32 :=
  let sorted_coins := sorted_by_name coins in
  let sorted_coin_list := map Coin_as_list sorted_coins in
  get_tree_hash (Program_to (VList sorted_coin_list)).
End offer.

(** ** Offers as objects: [aggregate]

    [aggregate] stores the payment lists of its arguments in the dictionary
    it builds and then extends them in place, so here the payment lists are
    objects of a store and an offer holds references to them.  The
    dictionaries of the arguments are only read, and the dictionary under
    construction is new, so dictionaries are kept by value. *)

Abbreviation loc := nat.

(** The list objects: the payments held by the list at each address. *)
Abbreviation store := (list (list NotarizedPayment)).

Definition deref (σ : store) (l : loc) : list NotarizedPayment :=
  default [] (σ !! l).

(** [a.extend(b)] for the list objects at [a] and [b], which may be the same
    object. *)
Definition list_extend (σ : store) (a b : loc) : store :=
  <[a := deref σ a ++ deref σ b]> σ.

Record OfferObj (Program G2Element : Type) : Type := mkOfferObj {
  obj_requested_payments : dict AssetKey loc;
  obj_bundle : SpendBundle Program G2Element;
}.
Arguments mkOfferObj {Program G2Element} _ _.
Arguments obj_requested_payments {Program G2Element} o.
Arguments obj_bundle {Program G2Element} o.

(** What the fields of an offer object hold in the store [σ]. *)
Definition Offer_value {Program G2Element : Type} (σ : store)
    (o : OfferObj Program G2Element) : Offer Program G2Element :=
  mkOffer (map (λ '(k, l), (k, deref σ l)) (obj_requested_payments o)) (obj_bundle o).

Section aggregate.
Context {Program G2Element : Type} `{!Externals Program G2Element}.

#[local] Abbreviation SpendBundle := (SpendBundle Program G2Element).
#[local] Abbreviation OfferObj := (OfferObj Program G2Element).

(** [{cs.coin for cs in b.coin_spends}] *)
Definition input_coins (b : SpendBundle) : gset Coin :=
  list_to_set (map coin (coin_spends b)).

(** Lines 157 to 160: one item of the dictionary of an offer. *)
Definition aggregate_item (acc : store * dict AssetKey loc) (item : AssetKey * loc)
    : store * dict AssetKey loc :=
  let '(σ, total_requested_payments) := acc in
  let '(tail, payments) := item in
  match dict_get tail total_requested_payments with
  | Some l => (list_extend σ l payments, total_requested_payments)
  | None => (σ, dict_set tail payments total_requested_payments)
  end.

(** The loop of [aggregate] over the offers. *)
Fixpoint aggregate_loop (offers : list OfferObj) (σ : store)
    (total_requested_payments : dict AssetKey loc) (total_bundle : SpendBundle)
    : store * result (dict AssetKey loc * SpendBundle) :=
  match offers with
  | [] => (σ, Ok (total_requested_payments, total_bundle))
  | offer :: offers' =>
      let total_inputs := input_coins total_bundle in
      let offer_inputs := input_coins (obj_bundle offer) in
      if decide (total_inputs ∩ offer_inputs ≠ ∅) then (σ, Raise OverlappingInputs)
      else
        let '(σ', total') :=
          foldl aggregate_item (σ, total_requested_payments) (obj_requested_payments offer) in
        aggregate_loop offers' σ' total' (SpendBundle_aggregate [total_bundle; obj_bundle offer])
  end.

(** [Offer.aggregate(offers)], run in the store [σ]: the store it leaves and
    the offer it returns or the exception it raises. *)
Definition aggregate (σ : store) (offers : list OfferObj) : store * result OfferObj :=
  match aggregate_loop offers σ [] (mkSpendBundle [] G2Element_default) with
  | (σ', Raise e) => (σ', Raise e)
  | (σ', Ok (total_requested_payments, total_bundle)) =>
      let o := mkOfferObj total_requested_payments total_bundle in
      (σ', _ ← __post_init__ (Offer_value σ' o); Ok o)
  end.
End aggregate.

(** ** Dictionaries as objects: [notarize_payments]

    [notarize_payments] assigns into the dictionary it is given and returns
    it, so here dictionaries are objects too.  The lists of a dictionary are
    payments of either class. *)

Inductive PaymentObj : Type :=
  | PlainPayment (p : Payment)
  | Notarized (np : NotarizedPayment).

(** The three fields that [as_condition_args()] lists, for either class. *)
Definition payment_fields (p : PaymentObj) : Payment :=
  match p with
  | PlainPayment p => p
  | Notarized np => np_payment np
  end.

Record heap : Type := mkHeap {
  h_dicts : list (dict AssetKey loc);
  h_lists : list (list PaymentObj);
}.

Definition heap_dict (h : heap) (d : loc) : dict AssetKey loc :=
  default [] (h_dicts h !! d).

Definition heap_list (h : heap) (l : loc) : list PaymentObj :=
  default [] (h_lists h !! l).

Section notarize.
Context {Program G2Element : Type} `{!Externals Program G2Element}.

(** Line 59: a new list object is built from the list [payments] and the
    dictionary object [d] is assigned at [tail_hash]. *)
Definition notarize_item (nonce : bytes32) (d : loc) (h : heap) (item : AssetKey * loc) : heap :=
  let '(tail_hash, payments) := item in
  let notarized :=
    map (λ p, Notarized (mkNotarizedPayment (payment_fields p) nonce)) (heap_list h payments) in
  let new_list : loc := length (h_lists h) in
  mkHeap (alter (dict_set tail_hash new_list) d (h_dicts h))
         (h_lists h ++ [notarized]).

(** [Offer.notarize_payments(requested_payments, coins)], run in the heap
    [h]: the heap it leaves and the reference it returns.  The loop assigns
    only at keys the dictionary has, so the items it visits are the items
    the dictionary had when the loop started. *)
Definition notarize_payments (h : heap) (requested_payments : loc) (coins : list Coin)
    : heap * loc :=
  let nonce := notarization_nonce coins in
  (foldl (notarize_item nonce requested_payments) h (heap_dict h requested_payments),
   requested_payments).
End notarize.

(** ** A reference instance of the collaborators

    Programs are S-expressions whose atoms keep their Python type, hashing is
    a numbering of the programs by Cantor's pairing, a puzzle creates
    the coins that the [(51 puzzle_hash amount)] conditions of its solution
    list, and signatures are integers under addition. *)

Inductive RProgram : Type :=
  | RNil
  | RHash (h : bytes32)
  | RInt (z : Z)
  | RBytes (b : list byte)
  | RCons (a b : RProgram).

#[export] Instance byte_eq_dec : EqDecision byte := Byte.byte_eq_dec.

#[export] Instance RProgram_eq_dec : EqDecision RProgram.
Proof. solve_decision. Defined.

(** Cantor's pairing of two numbers. *)
Definition cantor (a b : N) : N := ((a + b) * (a + b + 1) / 2 + b)%N.

Definition code_Z (z : Z) : N :=
  if decide (z < 0) then (2 * Z.to_N (- z) + 1)%N else (2 * Z.to_N z)%N.

Definition code_bytes (b : list byte) : N :=
  foldr (λ x n, Byte.to_N x + 1 + 257 * n)%N 0%N b.

Fixpoint ref_tree_hash (p : RProgram) : bytes32 :=
  match p with
  | RNil => 0
  | RHash h => 4 * h + 1
  | RInt z => 4 * code_Z z + 2
  | RBytes b => 4 * code_bytes b + 3
  | RCons a b => 4 * cantor (ref_tree_hash a) (ref_tree_hash b) + 4
  end%N.

Definition ref_Coin_name (c : Coin) : bytes32 :=
  (cantor (parent_coin_info c) (cantor (puzzle_hash c) (code_Z (amount c))) + 1)%N.

Fixpoint ref_Program_to (v : PyVal RProgram) : RProgram :=
  match v with
  | VBytes32 h => RHash h
  | VInt z => RInt z
  | VBytes b => RBytes b
  | VList l => foldr (λ x r, RCons (ref_Program_to x) r) RNil l
  | VProgram p => p
  end.

Fixpoint ref_as_iter (p : RProgram) : list RProgram :=
  match p with
  | RCons a b => a :: ref_as_iter b
  | _ => []
  end.

Definition ref_as_bytes32 (p : RProgram) : option bytes32 :=
  match p with
  | RHash h => Some h
  | _ => None
  end.

Definition ref_OFFER_MOD : RProgram := RBytes [x6f; x66; x66; x65; x72].
Definition ref_CAT_MOD : RProgram := RBytes [x63; x61; x74].

(** Currying: the module followed by its three arguments. *)
Definition ref_construct_cat_puzzle (mod_code : RProgram) (tail : bytes32)
    (inner : RProgram) : RProgram :=
  RCons mod_code
    (RCons (RHash (ref_tree_hash mod_code)) (RCons (RHash tail) (RCons inner RNil))).

Definition ref_match_cat_puzzle (p : RProgram) : option (list RProgram) :=
  match p with
  | RCons m curried_args =>
      if decide (m = ref_CAT_MOD) then Some (ref_as_iter curried_args) else None
  | _ => None
  end.

(** The coins created by a spend: one per [(51 puzzle_hash amount)]
    condition of the solution, with the spent coin as parent. *)
Definition ref_created_coin (parent : bytes32) (condition : RProgram) : list Coin :=
  match condition with
  | RCons (RInt 51) (RCons (RHash ph) (RCons (RInt amt) _)) => [mkCoin parent ph amt]
  | _ => []
  end.

Definition ref_additions (cs : CoinSpend RProgram) : list Coin :=
  concat (map (ref_created_coin (ref_Coin_name (coin cs))) (ref_as_iter (solution cs))).

Definition ref_memo (p : RProgram) : list byte :=
  match p with
  | RBytes b => b
  | _ => []
  end.

(** The positions 1, 2 and 3 of the condition are the puzzle hash, the
    amount and the memos; position 0 is not read. *)
Definition ref_Payment_from_condition (condition : RProgram) : result Payment :=
  match ref_as_iter condition with
  | _ :: RHash ph :: RInt amt :: rest =>
      if decide (0 ≤ amt < 2 ^ 64) then
        match rest with
        | [] => Ok (mkPayment ph amt [])
        | memos :: _ => Ok (mkPayment ph amt (map ref_memo (ref_as_iter memos)))
        end
      else Raise Overflow
  | _ => Raise Malformed
  end.

Definition ref_cat_spend_solution (sc : SpendableCAT RProgram) : RProgram :=
  RCons (sc_inner_solution sc)
    (RCons (RHash (lp_parent_name (sc_lineage_proof sc)))
       (RCons (RHash (lp_inner_puzzle_hash (sc_lineage_proof sc)))
          (RCons (RInt (lp_amount (sc_lineage_proof sc))) RNil))).

(** The reference codec: a spend bundle is numbered, and the number is
    written one binary digit per byte. *)
Fixpoint RProgram_to_tree (p : RProgram) : gen_tree (N + Z + list N) :=
  match p with
  | RNil => GenNode 0 []
  | RHash h => GenLeaf (inl (inl h))
  | RInt z => GenLeaf (inl (inr z))
  | RBytes b => GenLeaf (inr (map Byte.to_N b))
  | RCons a b => GenNode 1 [RProgram_to_tree a; RProgram_to_tree b]
  end.

Definition N_to_byte (n : N) : byte := default x00 (Byte.of_N n).

Fixpoint RProgram_of_tree (t : gen_tree (N + Z + list N)) : RProgram :=
  match t with
  | GenLeaf (inl (inl h)) => RHash h
  | GenLeaf (inl (inr z)) => RInt z
  | GenLeaf (inr b) => RBytes (map N_to_byte b)
  | GenNode 1 [a; b] => RCons (RProgram_of_tree a) (RProgram_of_tree b)
  | GenNode _ _ => RNil
  end.

#[export] Instance RProgram_countable : Countable RProgram.
Proof.
  apply (inj_countable' RProgram_to_tree RProgram_of_tree).
  induction x as [| | |b|a IHa b IHb]; simpl; try done.
  - f_equal. induction b as [|x b IH]; simpl; [done|].
    rewrite IH. unfold N_to_byte. by rewrite Byte.of_to_N.
  - by rewrite IHa, IHb.
Defined.

#[export] Instance CoinSpend_eq_dec {Program : Type} `{EqDecision Program} :
  EqDecision (CoinSpend Program).
Proof. solve_decision. Defined.

#[export] Instance SpendBundle_eq_dec {Program G2Element : Type}
  `{EqDecision Program, EqDecision G2Element} : EqDecision (SpendBundle Program G2Element).
Proof. solve_decision. Defined.

#[export] Instance ref_CoinSpend_countable : Countable (CoinSpend RProgram).
Proof.
  apply (inj_countable' (λ cs, (coin cs, puzzle_reveal cs, solution cs))
                        (λ t, mkCoinSpend t.1.1 t.1.2 t.2)).
  by intros [].
Defined.

#[export] Instance ref_SpendBundle_countable : Countable (SpendBundle RProgram Z).
Proof.
  apply (inj_countable' (λ b, (coin_spends b, aggregated_signature b))
                        (λ t, mkSpendBundle t.1 t.2)).
  by intros [].
Defined.

Fixpoint positive_to_bytes (p : positive) : list byte :=
  match p with
  | xH => []
  | xO p => x00 :: positive_to_bytes p
  | xI p => x01 :: positive_to_bytes p
  end.

Fixpoint positive_of_bytes (bs : list byte) : option positive :=
  match bs with
  | [] => Some xH
  | x00 :: bs => xO <$> positive_of_bytes bs
  | x01 :: bs => xI <$> positive_of_bytes bs
  | _ => None
  end.

Definition ref_SpendBundle_bytes (b : SpendBundle RProgram Z) : list byte :=
  positive_to_bytes (encode b).

Definition ref_SpendBundle_from_bytes (bs : list byte) : result (SpendBundle RProgram Z) :=
  match positive_of_bytes bs ≫= decode with
  | Some b => Ok b
  | None => Raise Malformed
  end.

#[export] Instance ref_externals : Externals RProgram Z := {|
  Coin_name := ref_Coin_name;
  get_tree_hash := ref_tree_hash;
  Program_to := ref_Program_to;
  as_iter := ref_as_iter;
  as_bytes32 := ref_as_bytes32;
  OFFER_MOD := ref_OFFER_MOD;
  CAT_MOD := ref_CAT_MOD;
  construct_cat_puzzle := ref_construct_cat_puzzle;
  match_cat_puzzle := ref_match_cat_puzzle;
  CoinSpend_additions := ref_additions;
  Payment_from_condition := ref_Payment_from_condition;
  cat_spend_solution := ref_cat_spend_solution;
  G2Element_default := 0;
  AugSchemeMPL_aggregate := foldr Z.add 0;
  SpendBundle_bytes := ref_SpendBundle_bytes;
  SpendBundle_from_bytes := ref_SpendBundle_from_bytes;
|}.


(** ** Announcements, and offers on a stream *)

(** Modelled from the spec: [chia.types.announcement.Announcement] is not in
    the sources; an announcement is the pair of the puzzle hash of its
    originator and the hash of its message. *)
Record Announcement : Type := mkAnnouncement {
  origin_info : bytes32;
  message : bytes32;
}.

#[export] Instance Announcement_eq_dec : EqDecision Announcement.
Proof. solve_decision. Defined.

(** What [parse] and [stream] call on the stream [f]: [SpendBundle.parse(f)]
    reads a spend bundle from the front of the unread bytes and leaves the
    rest, or fails; [spend_bundle.stream(f)] writes bytes at the end. *)
Class StreamExternals (Program G2Element : Type) : Type := {
  SpendBundle_parse : list byte → result (SpendBundle Program G2Element * list byte);
  SpendBundle_stream : SpendBundle Program G2Element → list byte;
}.

Section announcements.
Context {Program G2Element : Type} `{!Externals Program G2Element}.

(** [Offer.ph()] *)
Definition ph : bytes32 := get_tree_hash OFFER_MOD.

(** [Offer.calculate_announcements(notarized_payments)]: a tail, being a
    [bytes32], is truthy, so [if tail] tells a CAT from XCH. *)
Definition calculate_announcements
    (notarized_payments : dict AssetKey (list NotarizedPayment)) : list Announcement :=
  foldl (λ announcements '(tail, payments),
           let settlement_ph :=
             match tail with
             | Some tail => get_tree_hash (construct_cat_puzzle CAT_MOD tail OFFER_MOD)
             | None => get_tree_hash OFFER_MOD
             end in
           let messages := map (λ p, get_tree_hash (as_condition p)) payments in
           announcements ++ map (mkAnnouncement settlement_ph) messages)
        [] notarized_payments.

Context `{!StreamExternals Program G2Element}.

(** [Offer.parse(f)], on the unread bytes of [f]: the offer and the bytes
    left unread. *)
Definition parse (f : list byte) : result (Offer Program G2Element * list byte) :=
  '(parsed_bundle, f') ← SpendBundle_parse f;
  offer ← from_bytes (SpendBundle_bytes parsed_bundle);
  Ok (offer, f').

(** [self.stream(f)], on the bytes written to [f] so far: the bytes written
    afterwards. *)
Definition stream (self : Offer Program G2Element) (f : list byte) : result (list byte) :=
  as_spend_bundle ← SpendBundle_from_bytes (__bytes__ self);
  Ok (f ++ SpendBundle_stream as_spend_bundle).
End announcements.

(** The reference stream format: the bytes of the spend bundle, which are
    binary digits, closed by the byte 2. *)
Fixpoint ref_split_frame (f : list byte) : option (list byte * list byte) :=
  match f with
  | [] => None
  | x02 :: rest => Some ([], rest)
  | x :: f' => (λ '(frame, rest), (x :: frame, rest)) <$> ref_split_frame f'
  end.

Definition ref_SpendBundle_parse (f : list byte)
    : result (SpendBundle RProgram Z * list byte) :=
  match ref_split_frame f with
  | Some (frame, rest) => b ← ref_SpendBundle_from_bytes frame; Ok (b, rest)
  | None => Raise Malformed
  end.

#[export] Instance ref_stream_externals : StreamExternals RProgram Z := {|
  SpendBundle_parse := ref_SpendBundle_parse;
  SpendBundle_stream := λ b, ref_SpendBundle_bytes b ++ [x02];
|}.

(** ** The data layer RPC: [process_change] of [chia/rpc/data_layer_rpc_api.py] *)

From stdpp Require Import strings.

Open Scope Z_scope.

(** The exceptions of [process_change]: the [KeyError] of [change["key"]]
    on a dictionary without the key, and whatever a conversion raises. *)
Inductive rpc_exn (E : Type) : Type :=
  | MissingKey (k : string)
  | ConversionError (e : E).
Arguments MissingKey {E} k.
Arguments ConversionError {E} e.

Inductive rpc_result (E A : Type) : Type :=
  | Return (a : A)
  | Throw (e : rpc_exn E).
Arguments Return {E A} a.
Arguments Throw {E A} e.

#[export] Instance rpc_result_ret {E : Type} : MRet (rpc_result E) := λ A a, Return a.
#[export] Instance rpc_result_bind {E : Type} : MBind (rpc_result E) := λ A B f m,
  match m with
  | Return a => f a
  | Throw e => Throw e
  end.

(** The values of a [Dict[str, Any]] are Python objects of any class, one of
    which is [None]; the conversions that the module imports are functions
    on objects that return an object or raise. *)
Class Conversions (Any E : Type) : Type := {
  PyNone : Any;
  Any_eq_dec :: EqDecision Any;
  (** [hexstr_to_bytes(v)] *)
  hexstr_to_bytes : Any → E + Any;
  (** [bytes32(v)] *)
  to_bytes32 : Any → E + Any;
  (** [Side(v)] *)
  to_Side : Any → E + Any;
}.

Section process_change.
Context {Any E : Type} `{!Conversions Any E}.

(** A call of a conversion. *)
Definition call (r : E + Any) : rpc_result E Any :=
  match r with
  | inl e => Throw (ConversionError e)
  | inr v => Return v
  end.

(** [change.get(k)], which is [None] without the key. *)
Definition get_or_None (k : string) (change : dict string Any) : Any :=
  default PyNone (dict_get k change).

(** [change[k]] *)
Definition getitem (k : string) (change : dict string Any) : rpc_result E Any :=
  match dict_get k change with
  | Some v => Return v
  | None => Throw (MissingKey k)
  end.

Definition process_change (change : dict string Any) : rpc_result E (dict string Any) :=
  let reference_node_hash := get_or_None "reference_node_hash" change in
  reference_node_hash ←
    (if decide (reference_node_hash ≠ PyNone)
     then b ← call (hexstr_to_bytes reference_node_hash); call (to_bytes32 b)
     else Return reference_node_hash);
  let side := get_or_None "side" change in
  side ← (if decide (side ≠ PyNone) then call (to_Side side) else Return side);
  let value := get_or_None "value" change in
  value ← (if decide (value ≠ PyNone) then call (hexstr_to_bytes value) else Return value);
  raw_key ← getitem "key" change;
  key ← call (hexstr_to_bytes raw_key);
  Return (dict_set "side" side
            (dict_set "reference_node_hash" reference_node_hash
               (dict_set "value" value
                  (dict_set "key" key change)))).
End process_change.

(** ** Notions used to state the properties *)

Section notions.
Context {Program G2Element : Type} `{!Externals Program G2Element}.

(** Every addition of the bundle has a parent among the coin spends of the
    bundle. *)
Definition well_formed_bundle (b : SpendBundle Program G2Element) : Prop :=
  ∀ a, a ∈ additions b →
    ∃ cs, cs ∈ coin_spends b ∧ Coin_name (coin cs) = parent_coin_info a.

(** Under some asset key, two requested payments have the same name. *)
Definition duplicate_payment (rp : dict AssetKey (list NotarizedPayment)) : Prop :=
  ∃ k payments i j p q,
    (k, payments) ∈ rp ∧ i ≠ j ∧
    payments !! i = Some p ∧ payments !! j = Some q ∧ name p = name q.

(** The amounts of the requested payments are [uint64] values. *)
Definition uint64_payments (rp : dict AssetKey (list NotarizedPayment)) : Prop :=
  ∀ k payments np, (k, payments) ∈ rp → np ∈ payments →
    0 ≤ p_amount (np_payment np) < 2 ^ 64.

(** Every CAT parent puzzle of an addition can be read: it has three
    curried arguments, the second of which is a [bytes32]. *)
Definition readable_parents (b : SpendBundle Program G2Element) : Prop :=
  ∀ a cs curried_args,
    a ∈ additions b →
    parent_spend_of b (parent_coin_info a) = Ok cs →
    match_cat_puzzle (puzzle_reveal cs) = Some curried_args →
    ∃ mod_hash tail_hash inner_puzzle tail,
      curried_args = [mod_hash; tail_hash; inner_puzzle] ∧ as_bytes32 tail_hash = Some tail.

(** Every requested payment is read back from its condition by
    [Payment.from_condition]. *)
Definition payments_read_back (rp : dict AssetKey (list NotarizedPayment)) : Prop :=
  ∀ k payments np, (k, payments) ∈ rp → np ∈ payments →
    Payment_from_condition (as_condition np) = Ok (np_payment np).

(** What the round trip of an offer through bytes relies on from the
    collaborators, [Payment] apart: the spend bundle codec round-trips,
    [G2Element()] is neutral for the aggregation of signatures, the
    settlement puzzle alone is not a CAT while its CAT wrapping is one with
    the tail it was built from, [Program.to] of a list is the list of the
    programs of its elements, and a [bytes32] is read back from its
    program. *)
Class CodecLaws : Prop := {
  law_codec : ∀ b : SpendBundle Program G2Element,
    SpendBundle_from_bytes (SpendBundle_bytes b) = Ok b;
  law_signature : ∀ s : G2Element, AugSchemeMPL_aggregate [G2Element_default; s] = s;
  law_offer_mod : match_cat_puzzle OFFER_MOD = None;
  law_cat : ∀ tail, ∃ m t i,
    match_cat_puzzle (construct_cat_puzzle CAT_MOD tail OFFER_MOD) = Some [m; t; i] ∧
    as_bytes32 t = Some tail;
  law_iter : ∀ l, as_iter (Program_to (VList l)) = map Program_to l;
  law_program : ∀ p, Program_to (VProgram p) = p;
  law_bytes32 : ∀ h, as_bytes32 (Program_to (VBytes32 h)) = Some h;
}.

(** The same, and a payment with a [uint64] amount is read back from its
    condition. *)
Class RoundTripLaws : Prop := {
  round_trip_codec_laws :: CodecLaws;
  law_payment : ∀ np, 0 ≤ p_amount (np_payment np) < 2 ^ 64 →
    Payment_from_condition (as_condition np) = Ok (np_payment np);
}.

(** The asset key under which [get_offered_coins] files the addition [a]:
    the key of its parent puzzle when [a] pays to the settlement puzzle hash
    of that key, and none otherwise. *)
Definition asset_of (b : SpendBundle Program G2Element) (a : Coin) : option AssetKey :=
  match parent_spend_of b (parent_coin_info a) with
  | Ok cs =>
      match offer_target (puzzle_reveal cs) with
      | Ok (tail_hash, offer_ph) =>
          if decide (puzzle_hash a = offer_ph) then Some tail_hash else None
      | Raise _ => None
      end
  | Raise _ => None
  end.
(** Every sum of amounts that the two amount views of an offer take, over
    the coins offered under a key and over the payments requested under a
    key, is a [uint64]. *)
Definition amounts_fit (self : Offer Program G2Element)
    (offered : dict AssetKey (list Coin)) : Prop :=
  (∀ k coins, (k, coins) ∈ offered → 0 ≤ sum_amounts amount coins < 2 ^ 64) ∧
  (∀ k payments, (k, payments) ∈ requested_payments self →
     0 ≤ sum_amounts (λ np, p_amount (np_payment np)) payments < 2 ^ 64).
End notions.

(** The list a dictionary of lists holds under [k], empty without the key. *)
Definition entries {K V : Type} `{EqDecision K} (k : K) (d : dict K (list V)) : list V :=
  default [] (dict_get k d).


Section aggregate_notions.
Context {Program G2Element : Type}.
Implicit Types (o : OfferObj Program G2Element) (offers : list (OfferObj Program G2Element)).

(** The coins an offer spends. *)
Definition offer_inputs o : list Coin := map coin (coin_spends (obj_bundle o)).

(** Some coin is spent by two offers at different places of the list. *)
Definition overlapping offers : Prop :=
  ∃ i j oi oj c,
    (i < j)%nat ∧ offers !! i = Some oi ∧ offers !! j = Some oj ∧
    c ∈ offer_inputs oi ∧ c ∈ offer_inputs oj.

(** The payment lists of the offers for the key [k], in the store [σ],
    concatenated in the order of the offers. *)
Definition payments_for (σ : store) (k : AssetKey) offers : list NotarizedPayment :=
  concat (map (λ o, match dict_get k (obj_requested_payments o) with
                    | Some l => deref σ l
                    | None => []
                    end) offers).

(** All the items of the dictionaries of the offers, in order. *)
Definition all_items offers : list (AssetKey * loc) :=
  concat (map obj_requested_payments offers).

(** The dictionaries of the offers are dictionaries, and their payment lists
    are different list objects of the store. *)
Definition unshared (σ : store) offers : Prop :=
  (∀ o, o ∈ offers → dict_wf (obj_requested_payments o)) ∧
  NoDup (map snd (all_items offers)) ∧
  (∀ l, l ∈ map snd (all_items offers) → (l < length σ)%nat).

(** Two coins with the same name are spent by two offers at different places
    of the list. *)
Definition overlapping_by_name (name_of : Coin → bytes32) offers : Prop :=
  ∃ i j oi oj ci cj,
    (i < j)%nat ∧ offers !! i = Some oi ∧ offers !! j = Some oj ∧
    ci ∈ offer_inputs oi ∧ cj ∈ offer_inputs oj ∧ name_of ci = name_of cj.

(** Some offer of the list spends a coin of the bundle [tb]. *)
Definition overlaps_prior (tb : SpendBundle Program G2Element) offers : Prop :=
  ∃ j oj c, offers !! j = Some oj ∧ c ∈ map coin (coin_spends tb) ∧ c ∈ offer_inputs oj.

(** No coin name is spent by two offers at different places of the list. *)
Definition names_disjoint (name_of : Coin → bytes32) offers : Prop :=
  ∀ i j oi oj csi csj,
    i ≠ j → offers !! i = Some oi → offers !! j = Some oj →
    csi ∈ coin_spends (obj_bundle oi) → csj ∈ coin_spends (obj_bundle oj) →
    name_of (coin csi) ≠ name_of (coin csj).
End aggregate_notions.

(** The payments the dictionary [total] holds under [k] in the store [σ]. *)
Definition held (σ : store) (total : dict AssetKey loc) (k : AssetKey)
    : list NotarizedPayment :=
  match dict_get k total with
  | Some l => deref σ l
  | None => []
  end.

#[export] Instance exn_eq_dec : EqDecision exn.
Proof. solve_decision. Defined.

#[export] Instance result_eq_dec {A : Type} `{EqDecision A} : EqDecision (result A).
Proof. solve_decision. Defined.

Section more_notions.
Context {Program G2Element : Type} `{!Externals Program G2Element}.

(** Lines 255 to 260: the asset key that [from_bytes] reads off the puzzle
    of a dummy spend. *)
Definition dummy_key (coin_spend : CoinSpend Program) : result AssetKey :=
  match match_cat_puzzle (puzzle_reveal coin_spend) with
  | Some curried_args =>
      '(_, tail_hash, _) ← unpack3 curried_args;
      tail_hash ← bytes32_of tail_hash;
      Ok (Some tail_hash)
  | None => Ok None
  end.

(** The coin spends that [from_bytes] takes for the dummy spend of the key
    [k]: the parent of the coin is [ZERO_32] and the puzzle has the key. *)
Definition dummy_for (k : AssetKey) (coin_spend : CoinSpend Program) : Prop :=
  parent_coin_info (coin coin_spend) = ZERO_32 ∧ dummy_key coin_spend = Ok k.

#[export] Instance dummy_for_dec k coin_spend : Decision (dummy_for k coin_spend).
Proof. unfold dummy_for. apply _. Defined.
End more_notions.

(** What the round trip of an offer through a stream relies on from the
    collaborators: [SpendBundle.parse] reads back what [stream] wrote and
    stops there. *)
Class StreamLaws {Program G2Element : Type} `{!StreamExternals Program G2Element} : Prop := {
  law_parse_stream : ∀ (b : SpendBundle Program G2Element) (rest : list byte),
    SpendBundle_parse (SpendBundle_stream b ++ rest) = Ok (b, rest);
}.

(** ** Example offers over the reference instance *)

(** The settlement puzzle hashes of XCH and of the CAT with tail [ex_tail]. *)
Definition ex_native_ph : bytes32 := ref_tree_hash ref_OFFER_MOD.
Definition ex_tail : bytes32 := 77%N.
Definition ex_cat_ph : bytes32 :=
  ref_tree_hash (ref_construct_cat_puzzle ref_CAT_MOD ex_tail ref_OFFER_MOD).

(** The condition [(51 puzzle_hash amount)]. *)
Definition ex_create_coin (ph : bytes32) (amt : Z) : RProgram :=
  RCons (RInt 51) (RCons (RHash ph) (RCons (RInt amt) RNil)).

(** The puzzle of the offerer's wallet, and its CAT wrapping. *)
Definition ex_wallet_puzzle : RProgram := RInt 1.
Definition ex_wallet_cat_puzzle : RProgram :=
  ref_construct_cat_puzzle ref_CAT_MOD ex_tail ex_wallet_puzzle.

(** The spend of an XCH coin that pays [out] to the settlement puzzle. *)
Definition ex_native_spend (parent : bytes32) (amt out : Z) : CoinSpend RProgram :=
  mkCoinSpend (mkCoin parent (ref_tree_hash ex_wallet_puzzle) amt) ex_wallet_puzzle
              (RCons (ex_create_coin ex_native_ph out) RNil).

(** The spend of a CAT coin that pays [out] to the CAT settlement puzzle. *)
Definition ex_cat_spend (parent : bytes32) (amt out : Z) : CoinSpend RProgram :=
  mkCoinSpend (mkCoin parent (ref_tree_hash ex_wallet_cat_puzzle) amt) ex_wallet_cat_puzzle
              (RCons (ex_create_coin ex_cat_ph out) RNil).

Definition ex_payment (ph : bytes32) (amt : Z) (n : bytes32) : NotarizedPayment :=
  mkNotarizedPayment (mkPayment ph amt []) n.

(** Offer A: 1000 XCH offered, 500 of the CAT requested. *)
Definition ex_bundle_A : SpendBundle RProgram Z :=
  mkSpendBundle [ex_native_spend 11%N 1000 1000] 5.
Definition ex_offer_A : Offer RProgram Z :=
  mkOffer [(Some ex_tail, [ex_payment 33%N 500 9%N])] ex_bundle_A.

(** Offer B mirrors A: 500 of the CAT offered, 1000 XCH requested. *)
Definition ex_bundle_B : SpendBundle RProgram Z :=
  mkSpendBundle [ex_cat_spend 12%N 500 500] 7.
Definition ex_offer_B : Offer RProgram Z :=
  mkOffer [(None, [ex_payment 34%N 1000 8%N])] ex_bundle_B.

(** A and B as objects of a store. *)
Definition ex_store_AB : store := [[ex_payment 33%N 500 9%N]; [ex_payment 34%N 1000 8%N]].
Definition ex_obj_A : OfferObj RProgram Z := mkOfferObj [(Some ex_tail, 0%nat)] ex_bundle_A.
Definition ex_obj_B : OfferObj RProgram Z := mkOfferObj [(None, 1%nat)] ex_bundle_B.
Definition ex_obj_AB : OfferObj RProgram Z :=
  mkOfferObj [(Some ex_tail, 0%nat); (None, 1%nat)]
             (mkSpendBundle [ex_native_spend 11%N 1000 1000; ex_cat_spend 12%N 500 500] 12).

(** Offer C: 1000 XCH offered, 700 XCH requested, a surplus of 300. *)
Definition ex_bundle_C : SpendBundle RProgram Z :=
  mkSpendBundle [ex_native_spend 13%N 1000 1000] 3.
Definition ex_offer_C : Offer RProgram Z :=
  mkOffer [(None, [ex_payment 33%N 700 9%N])] ex_bundle_C.

(** The coin offer C offers, and the spend bundle that completes C with the
    payout puzzle hash 44. *)
Definition ex_coin_C : Coin :=
  mkCoin (ref_Coin_name (coin (ex_native_spend 13%N 1000 1000))) ex_native_ph 1000.
Definition ex_condition (n ph : bytes32) (amt : Z) : RProgram :=
  RCons (RHash n) (RCons (RHash ph) (RCons (RInt amt) (RCons RNil RNil))).
Definition ex_completion_C : SpendBundle RProgram Z :=
  mkSpendBundle
    [mkCoinSpend ex_coin_C ref_OFFER_MOD
       (RCons (ex_condition 9%N 33%N 700) (RCons (ex_condition ZERO_32 44%N 300) RNil));
     ex_native_spend 13%N 1000 1000] 3.

(** Offer D: 500 XCH offered, 200 XCH requested. *)
Definition ex_bundle_D : SpendBundle RProgram Z :=
  mkSpendBundle [ex_native_spend 14%N 500 500] 4.

(** C and D as objects of a store: both request XCH. *)
Definition ex_store_CD : store := [[ex_payment 33%N 700 9%N]; [ex_payment 34%N 200 8%N]].
Definition ex_obj_C : OfferObj RProgram Z := mkOfferObj [(None, 0%nat)] ex_bundle_C.
Definition ex_obj_D : OfferObj RProgram Z := mkOfferObj [(None, 1%nat)] ex_bundle_D.

(** What [aggregate] returns for C and D, and the store it leaves. *)
Definition ex_store_CD' : store :=
  [[ex_payment 33%N 700 9%N; ex_payment 34%N 200 8%N]; [ex_payment 34%N 200 8%N]].
Definition ex_obj_CD : OfferObj RProgram Z :=
  mkOfferObj [(None, 0%nat)]
             (mkSpendBundle [ex_native_spend 13%N 1000 1000; ex_native_spend 14%N 500 500] 7).

(** C and a copy of D that requests the very payment C requests. *)
Definition ex_store_CC : store := [[ex_payment 33%N 700 9%N]; [ex_payment 33%N 700 9%N]].

(** Offer K: 1000 XCH offered, and a payment of amount 0 requested in the
    CAT, of which nothing is offered. *)
Definition ex_offer_K : Offer RProgram Z :=
  mkOffer [(Some ex_tail, [ex_payment 33%N 0 9%N])] ex_bundle_A.

(** Offer Z: as A, with one more spend, of a coin whose parent is
    [ZERO_32]. *)
Definition ex_offer_Z : Offer RProgram Z :=
  mkOffer [(Some ex_tail, [ex_payment 33%N 500 9%N])]
          (mkSpendBundle [ex_native_spend 11%N 1000 1000; ex_native_spend ZERO_32 50 50] 5).

(** Offer M: as A, with a memo on the payment. *)
Definition ex_offer_M : Offer RProgram Z :=
  mkOffer [(Some ex_tail, [mkNotarizedPayment (mkPayment 33%N 500 [[x6d; x65]]) 9%N])]
          ex_bundle_A.

(** Two offers of 2^63 XCH each, requesting nothing. *)
Definition ex_obj_big1 : OfferObj RProgram Z :=
  mkOfferObj [] (mkSpendBundle [ex_native_spend 15%N (2 ^ 63) (2 ^ 63)] 1).
Definition ex_obj_big2 : OfferObj RProgram Z :=
  mkOfferObj [] (mkSpendBundle [ex_native_spend 16%N (2 ^ 63) (2 ^ 63)] 2).
Definition ex_obj_big : OfferObj RProgram Z :=
  mkOfferObj [] (mkSpendBundle [ex_native_spend 15%N (2 ^ 63) (2 ^ 63);
                                ex_native_spend 16%N (2 ^ 63) (2 ^ 63)] 3).

(** Offer S offers 1000 XCH and 500 of the CAT and requests 400 of each,
    with one list object under both keys; offer T offers 300 XCH and requests
    200 XCH. *)
Definition ex_store_ST : store := [[ex_payment 33%N 400 9%N]; [ex_payment 34%N 200 8%N]].
Definition ex_obj_S : OfferObj RProgram Z :=
  mkOfferObj [(None, 0%nat); (Some ex_tail, 0%nat)]
             (mkSpendBundle [ex_native_spend 17%N 1000 1000; ex_cat_spend 18%N 500 500] 1).
Definition ex_obj_T : OfferObj RProgram Z :=
  mkOfferObj [(None, 1%nat)] (mkSpendBundle [ex_native_spend 19%N 300 300] 2).
Definition ex_store_ST' : store :=
  [[ex_payment 33%N 400 9%N; ex_payment 34%N 200 8%N]; [ex_payment 34%N 200 8%N]].
Definition ex_obj_ST : OfferObj RProgram Z :=
  mkOfferObj [(None, 0%nat); (Some ex_tail, 0%nat)]
             (mkSpendBundle [ex_native_spend 17%N 1000 1000; ex_cat_spend 18%N 500 500;
                             ex_native_spend 19%N 300 300] 3).

(** The same payment requested twice, and nothing offered. *)
Definition ex_duplicates : dict AssetKey (list NotarizedPayment) :=
  [(None, [ex_payment 33%N 700 9%N; ex_payment 33%N 700 9%N])].
Definition ex_bundle_empty : SpendBundle RProgram Z := mkSpendBundle [] 0.

(** A heap with one dictionary of two payment lists, and two coins. *)
Definition ex_heap : heap :=
  mkHeap [[(None, 0%nat); (Some ex_tail, 1%nat)]]
         [[PlainPayment (mkPayment 33%N 700 [])];
          [PlainPayment (mkPayment 34%N 5 []); PlainPayment (mkPayment 35%N 6 [])]].
Definition ex_coin1 : Coin := coin (ex_native_spend 11%N 1000 1000).
Definition ex_coin2 : Coin := coin (ex_cat_spend 12%N 500 500).

(** The payment of offer C, requested twice. *)
Definition ex_duplicates_C : dict AssetKey (list NotarizedPayment) :=
  [(None, [ex_payment 33%N 700 9%N; ex_payment 33%N 700 9%N])].

(** ** Tactics for the examples *)

(** Case analysis on the membership in a list that is written out. *)
Ltac elem_cases H :=
  repeat match type of H with
         | _ ∈ [] => by apply elem_of_nil in H
         | _ ∈ _ :: _ => apply elem_of_cons in H as [H|H]
         end.

(** The same, after the list has been evaluated. *)
Ltac elem_compute H :=
  match type of H with
  | ?x ∈ ?l =>
      let l' := eval vm_compute in l in
      replace l with l' in H by (vm_compute; reflexivity)
  end;
  elem_cases H.

(** A list that is written out has no repeated element. *)
Ltac solve_NoDup :=
  unfold dict_wf, dict_keys; simpl; apply (bool_decide_unpack _); by vm_compute.

(** The lists of the offers of a list that is written out are different
    objects of the store. *)
Ltac solve_unshared :=
  split_and!;
  [ let o := fresh "o" in let Ho := fresh "Ho" in
    intros o Ho; elem_cases Ho; subst o; solve_NoDup
  | solve_NoDup
  | let l := fresh "l" in let Hl := fresh "Hl" in
    intros l Hl; elem_compute Hl; subst l; simpl; lia ].

(** No coin name is spent by two offers of a list of two that is written
    out. *)
Ltac solve_names_disjoint :=
  let i := fresh "i" in let j := fresh "j" in
  let Hi := fresh "Hi" in let Hj := fresh "Hj" in
  let Hcsi := fresh "Hcsi" in let Hcsj := fresh "Hcsj" in
  intros i j ? ? ? ? ? Hi Hj Hcsi Hcsj;
  destruct i as [|[|i]], j as [|[|j]]; simpl in Hi, Hj; try done;
  injection Hi as <-; injection Hj as <-;
  simpl in Hcsi, Hcsj; elem_cases Hcsi; elem_cases Hcsj; subst;
  vm_compute; discriminate.

(** ** Further examples *)

(** The coin offer A offers. *)
Definition ex_coin_A : Coin :=
  mkCoin (ref_Coin_name (coin (ex_native_spend 11%N 1000 1000))) ex_native_ph 1000.

(** The coin offer B offers. *)
Definition ex_coin_B : Coin :=
  mkCoin (ref_Coin_name (coin (ex_cat_spend 12%N 500 500))) ex_cat_ph 500.

(** Offer E: 1000 XCH offered and 1000 XCH requested, no surplus. *)
Definition ex_offer_E : Offer RProgram Z :=
  mkOffer [(None, [ex_payment 33%N 1000 9%N])] ex_bundle_C.

(** The spend bundle that completes E. *)
Definition ex_completion_E : SpendBundle RProgram Z :=
  mkSpendBundle
    [mkCoinSpend ex_coin_C ref_OFFER_MOD (RCons (ex_condition 9%N 33%N 1000) RNil);
     ex_native_spend 13%N 1000 1000] 3.

(** Offer F: two XCH coins offered, of 1000 and 500, and 700 XCH
    requested. *)
Definition ex_coin_D : Coin :=
  mkCoin (ref_Coin_name (coin (ex_native_spend 14%N 500 500))) ex_native_ph 500.
Definition ex_offer_F : Offer RProgram Z :=
  mkOffer [(None, [ex_payment 33%N 700 9%N])]
          (mkSpendBundle [ex_native_spend 13%N 1000 1000; ex_native_spend 14%N 500 500] 7).

(** The spend bundle that completes F with the payout puzzle hash 44. *)
Definition ex_completion_F : SpendBundle RProgram Z :=
  mkSpendBundle
    [mkCoinSpend ex_coin_C ref_OFFER_MOD
       (RCons (ex_condition 9%N 33%N 700) (RCons (ex_condition ZERO_32 44%N 800) RNil));
     mkCoinSpend ex_coin_D ref_OFFER_MOD RNil;
     ex_native_spend 13%N 1000 1000; ex_native_spend 14%N 500 500] 7.

(** Offer G: 1000 XCH and 500 of the CAT offered, 500 of the CAT and 1000
    XCH requested. *)
Definition ex_offer_G : Offer RProgram Z :=
  mkOffer [(Some ex_tail, [ex_payment 33%N 500 9%N]); (None, [ex_payment 34%N 1000 8%N])]
          (mkSpendBundle [ex_native_spend 11%N 1000 1000; ex_cat_spend 12%N 500 500] 12).

(** Offer H: the parent puzzle of its addition is the CAT module curried
    with a tail hash that is the integer 7, not a [bytes32].  Offer I: the
    parent puzzle is the CAT module curried with two arguments. *)
Definition ex_cat_puzzle_bad_tail : RProgram :=
  RCons ref_CAT_MOD
    (RCons (RHash (ref_tree_hash ref_CAT_MOD)) (RCons (RInt 7) (RCons ex_wallet_puzzle RNil))).
Definition ex_cat_puzzle_two_args : RProgram :=
  RCons ref_CAT_MOD (RCons (RHash (ref_tree_hash ref_CAT_MOD)) (RCons (RHash ex_tail) RNil)).
Definition ex_spend_of (puzzle : RProgram) (parent : bytes32) : CoinSpend RProgram :=
  mkCoinSpend (mkCoin parent (ref_tree_hash puzzle) 100) puzzle
              (RCons (ex_create_coin ex_native_ph 100) RNil).
Definition ex_offer_H : Offer RProgram Z :=
  mkOffer [] (mkSpendBundle [ex_spend_of ex_cat_puzzle_bad_tail 21%N] 1).
Definition ex_offer_I : Offer RProgram Z :=
  mkOffer [] (mkSpendBundle [ex_spend_of ex_cat_puzzle_two_args 22%N] 1).

(** A spend bundle with two dummy spends for XCH, the second of which
    carries the payment of offer C, and the spend of offer C. *)
Definition ex_dummy (payments : list NotarizedPayment) : CoinSpend RProgram :=
  mkCoinSpend (mkCoin ZERO_32 ex_native_ph 0) ref_OFFER_MOD
              (ref_Program_to (VList (map (λ np, VProgram (as_condition np)) payments))).
Definition ex_bundle_dummies : SpendBundle RProgram Z :=
  mkSpendBundle [ex_dummy [ex_payment 34%N 200 8%N]; ex_dummy [ex_payment 33%N 700 9%N];
                 ex_native_spend 13%N 1000 1000] 3.

(** A reference instance of the conversions.  Objects are [None], strings,
    integers, byte strings and the two sides; an exception is its message. *)
Inductive RValue : Type :=
  | RVNone
  | RVStr (s : string)
  | RVInt (z : Z)
  | RVBytes (b : list byte)
  | RVSide (right : bool).

#[export] Instance RValue_eq_dec : EqDecision RValue.
Proof. solve_decision. Defined.

Definition hex_digit (a : Ascii.ascii) : option N :=
  let n := Ascii.N_of_ascii a in
  if decide (48 ≤ n ≤ 57)%N then Some (n - 48)%N
  else if decide (97 ≤ n ≤ 102)%N then Some (n - 87)%N
  else if decide (65 ≤ n ≤ 70)%N then Some (n - 55)%N
  else None.

Fixpoint hex_bytes (s : string) : option (list byte) :=
  match s with
  | EmptyString => Some []
  | String a (String b s') =>
      hi ← hex_digit a; lo ← hex_digit b; rest ← hex_bytes s';
      Some (N_to_byte (16 * hi + lo) :: rest)
  | String _ EmptyString => None
  end.

Definition ref_hexstr_to_bytes (v : RValue) : string + RValue :=
  match v with
  | RVStr s =>
      let digits :=
        match s with
        | String a (String b s') =>
            if decide (Ascii.N_of_ascii a = 48 ∧
                       (Ascii.N_of_ascii b = 120 ∨ Ascii.N_of_ascii b = 88))%N
            then s' else s
        | _ => s
        end in
      match hex_bytes digits with
      | Some b => inr (RVBytes b)
      | None => inl "not a hexadecimal string"
      end
  | _ => inl "not a string"
  end.

Definition ref_to_bytes32 (v : RValue) : string + RValue :=
  match v with
  | RVBytes b => if decide (length b = 32%nat) then inr v else inl "not 32 bytes"
  | _ => inl "not bytes"
  end.

Definition ref_to_Side (v : RValue) : string + RValue :=
  match v with
  | RVInt 0 => inr (RVSide false)
  | RVInt 1 => inr (RVSide true)
  | _ => inl "not a side"
  end.

#[export] Instance ref_conversions : Conversions RValue string := {|
  PyNone := RVNone;
  hexstr_to_bytes := ref_hexstr_to_bytes;
  to_bytes32 := ref_to_bytes32;
  to_Side := ref_to_Side;
|}.

(** The change that inserts the value [0b0c] under the key [0a], and what
    [process_change] makes of it. *)
Definition ex_change : dict string RValue :=
  [("action", RVStr "insert"); ("key", RVStr "0x0a"); ("value", RVStr "0b0c")].
Definition ex_change_processed : dict string RValue :=
  [("action", RVStr "insert"); ("key", RVBytes [x0a]); ("value", RVBytes [x0b; x0c]);
   ("reference_node_hash", RVNone); ("side", RVNone)].

(** * Properties *)

(** ** The error monad and the loops *)

Lemma bind_Ok {A B : Type} (m : result A) (f : A → result B) (b : B) :
  m ≫= f = Ok b ↔ ∃ a, m = Ok a ∧ f a = Ok b.
Proof.
  destruct m as [a|e]; simpl; split.
  - eauto.
  - by intros (? & [= <-] & ?).
  - done.
  - by intros (? & ? & ?).
Qed.

Lemma foldM_app {A B : Type} (f : B → A → result B) (acc : B) (l1 l2 : list A) :
  foldM f acc (l1 ++ l2) = foldM f acc l1 ≫= λ acc', foldM f acc' l2.
Proof.
  revert acc. induction l1 as [|x l1 IH]; intros acc; simpl; [done|].
  destruct (f acc x) as [acc'|e]; simpl; [apply IH|done].
Qed.

(** A loop that cannot raise is a plain left fold. *)
Lemma foldM_total {A B : Type} (f : B → A → result B) (g : B → A → B) (acc : B) (l : list A) :
  (∀ b x, f b x = Ok (g b x)) → foldM f acc l = Ok (foldl g acc l).
Proof.
  intros Hf. revert acc. induction l as [|x l IH]; intros acc; simpl; [done|].
  rewrite Hf. simpl. apply IH.
Qed.

Lemma mapM_Ok_map {A B : Type} (f : A → result B) (g : A → B) (l : list A) :
  (∀ x, x ∈ l → f x = Ok (g x)) → mapM f l = Ok (map g l).
Proof.
  induction l as [|x l IH]; intros Hf; simpl; [done|].
  rewrite Hf by left. simpl. rewrite IH; [done|].
  intros y Hy. apply Hf. by right.
Qed.

(** ** Dictionaries *)

Section dict_facts.
Context {K V : Type} `{EqDecision K}.
Implicit Types (d : dict K V) (k : K) (v : V).

Lemma dict_get_set k k' v d :
  dict_get k (dict_set k' v d) = if decide (k = k') then Some v else dict_get k d.
Proof.
  induction d as [|[k0 v0] d IH]; simpl.
  - by repeat case_decide.
  - repeat (case_decide; simpl; simplify_eq); try done.
Qed.

Lemma dict_get_is_Some k d : is_Some (dict_get k d) ↔ k ∈ dict_keys d.
Proof.
  induction d as [|[k0 v0] d IH]; simpl.
  - split; [by intros [? ?]|by intros ?%elem_of_nil].
  - rewrite elem_of_cons. case_decide; simpl.
    + split; eauto.
    + rewrite IH. naive_solver.
Qed.

Lemma dict_get_None k d : dict_get k d = None ↔ k ∉ dict_keys d.
Proof. rewrite <-dict_get_is_Some, eq_None_not_Some. done. Qed.

Lemma dict_get_Some_elem k v d : dict_get k d = Some v → (k, v) ∈ d.
Proof.
  induction d as [|[k0 v0] d IH]; simpl; [done|].
  case_decide; simplify_eq.
  - intros [= ->]. left.
  - intros ?. right. auto.
Qed.

Lemma dict_get_elem_wf k v d : dict_wf d → (k, v) ∈ d → dict_get k d = Some v.
Proof.
  unfold dict_wf. induction d as [|[k0 v0] d IH]; simpl.
  - by intros _ ?%elem_of_nil.
  - intros [Hk Hd]%NoDup_cons [Heq|Hin]%elem_of_cons.
    + simplify_eq. by rewrite decide_True.
    + rewrite decide_False; [auto|].
      intros <-. apply Hk. apply (list_elem_of_fmap_2 fst) in Hin. done.
Qed.

Lemma dict_set_fresh k v d : k ∉ dict_keys d → dict_set k v d = d ++ [(k, v)].
Proof.
  induction d as [|[k0 v0] d IH]; simpl; [done|].
  rewrite not_elem_of_cons. intros [Hne Hk].
  rewrite decide_False by done. by rewrite IH.
Qed.

Lemma dict_keys_set_in k v d : k ∈ dict_keys d → dict_keys (dict_set k v d) = dict_keys d.
Proof.
  induction d as [|[k0 v0] d IH]; simpl.
  - by intros ?%elem_of_nil.
  - intros Hk. case_decide; simpl; [done|].
    f_equal. apply IH. apply elem_of_cons in Hk as [?|?]; done.
Qed.

Lemma elem_of_dict_keys_set k k' v d :
  k ∈ dict_keys (dict_set k' v d) ↔ k = k' ∨ k ∈ dict_keys d.
Proof.
  rewrite <-!dict_get_is_Some, dict_get_set.
  case_decide; subst; [|naive_solver].
  split; [by left|by eauto].
Qed.

Lemma dict_set_wf k v d : dict_wf d → dict_wf (dict_set k v d).
Proof.
  unfold dict_wf. intros Hd.
  destruct (decide (k ∈ dict_keys d)) as [Hk|Hk].
  - by rewrite dict_keys_set_in.
  - rewrite dict_set_fresh by done. unfold dict_keys. rewrite map_app. simpl.
    apply NoDup_app. split_and!; [done| |apply NoDup_singleton].
    intros x Hx ->%list_elem_of_singleton. done.
Qed.

Lemma dict_values_elem v d : v ∈ dict_values d ↔ ∃ k, (k, v) ∈ d.
Proof.
  unfold dict_values. rewrite list_elem_of_fmap. split.
  - intros ([k v'] & -> & ?). eauto.
  - intros (k & ?). by exists (k, v).
Qed.
End dict_facts.

Lemma foldl_dict_set_get {K V : Type} `{EqDecision K} (g : K → V) (ks : list K)
    (d0 : dict K V) (k : K) :
  dict_get k (foldl (λ d k', dict_set k' (g k') d) d0 ks)
  = if decide (k ∈ ks) then Some (g k) else dict_get k d0.
Proof.
  revert d0. induction ks as [|k0 ks IH]; intros d0; simpl.
  - destruct (decide (k ∈ [])) as [Hin|_]; [by apply elem_of_nil in Hin|done].
  - rewrite IH, dict_get_set.
    destruct (decide (k ∈ ks)) as [Hin|Hnin], (decide (k ∈ k0 :: ks)) as [Hin'|Hnin'];
      try done.
    + exfalso. apply Hnin'. by right.
    + apply elem_of_cons in Hin' as [->|?]; [|done]. by rewrite decide_True.
    + rewrite decide_False; [done|]. intros ->. apply Hnin'. left.
Qed.

Lemma foldl_dict_set_wf {K V : Type} `{EqDecision K} (g : K → V) (ks : list K) (d0 : dict K V) :
  dict_wf d0 → dict_wf (foldl (λ d k', dict_set k' (g k') d) d0 ks).
Proof.
  revert d0. induction ks as [|k0 ks IH]; intros d0 Hd; simpl; [done|].
  apply IH. by apply dict_set_wf.
Qed.

Lemma forallb_elem_of {A : Type} (f : A → bool) (l : list A) :
  forallb f l = true ↔ ∀ x, x ∈ l → f x = true.
Proof.
  rewrite forallb_forall. split; intros Hf x Hx; apply Hf; by apply list_elem_of_In.
Qed.

Section analyzer.
Context {Program G2Element : Type} `{!Externals Program G2Element}.
Implicit Types (self : Offer Program G2Element).

(** The content of [arbitrage] and [is_valid], given the two amount views. *)
Lemma arbitrage_characterization self (offered requested : dict AssetKey Z) :
  get_offered_amounts self = Ok offered →
  get_requested_amounts self = Ok requested →
  ∃ arbitrage_dict,
    arbitrage self = Ok arbitrage_dict ∧
    dict_wf arbitrage_dict ∧
    (∀ k, dict_get k arbitrage_dict
          = if decide (k ∈ dict_keys requested ++ dict_keys offered)
            then Some (get0 k offered - get0 k requested) else None) ∧
    is_valid self
    = Ok (forallb (λ value, bool_decide (0 ≤ value)) (dict_values arbitrage_dict)).
Proof.
  intros Hoff Hreq. unfold is_valid, arbitrage. rewrite Hoff, Hreq. simpl.
  set (ks := dict_keys requested ++ dict_keys offered).
  pose proof (λ k, foldl_dict_set_get (λ k, get0 k offered - get0 k requested) ks [] k)
    as Hget.
  pose proof (foldl_dict_set_wf (λ k, get0 k offered - get0 k requested) ks [])
    as Hwf.
  simpl in Hget, Hwf. set (arb := foldl _ _ ks) in *.
  exists arb. split_and!; [done|apply Hwf, NoDup_nil_2|done|done].
Qed.

(** C2: when the two amount views are defined, [arbitrage()] has exactly
    the asset keys of [get_offered_amounts()] and [get_requested_amounts()],
    each key once, and maps a key to the offered amount (0 when absent from
    the offered view) minus the requested amount (0 when absent); and
    [is_valid()] is true exactly when no value of [arbitrage()] is
    negative. *)
Theorem arbitrage_is_valid_spec self (offered requested : dict AssetKey Z) :
  get_offered_amounts self = Ok offered →
  get_requested_amounts self = Ok requested →
  ∃ arbitrage_dict,
    arbitrage self = Ok arbitrage_dict ∧
    dict_wf arbitrage_dict ∧
    (∀ k, k ∈ dict_keys arbitrage_dict ↔ k ∈ dict_keys offered ∨ k ∈ dict_keys requested) ∧
    (∀ k, k ∈ dict_keys arbitrage_dict →
          dict_get k arbitrage_dict = Some (get0 k offered - get0 k requested)) ∧
    ∃ b, is_valid self = Ok b ∧
         (b = true ↔ ∀ value, value ∈ dict_values arbitrage_dict → 0 ≤ value).
Proof.
  intros Hoff Hreq.
  destruct (arbitrage_characterization self offered requested Hoff Hreq)
    as (arb & Harb & Hwf & Hget & Hvalid).
  assert (Hkeys : ∀ k, k ∈ dict_keys arb ↔ k ∈ dict_keys requested ++ dict_keys offered).
  { intros k. rewrite <-dict_get_is_Some, Hget. destruct (decide _); [by eauto|].
    split; [by intros [? ?]|done]. }
  exists arb. split_and!; [done|done| | |].
  - intros k. rewrite Hkeys, elem_of_app. tauto.
  - intros k Hk. rewrite Hget. apply Hkeys in Hk. by destruct (decide _).
  - eexists. split; [exact Hvalid|]. rewrite forallb_elem_of.
    split; intros Hall v Hv.
    + specialize (Hall v Hv). by apply bool_decide_eq_true in Hall.
    + apply bool_decide_eq_true. auto.
Qed.
End analyzer.

(** ** Construction *)

Lemma foldM_Ok_all {A B : Type} (f : B → A → result B) (acc : B) (l : list A) :
  (∀ b x, x ∈ l → ∃ b', f b x = Ok b') → ∃ r, foldM f acc l = Ok r.
Proof.
  revert acc. induction l as [|x l IH]; intros acc Hf; simpl; [by eauto|].
  destruct (Hf acc x) as [b' ->]; [left|]. simpl.
  apply IH. intros b y Hy. apply Hf. by right.
Qed.

Lemma size_list_to_set_le (l : list bytes32) :
  (size (list_to_set l : gset bytes32) ≤ length l)%nat.
Proof.
  induction l as [|x l IH].
  - rewrite list_to_set_nil, size_empty. done.
  - rewrite list_to_set_cons, size_union_alt, size_singleton. simpl.
    assert (size (list_to_set l ∖ {[x]} : gset bytes32) ≤ size (list_to_set l : gset bytes32))%nat.
    { apply subseteq_size. set_solver. }
    lia.
Qed.

(** [len(set(l)) != len(l)] detects a repeated element. *)
Lemma size_list_to_set_NoDup (l : list bytes32) :
  size (list_to_set l : gset bytes32) = length l ↔ NoDup l.
Proof.
  split; [|apply size_list_to_set].
  induction l as [|x l IH]; intros Hsize; [apply NoDup_nil_2|].
  rewrite list_to_set_cons in Hsize. simpl in Hsize.
  pose proof (size_list_to_set_le l) as Hle.
  destruct (decide (x ∈ l)) as [Hin|Hnin].
  - assert ({[x]} ∪ list_to_set l = (list_to_set l : gset bytes32)) as Heq by set_solver.
    rewrite Heq in Hsize. lia.
  - apply NoDup_cons. split; [done|]. apply IH.
    rewrite size_union, size_singleton in Hsize by set_solver. lia.
Qed.

Lemma not_NoDup_lookup {A : Type} `{EqDecision A} (l : list A) :
  ¬ NoDup l ↔ ∃ i j x, i ≠ j ∧ l !! i = Some x ∧ l !! j = Some x.
Proof.
  split.
  - induction l as [|x l IH]; intros Hdup; [destruct Hdup; apply NoDup_nil_2|].
    destruct (decide (x ∈ l)) as [Hin|Hnin].
    + apply list_elem_of_lookup in Hin as [j Hj].
      exists 0%nat, (S j), x. done.
    + destruct IH as (i & j & y & Hij & Hi & Hj).
      { intros Hl. apply Hdup. by apply NoDup_cons. }
      exists (S i), (S j), y. split_and!; [lia|done|done].
  - intros (i & j & x & Hij & Hi & Hj) Hnd.
    apply Hij. eapply NoDup_alt; eauto.
Qed.

Section construction.
Context {Program G2Element : Type} `{!Externals Program G2Element}.
Implicit Types (self : Offer Program G2Element) (b : SpendBundle Program G2Element).

Lemma parent_spend_of_Ok b parent cs :
  parent_spend_of b parent = Ok cs → cs ∈ coin_spends b ∧ Coin_name (coin cs) = parent.
Proof.
  unfold parent_spend_of.
  destruct (filter _ _) as [|cs' l] eqn:Hf; [done|]. intros [= <-].
  assert (cs' ∈ filter (λ cs, Coin_name (coin cs) = parent) (coin_spends b)) as Hin.
  { rewrite Hf. left. }
  apply list_elem_of_filter in Hin as [? ?]. done.
Qed.

Lemma parent_spend_of_exists b parent cs :
  cs ∈ coin_spends b → Coin_name (coin cs) = parent →
  ∃ cs', parent_spend_of b parent = Ok cs'.
Proof.
  intros Hin Hname. unfold parent_spend_of.
  destruct (filter _ _) as [|cs' l] eqn:Hf; [|by eauto].
  assert (cs ∈ filter (λ cs, Coin_name (coin cs) = parent) (coin_spends b)) as Hin'.
  { by apply list_elem_of_filter. }
  rewrite Hf in Hin'. by apply elem_of_nil in Hin'.
Qed.

(** The only exception of [parent_spend_of] is [IndexError]. *)
Lemma parent_spend_of_Raise b parent e :
  parent_spend_of b parent = Raise e → e = IndexError.
Proof. unfold parent_spend_of. destruct (filter _ _); congruence. Qed.

(** A parent puzzle is read when it is not a CAT, or has three curried
    arguments with a [bytes32] in the middle. *)
Lemma offer_target_Ok (parent_puzzle : Program) :
  (∃ t, offer_target parent_puzzle = Ok t) ↔
  ∀ curried_args, match_cat_puzzle parent_puzzle = Some curried_args →
    ∃ mod_hash tail_hash inner_puzzle tail,
      curried_args = [mod_hash; tail_hash; inner_puzzle] ∧ as_bytes32 tail_hash = Some tail.
Proof.
  unfold offer_target, unpack3, bytes32_of.
  destruct (match_cat_puzzle parent_puzzle) as [args|]; [|split; [done|by eauto]].
  split.
  - intros [t Ht] ? [= <-].
    destruct args as [|m [|th [|i [|? ?]]]]; try done. simpl in Ht.
    destruct (as_bytes32 th) as [tail|] eqn:Hth; [|done]. by exists m, th, i, tail.
  - intros Hargs. destruct (Hargs args eq_refl) as (m & th & i & tail & -> & Hth).
    simpl. rewrite Hth. simpl. by eauto.
Qed.

(** The exceptions of reading a parent puzzle. *)
Lemma offer_target_Raise (parent_puzzle : Program) e :
  offer_target parent_puzzle = Raise e → e = UnpackError ∨ e = BadBytes32.
Proof.
  unfold offer_target, unpack3, bytes32_of.
  destruct (match_cat_puzzle parent_puzzle) as [args|]; [|done].
  destruct args as [|m [|th [|i [|? ?]]]]; simpl; try (intros [= <-]; by left).
  destruct (as_bytes32 th); simpl; [done|]. intros [= <-]. by right.
Qed.

Lemma offered_step_Ok b offered a cs t :
  parent_spend_of b (parent_coin_info a) = Ok cs →
  offer_target (puzzle_reveal cs) = Ok t →
  ∃ offered', offered_step b offered a = Ok offered'.
Proof.
  intros Hp Ht. unfold offered_step. rewrite Hp. simpl. rewrite Ht. simpl.
  destruct t as [tail_hash offer_ph].
  destruct (decide _); [|by eauto].
  destruct (dict_get tail_hash offered); eauto.
Qed.

(** What a turn of the loop of [get_offered_coins] needs to go through. *)
Lemma offered_step_Ok_inv b offered offered' a :
  offered_step b offered a = Ok offered' →
  ∃ cs t, parent_spend_of b (parent_coin_info a) = Ok cs ∧
          offer_target (puzzle_reveal cs) = Ok t.
Proof.
  unfold offered_step. intros (cs & Hcs & Hrest)%bind_Ok.
  destruct (offer_target (puzzle_reveal cs)) as [t|e] eqn:Ht; simpl in Hrest;
    [by exists cs, t|done].
Qed.

(** The exceptions of a turn of the loop: the [IndexError] of an addition
    without a parent spend, and the two exceptions of reading the parent
    puzzle. *)
Lemma offered_step_Raise b (d : dict AssetKey (list Coin)) a e :
  offered_step b d a = Raise e →
  (e = IndexError ∧ parent_spend_of b (parent_coin_info a) = Raise IndexError) ∨
  ((e = UnpackError ∨ e = BadBytes32) ∧
   ∃ cs, parent_spend_of b (parent_coin_info a) = Ok cs ∧
         offer_target (puzzle_reveal cs) = Raise e).
Proof.
  unfold offered_step.
  destruct (parent_spend_of _ _) as [cs|e'] eqn:Hp; simpl.
  - destruct (offer_target _) as [[tail_hash offer_ph]|e'] eqn:Ht; simpl.
    + destruct (decide _); [|done]. by destruct (dict_get tail_hash d).
    + intros [= <-]. right. split; [by eapply offer_target_Raise|]. by exists cs.
  - intros [= <-]. left. apply parent_spend_of_Raise in Hp as Heq. by subst.
Qed.

Lemma foldM_Ok_steps {A B : Type} (f : B → A → result B) (acc r : B) (l : list A) x :
  foldM f acc l = Ok r → x ∈ l → ∃ acc1 acc2, f acc1 x = Ok acc2.
Proof.
  revert acc. induction l as [|y l IH]; intros acc; simpl; [by intros _ ?%elem_of_nil|].
  intros (acc' & Hstep & Hrest)%bind_Ok [->|Hin]%elem_of_cons; [by eauto|].
  by eapply IH.
Qed.

Lemma foldM_Raise_step {A B : Type} (f : B → A → result B) (acc : B) (l : list A) e :
  foldM f acc l = Raise e → ∃ x acc1, x ∈ l ∧ f acc1 x = Raise e.
Proof.
  revert acc. induction l as [|y l IH]; intros acc; simpl; [done|].
  destruct (f acc y) as [acc'|e'] eqn:Hstep; simpl.
  - intros (x & b' & Hin & Hx)%IH. exists x, b'. split; [by right|done].
  - intros [= <-]. exists y, acc. split; [left|done].
Qed.

Lemma get_offered_coins_Ok self :
  well_formed_bundle (bundle self) → readable_parents (bundle self) →
  ∃ offered, get_offered_coins self = Ok offered.
Proof.
  intros Hwf Hread. apply foldM_Ok_all. intros d a Ha.
  destruct (Hwf a Ha) as (cs & Hcs & Hname).
  destruct (parent_spend_of_exists _ _ _ Hcs Hname) as [cs' Hcs'].
  destruct (proj2 (offer_target_Ok (puzzle_reveal cs'))) as [t Ht].
  { intros args Hargs. by eapply Hread. }
  by eapply offered_step_Ok.
Qed.

(** When [get_offered_coins] returns, every addition has a parent spend and
    every parent puzzle has been read. *)
Lemma get_offered_coins_well_formed self offered :
  get_offered_coins self = Ok offered →
  well_formed_bundle (bundle self) ∧ readable_parents (bundle self).
Proof.
  intros Hoff. split.
  - intros a Ha. destruct (foldM_Ok_steps _ _ _ _ _ Hoff Ha) as (d & d' & Hstep).
    apply offered_step_Ok_inv in Hstep as (cs & _ & Hcs & _).
    exists cs. by apply parent_spend_of_Ok.
  - intros a cs args Ha Hcs Hargs.
    destruct (foldM_Ok_steps _ _ _ _ _ Hoff Ha) as (d & d' & Hstep).
    apply offered_step_Ok_inv in Hstep as (cs' & t & Hcs' & Ht).
    assert (cs' = cs) as -> by congruence.
    by apply (proj1 (offer_target_Ok (puzzle_reveal cs)) (ex_intro _ t Ht)).
Qed.

(** When [get_offered_coins] raises, it is the [IndexError] of an addition
    without a parent spend or one of the two exceptions of reading a parent
    puzzle. *)
Lemma get_offered_coins_Raise self e :
  get_offered_coins self = Raise e →
  (e = IndexError ∧ ¬ well_formed_bundle (bundle self)) ∨
  ((e = UnpackError ∨ e = BadBytes32) ∧ ¬ readable_parents (bundle self)).
Proof.
  intros (a & d & Ha & Hstep)%foldM_Raise_step.
  apply offered_step_Raise in Hstep as [[-> Hp]|[He (cs & Hcs & Ht)]].
  - left. split; [done|]. intros Hwf. destruct (Hwf a Ha) as (cs & Hcs & Hname).
    destruct (parent_spend_of_exists _ _ _ Hcs Hname) as [cs' Hcs']. congruence.
  - right. split; [done|]. intros Hread.
    destruct (proj2 (offer_target_Ok (puzzle_reveal cs))) as [t Ht'].
    { intros args Hargs. by eapply Hread. }
    congruence.
Qed.

(** The loop of [__post_init__] over the payment lists. *)
Lemma duplicate_loop (vals : list (list NotarizedPayment)) :
  let check := λ (_ : unit) (payments : list NotarizedPayment),
    if decide (size (list_to_set (map name payments) : gset bytes32)
               ≠ length (map name payments))
    then Raise DuplicatePayment else Ok () in
  (foldM check () vals = Ok () ∧ ∀ payments, payments ∈ vals → NoDup (map name payments))
  ∨ (foldM check () vals = Raise DuplicatePayment ∧
     ∃ payments, payments ∈ vals ∧ ¬ NoDup (map name payments)).
Proof.
  induction vals as [|payments vals IH]; simpl.
  - left. split; [done|]. by intros ? ?%elem_of_nil.
  - destruct (decide _) as [Hne|Heq]; simpl.
    + right. split; [done|]. exists payments. split; [left|].
      by rewrite <-size_list_to_set_NoDup.
    + apply dec_stable in Heq. apply size_list_to_set_NoDup in Heq.
      destruct IH as [[-> Hall]|[-> (p & Hp & Hdup)]].
      * left. split; [done|]. intros p [->|?]%elem_of_cons; auto.
      * right. split; [done|]. exists p. split; [by right|done].
Qed.

Lemma duplicate_payment_iff (rp : dict AssetKey (list NotarizedPayment)) :
  duplicate_payment rp ↔ ∃ payments, payments ∈ dict_values rp ∧ ¬ NoDup (map name payments).
Proof.
  unfold duplicate_payment. split.
  - intros (k & payments & i & j & p & q & Hin & Hij & Hi & Hj & Hname).
    exists payments. split; [apply dict_values_elem; eauto|].
    apply not_NoDup_lookup. exists i, j, (name p).
    rewrite !list_lookup_fmap, Hi, Hj. simpl. by rewrite Hname.
  - intros (payments & [k Hin]%dict_values_elem & Hdup).
    apply not_NoDup_lookup in Hdup as (i & j & x & Hij & Hi & Hj).
    rewrite list_lookup_fmap in Hi, Hj.
    destruct (payments !! i) as [p|] eqn:Hp; [|done].
    destruct (payments !! j) as [q|] eqn:Hq; [|done].
    simpl in *. exists k, payments, i, j, p, q. split_and!; try done. congruence.
Qed.

(** C3 (amended): [Offer(requested_payments, bundle)] first computes
    [get_offered_coins()].  That returns exactly over a bundle whose
    additions all have a parent spend and whose CAT parent puzzles all have
    three curried arguments with a [bytes32] tail hash; otherwise it raises
    [IndexError] or the [ValueError] of line 100 or 101, and so does the
    construction.  When it returns, the construction raises [EmptyOffer]
    exactly when it returns the empty dictionary, raises [DuplicatePayment]
    exactly when it is not empty and two requested payments under some asset
    key have the same name, and otherwise returns the offer with the two
    fields as given. *)
Theorem Offer_new_spec (rp : dict AssetKey (list NotarizedPayment)) b :
  ((∃ offered, get_offered_coins (mkOffer rp b) = Ok offered) ↔
   well_formed_bundle b ∧ readable_parents b) ∧
  (∀ e, get_offered_coins (mkOffer rp b) = Raise e →
        Offer_new rp b = Raise e ∧
        ((e = IndexError ∧ ¬ well_formed_bundle b) ∨
         ((e = UnpackError ∨ e = BadBytes32) ∧ ¬ readable_parents b))) ∧
  (∀ offered, get_offered_coins (mkOffer rp b) = Ok offered →
    (Offer_new rp b = Raise EmptyOffer ↔ offered = []) ∧
    (Offer_new rp b = Raise DuplicatePayment ↔ offered ≠ [] ∧ duplicate_payment rp) ∧
    (Offer_new rp b = Ok (mkOffer rp b) ↔ offered ≠ [] ∧ ¬ duplicate_payment rp)).
Proof.
  split_and!.
  { split.
    - intros [offered Hoff]. by apply (get_offered_coins_well_formed (mkOffer rp b) offered).
    - intros [Hwf Hread]. by apply (get_offered_coins_Ok (mkOffer rp b)). }
  { intros e He. split; [|by apply (get_offered_coins_Raise (mkOffer rp b))].
    unfold Offer_new, __post_init__. by rewrite He. }
  intros offered Hoff.
  unfold Offer_new, __post_init__. rewrite Hoff. simpl.
  destruct offered as [|item offered]; simpl.
  { split_and!; split; try done; by intros [? _]. }
  rewrite duplicate_payment_iff.
  destruct (duplicate_loop (dict_values rp)) as [[-> Hall]|[-> Hdup]]; simpl.
  - split_and!; split; try done.
    + by intros [_ (p & Hp & Hdup)]; destruct Hdup; auto.
    + intros _. split; [done|]. intros (p & Hp & Hdup). destruct Hdup; auto.
  - split_and!; split; try done. by intros [_ []].
Qed.
End construction.

(** ** The offered coins and the amounts *)

Lemma entries_set {K V : Type} `{EqDecision K} (k k' : K) (v : list V) (d : dict K (list V)) :
  entries k (dict_set k' v d) = if decide (k = k') then v else entries k d.
Proof. unfold entries. rewrite dict_get_set. by destruct (decide (k = k')). Qed.

Lemma sum_amounts_app {A : Type} (f : A → Z) (l1 l2 : list A) :
  sum_amounts f (l1 ++ l2) = sum_amounts f l1 + sum_amounts f l2.
Proof. induction l1 as [|x l1 IH]; simpl; [done|]. rewrite IH. lia. Qed.

Lemma sum_amounts_concat {A : Type} (f : A → Z) (ls : list (list A)) :
  sum_amounts f (concat ls) = foldr (λ l s, sum_amounts f l + s) 0 ls.
Proof. induction ls as [|l ls IH]; simpl; [done|]. by rewrite sum_amounts_app, IH. Qed.

Lemma uint64_Ok v r : uint64 v = Ok r → r = v ∧ 0 ≤ v < 2 ^ 64.
Proof. unfold uint64. destruct (decide _); [|done]. by intros [= <-]. Qed.

Lemma uint64_fits v : 0 ≤ v < 2 ^ 64 → uint64 v = Ok v.
Proof. intros Hv. unfold uint64. by destruct (decide _). Qed.

Lemma uint64_Raise v e : uint64 v = Raise e → e = Overflow.
Proof. unfold uint64. destruct (decide _); congruence. Qed.

Section amount_views.
Context {A : Type} (f : A → Z).

Lemma amounts_fold_get (d : dict AssetKey (list A)) (acc amounts : dict AssetKey Z) :
  foldM (λ amounts '(asset_id, coins),
           v ← uint64 (sum_amounts f coins); Ok (dict_set asset_id v amounts)) acc d
  = Ok amounts →
  dict_wf d →
  ∀ k, dict_get k amounts
       = match dict_get k d with
         | Some l => Some (sum_amounts f l)
         | None => dict_get k acc
         end.
Proof.
  revert acc. induction d as [|[k0 l0] d IH]; intros acc; simpl.
  - by intros [= <-].
  - intros (acc' & Hstep & Hrest)%bind_Ok [Hk0 Hd]%NoDup_cons k.
    apply bind_Ok in Hstep as (v & [-> _]%uint64_Ok & [= <-]).
    rewrite (IH _ Hrest Hd). destruct (decide (k = k0)) as [->|Hne].
    + simpl in Hk0. apply dict_get_None in Hk0. rewrite Hk0, dict_get_set. by rewrite decide_True.
    + destruct (dict_get k d); [done|]. rewrite dict_get_set. by rewrite decide_False.
Qed.

Lemma amounts_of_get (d : dict AssetKey (list A)) (amounts : dict AssetKey Z) :
  amounts_of f d = Ok amounts → dict_wf d →
  ∀ k, dict_get k amounts = sum_amounts f <$> dict_get k d.
Proof.
  intros Ham Hd k. rewrite (amounts_fold_get _ _ _ Ham Hd).
  by destruct (dict_get k d).
Qed.

Lemma amounts_of_get0 (d : dict AssetKey (list A)) (amounts : dict AssetKey Z) :
  amounts_of f d = Ok amounts → dict_wf d →
  ∀ k, get0 k amounts = sum_amounts f (entries k d).
Proof.
  intros Ham Hd k. unfold get0, entries. rewrite (amounts_of_get _ _ Ham Hd).
  by destruct (dict_get k d).
Qed.

Lemma amounts_of_keys (d : dict AssetKey (list A)) (amounts : dict AssetKey Z) :
  amounts_of f d = Ok amounts → dict_wf d →
  ∀ k, k ∈ dict_keys amounts ↔ k ∈ dict_keys d.
Proof.
  intros Ham Hd k. rewrite <-!dict_get_is_Some, (amounts_of_get _ _ Ham Hd).
  by rewrite fmap_is_Some.
Qed.

Lemma amounts_fold_keys (d : dict AssetKey (list A)) (acc amounts : dict AssetKey Z) :
  foldM (λ amounts '(asset_id, coins),
           v ← uint64 (sum_amounts f coins); Ok (dict_set asset_id v amounts)) acc d
  = Ok amounts →
  ∀ k, k ∈ dict_keys amounts ↔ k ∈ dict_keys acc ∨ k ∈ dict_keys d.
Proof.
  revert acc. induction d as [|[k0 l0] d IH]; intros acc; simpl.
  - intros [= <-] k. rewrite elem_of_nil. tauto.
  - intros (acc' & Hstep & Hrest)%bind_Ok k.
    apply bind_Ok in Hstep as (v & _ & [= <-]).
    rewrite (IH _ Hrest), elem_of_dict_keys_set, elem_of_cons. tauto.
Qed.

(** The only exception of the amount views is the overflow of [uint64]. *)
Lemma amounts_fold_Raise (d : dict AssetKey (list A)) (acc : dict AssetKey Z) e :
  foldM (λ amounts '(asset_id, coins),
           v ← uint64 (sum_amounts f coins); Ok (dict_set asset_id v amounts)) acc d
  = Raise e → e = Overflow.
Proof.
  revert acc. induction d as [|[k0 l0] d IH]; intros acc; simpl; [done|].
  destruct (uint64 _) as [v|e'] eqn:Hv; simpl.
  - apply IH.
  - intros [= <-]. by eapply uint64_Raise.
Qed.

(** The amount view is defined exactly when every sum fits in 64 bits. *)
Lemma amounts_fold_Ok (d : dict AssetKey (list A)) (acc : dict AssetKey Z) :
  (∀ k l, (k, l) ∈ d → 0 ≤ sum_amounts f l < 2 ^ 64) →
  ∃ amounts,
    foldM (λ amounts '(asset_id, coins),
             v ← uint64 (sum_amounts f coins); Ok (dict_set asset_id v amounts)) acc d
    = Ok amounts.
Proof.
  revert acc. induction d as [|[k0 l0] d IH]; intros acc Hfit; simpl; [by eauto|].
  rewrite uint64_fits by (apply (Hfit k0); left). simpl.
  apply IH. intros k l Hin. apply (Hfit k). by right.
Qed.
End amount_views.

Section amounts_defined.
Context {A : Type} (f : A → Z).

Lemma amounts_fold_Ok_fits (d : dict AssetKey (list A)) (acc amounts : dict AssetKey Z) :
  foldM (λ amounts '(asset_id, coins),
           v ← uint64 (sum_amounts f coins); Ok (dict_set asset_id v amounts)) acc d
  = Ok amounts →
  ∀ k l, (k, l) ∈ d → 0 ≤ sum_amounts f l < 2 ^ 64.
Proof.
  revert acc. induction d as [|[k0 l0] d IH]; intros acc Hfold k l Hin.
  - by apply elem_of_nil in Hin.
  - cbn [foldM] in Hfold. apply bind_Ok in Hfold as (acc' & Hstep & Hfold).
    apply bind_Ok in Hstep as (v & Hv & _). apply uint64_Ok in Hv as [_ Hv].
    apply elem_of_cons in Hin as [[= -> ->]|Hin]; [done|]. by eapply IH.
Qed.

Lemma amounts_of_defined (d : dict AssetKey (list A)) :
  (∃ amounts, amounts_of f d = Ok amounts) ↔
  ∀ k l, (k, l) ∈ d → 0 ≤ sum_amounts f l < 2 ^ 64.
Proof.
  split.
  - intros [amounts Ha]. by eapply amounts_fold_Ok_fits.
  - apply amounts_fold_Ok.
Qed.
End amounts_defined.

Section offered.
Context {Program G2Element : Type} `{!Externals Program G2Element}.
Implicit Types (self : Offer Program G2Element) (b : SpendBundle Program G2Element).

Lemma offered_step_spec b (d d' : dict AssetKey (list Coin)) a :
  offered_step b d a = Ok d' →
  (∃ cs, parent_spend_of b (parent_coin_info a) = Ok cs) ∧
  d' = match asset_of b a with
       | Some k => dict_set k (entries k d ++ [a]) d
       | None => d
       end.
Proof.
  unfold offered_step, asset_of, entries.
  destruct (parent_spend_of _ _) as [cs|e]; simpl; [|done].
  destruct (offer_target _) as [[tail_hash offer_ph]|e]; simpl; [|done].
  destruct (decide _); [|by intros [= <-]; eauto].
  destruct (dict_get tail_hash d); simpl; intros [= <-]; eauto.
Qed.

Lemma offered_fold_spec b (adds : list Coin) (d d' : dict AssetKey (list Coin)) :
  foldM (offered_step b) d adds = Ok d' →
  dict_wf d →
  dict_wf d' ∧
  (∀ a, a ∈ adds → ∃ cs, parent_spend_of b (parent_coin_info a) = Ok cs) ∧
  (∀ k, entries k d' = entries k d ++ filter (λ a, asset_of b a = Some k) adds) ∧
  (∀ k, k ∈ dict_keys d' ↔ k ∈ dict_keys d ∨ ∃ a, a ∈ adds ∧ asset_of b a = Some k).
Proof.
  revert d. induction adds as [|a adds IH]; intros d; simpl.
  - intros [= <-] Hd. split_and!; [done|by intros ? ?%elem_of_nil| |].
    + intros k. by rewrite app_nil_r.
    + intros k. split; [by left|]. intros [?|(a & ?%elem_of_nil & _)]; done.
  - intros (d1 & Hstep & Hrest)%bind_Ok Hd.
    apply offered_step_spec in Hstep as [Hparent ->].
    assert (dict_wf (match asset_of b a with
                     | Some k => dict_set k (entries k d ++ [a]) d
                     | None => d
                     end)) as Hd1.
    { destruct (asset_of b a); [by apply dict_set_wf|done]. }
    destruct (IH _ Hrest Hd1) as (Hd' & Hparents & Hentries & Hkeys).
    split_and!; [done| | |].
    + intros a' [->|?]%elem_of_cons; auto.
    + intros k. rewrite Hentries, filter_cons.
      destruct (asset_of b a) as [k'|] eqn:Hk'.
      * rewrite entries_set. destruct (decide (k = k')) as [->|Hne].
        -- rewrite decide_True by done. by rewrite <-app_assoc.
        -- rewrite decide_False by congruence. done.
      * rewrite decide_False by done. done.
    + intros k. rewrite Hkeys. setoid_rewrite elem_of_cons.
      destruct (asset_of b a) as [k'|] eqn:Hk'.
      * rewrite elem_of_dict_keys_set. split.
        -- intros [[->|?]|(a' & ? & ?)]; eauto.
        -- intros [?|(a' & [->|?] & ?)]; eauto. left. left. congruence.
      * split.
        -- intros [?|(a' & ? & ?)]; eauto.
        -- intros [?|(a' & [->|?] & ?)]; eauto. congruence.
Qed.

(** What [get_offered_coins] returns. *)
Lemma get_offered_coins_spec self (offered : dict AssetKey (list Coin)) :
  get_offered_coins self = Ok offered →
  dict_wf offered ∧
  (∀ a, a ∈ additions (bundle self) →
        ∃ cs, parent_spend_of (bundle self) (parent_coin_info a) = Ok cs) ∧
  (∀ k, entries k offered
        = filter (λ a, asset_of (bundle self) a = Some k) (additions (bundle self))) ∧
  (∀ k, k ∈ dict_keys offered ↔
        ∃ a, a ∈ additions (bundle self) ∧ asset_of (bundle self) a = Some k).
Proof.
  intros Hoff. apply offered_fold_spec in Hoff as (Hwf & Hparents & Hentries & Hkeys);
    [|apply NoDup_nil_2].
  split_and!; [done|done|done|].
  intros k. rewrite Hkeys. split; [|by right].
  intros [?%elem_of_nil|?]; done.
Qed.

(** [is_valid()] in terms of the offered coins and the requested payments:
    under every asset key the requested amounts sum to at most the offered
    amounts. *)
Lemma is_valid_true_iff self (offered : dict AssetKey (list Coin))
    (offered_amounts requested_amounts : dict AssetKey Z) :
  get_offered_coins self = Ok offered →
  dict_wf (requested_payments self) →
  amounts_of amount offered = Ok offered_amounts →
  get_requested_amounts self = Ok requested_amounts →
  is_valid self = Ok true ↔
  ∀ k, sum_amounts (λ np, p_amount (np_payment np)) (entries k (requested_payments self))
       ≤ sum_amounts amount (entries k offered).
Proof.
  intros Hoff Hrp Hoa Hra.
  destruct (get_offered_coins_spec self offered Hoff) as (Hwf & _).
  assert (get_offered_amounts self = Ok offered_amounts) as Hoa'.
  { unfold get_offered_amounts. by rewrite Hoff. }
  destruct (arbitrage_characterization self _ _ Hoa' Hra) as (arb & _ & Harb & Hget & ->).
  pose proof (amounts_of_get0 _ _ _ Hoa Hwf) as Hoff0.
  pose proof (amounts_of_get0 _ _ _ Hra Hrp) as Hreq0.
  split.
  - intros [= Hall] k. rewrite forallb_elem_of in Hall.
    destruct (decide (k ∈ dict_keys requested_amounts ++ dict_keys offered_amounts))
      as [Hin|Hnin].
    + specialize (Hget k). rewrite decide_True in Hget by done.
      apply dict_get_Some_elem in Hget.
      assert (get0 k offered_amounts - get0 k requested_amounts ∈ dict_values arb) as Hv.
      { apply dict_values_elem. eauto. }
      apply Hall, bool_decide_eq_true in Hv. rewrite Hoff0, Hreq0 in Hv. lia.
    + rewrite elem_of_app in Hnin.
      rewrite (amounts_of_keys _ _ _ Hoa Hwf), (amounts_of_keys _ _ _ Hra Hrp) in Hnin.
      assert ((k ∉ dict_keys (requested_payments self)) ∧ (k ∉ dict_keys offered))
        as [Hk1 Hk2] by tauto.
      apply dict_get_None in Hk1, Hk2. unfold entries. by rewrite Hk1, Hk2.
  - intros Hall. f_equal. apply forallb_elem_of. intros v [k Hin]%dict_values_elem.
    apply (dict_get_elem_wf _ _ _ Harb) in Hin. rewrite Hget in Hin.
    destruct (decide _); [|done]. injection Hin as <-.
    apply bool_decide_eq_true. rewrite Hoff0, Hreq0. specialize (Hall k). lia.
Qed.
End offered.

(** ** Completion *)

Lemma fold_append_mapM {A B : Type} (g : A → result B) (acc : list B) (l : list A) :
  foldM (λ spends c, cs ← g c; Ok (spends ++ [cs])) acc l
  = css ← mapM g l; Ok (acc ++ css).
Proof.
  revert acc. induction l as [|x l IH]; intros acc; simpl.
  - by rewrite app_nil_r.
  - destruct (g x) as [y|e]; simpl; [|done].
    rewrite IH. destruct (mapM g l) as [ys|e]; simpl; [|done].
    by rewrite <-app_assoc.
Qed.

Lemma mapM_Ok_all {A B : Type} (g : A → result B) (l : list A) :
  (∀ x, x ∈ l → ∃ y, g x = Ok y) → ∃ ys, mapM g l = Ok ys.
Proof.
  induction l as [|x l IH]; intros Hg; simpl; [by eauto|].
  destruct (Hg x) as [y ->]; [left|]. simpl.
  destruct IH as [ys ->]; [|simpl; by eauto].
  intros z Hz. apply Hg. by right.
Qed.

Lemma mapM_Ok_elem {A B : Type} (g : A → result B) (l : list A) (ys : list B) x :
  mapM g l = Ok ys → x ∈ l → ∃ y, g x = Ok y ∧ y ∈ ys.
Proof.
  revert ys. induction l as [|x' l IH]; intros ys; simpl.
  - by intros _ ?%elem_of_nil.
  - intros (y & Hy & (ys' & Hys' & [= <-])%bind_Ok)%bind_Ok [->|Hin]%elem_of_cons.
    + exists y. split; [done|left].
    + destruct (IH _ Hys' Hin) as (z & ? & ?). exists z. split; [done|by right].
Qed.

Section completion.
Context {Program G2Element : Type} `{!Externals Program G2Element}.
Implicit Types (self : Offer Program G2Element) (b : SpendBundle Program G2Element).

(** An offered coin filed under a CAT key has a parent spend whose puzzle is
    a CAT, so its completion spend is built. *)
Lemma completion_spend_Ok self (k : AssetKey) all_payments offered_coins c :
  asset_of (bundle self) c = Some k →
  ∃ cs, completion_spend self k all_payments offered_coins c = Ok cs.
Proof.
  unfold asset_of, completion_spend, offer_target, unpack3.
  destruct k as [tail|]; [|by eauto].
  destruct (parent_spend_of _ _) as [cs|e]; simpl; [|done].
  destruct (match_cat_puzzle (puzzle_reveal cs)) as [args|].
  - destruct args as [|m [|t [|i [|? ?]]]]; simpl; try done. by eauto.
  - simpl. destruct (decide _); done.
Qed.

Lemma offered_coins_asset self offered k coins c :
  get_offered_coins self = Ok offered → dict_get k offered = Some coins → c ∈ coins →
  asset_of (bundle self) c = Some k.
Proof.
  intros (_ & _ & Hentries & _)%get_offered_coins_spec Hk Hc.
  specialize (Hentries k). unfold entries in Hentries. rewrite Hk in Hentries.
  simpl in Hentries. rewrite Hentries in Hc.
  by apply list_elem_of_filter in Hc as [? _].
Qed.

Lemma offered_coins_nonempty self offered k coins :
  get_offered_coins self = Ok offered → dict_get k offered = Some coins →
  ∃ c rest, coins = c :: rest.
Proof.
  intros (_ & _ & Hentries & Hkeys)%get_offered_coins_spec Hk.
  assert (k ∈ dict_keys offered) as (a & Ha & Hasset)%Hkeys.
  { apply dict_get_is_Some. eauto. }
  specialize (Hentries k). unfold entries in Hentries. rewrite Hk in Hentries.
  simpl in Hentries. destruct coins as [|c rest]; [|by eauto].
  assert (a ∈ filter (λ a, asset_of (bundle self) a = Some k) (additions (bundle self)))
    as Hin by by apply list_elem_of_filter.
  rewrite <-Hentries in Hin. by apply elem_of_nil in Hin.
Qed.

(** One turn of the outer loop of [to_valid_spend], once the two views are
    known. *)
Lemma completion_step_unfold self ph spends k payments offered arb :
  get_offered_coins self = Ok offered → arbitrage self = Ok arb →
  completion_step self ph spends (k, payments)
  = match dict_get k offered with
    | None => Raise (KeyError k)
    | Some coins =>
        match dict_get k arb with
        | None => Raise (KeyError k)
        | Some amt =>
            css ← mapM (completion_spend self k (all_payments_of ph payments amt) coins) coins;
            Ok (spends ++ css)
        end
    end.
Proof.
  intros Hoff Harb. unfold completion_step. rewrite Hoff. simpl.
  destruct (dict_get k offered) as [coins|]; [|done]. rewrite Harb. simpl.
  destruct (dict_get k arb) as [amt|]; [|done]. apply fold_append_mapM.
Qed.

Lemma is_valid_Ok_views self v :
  is_valid self = Ok v →
  ∃ offered offered_amounts requested_amounts arb,
    get_offered_coins self = Ok offered ∧
    amounts_of amount offered = Ok offered_amounts ∧
    get_requested_amounts self = Ok requested_amounts ∧
    arbitrage self = Ok arb ∧
    ∀ k, k ∈ dict_keys (requested_payments self) → k ∈ dict_keys arb.
Proof.
  unfold is_valid. intros (arb & Harb & _)%bind_Ok.
  pose proof Harb as Harb'. unfold arbitrage in Harb'.
  apply bind_Ok in Harb' as (oa & Hoa & (ra & Hra & _)%bind_Ok).
  pose proof Hoa as Hoa'. unfold get_offered_amounts in Hoa'.
  apply bind_Ok in Hoa' as (offered & Hoff & Hoa').
  exists offered, oa, ra, arb. split_and!; try done.
  intros k Hk.
  destruct (arbitrage_characterization self oa ra Hoa Hra) as (arb' & Harb2 & _ & Hget & _).
  assert (arb' = arb) as -> by congruence.
  apply dict_get_is_Some. rewrite Hget.
  assert (k ∈ dict_keys ra) as Hkra.
  { apply (amounts_fold_keys _ _ _ _ Hra). by right. }
  rewrite decide_True; [by eauto|]. apply elem_of_app. by left.
Qed.

(** The outer loop completes when every requested key has offered coins. *)
Lemma completion_loop_Ok self ph offered arb items spends :
  get_offered_coins self = Ok offered → arbitrage self = Ok arb →
  (∀ k, k ∈ dict_keys items → k ∈ dict_keys offered ∧ k ∈ dict_keys arb) →
  ∃ r, foldM (completion_step self ph) spends items = Ok r.
Proof.
  intros Hoff Harb Hkeys. apply foldM_Ok_all. intros acc [k payments] Hin.
  rewrite (completion_step_unfold _ _ _ _ _ _ _ Hoff Harb).
  destruct (Hkeys k) as [[coins Hcoins]%dict_get_is_Some [amt Hamt]%dict_get_is_Some].
  { apply (list_elem_of_fmap_2 fst) in Hin. done. }
  rewrite Hcoins, Hamt.
  destruct (mapM_Ok_all (completion_spend self k (all_payments_of ph payments amt) coins) coins)
    as [css ->]; [|simpl; by eauto].
  intros c Hc. apply completion_spend_Ok. by eapply offered_coins_asset.
Qed.

(** The outer loop stops with [KeyError] at the first requested key without
    offered coins. *)
Lemma completion_loop_KeyError self ph offered arb items spends :
  get_offered_coins self = Ok offered → arbitrage self = Ok arb →
  (∀ k, k ∈ dict_keys items → k ∈ dict_keys arb) →
  (∃ k, k ∈ dict_keys items ∧ (k ∉ dict_keys offered)) →
  ∃ k, k ∈ dict_keys items ∧ (k ∉ dict_keys offered) ∧
       foldM (completion_step self ph) spends items = Raise (KeyError k).
Proof.
  intros Hoff Harb. revert spends.
  induction items as [|[k payments] items IH]; intros spends Hkeys Hmissing.
  { destruct Hmissing as (k & ?%elem_of_nil & _). done. }
  cbn [foldM]. rewrite (completion_step_unfold _ _ _ _ _ _ _ Hoff Harb).
  destruct (dict_get k offered) as [coins|] eqn:Hcoins.
  - assert (k ∈ dict_keys arb) as [amt Hamt]%dict_get_is_Some by (apply Hkeys; left).
    rewrite Hamt.
    destruct (mapM_Ok_all (completion_spend self k (all_payments_of ph payments amt) coins)
                coins) as [css ->].
    { intros c Hc. apply completion_spend_Ok. by eapply offered_coins_asset. }
    simpl. destruct (IH (spends ++ css)) as (k' & Hk' & Hnk' & ->).
    + intros k' Hk'. apply Hkeys. by right.
    + destruct Hmissing as (k' & [->|Hk']%elem_of_cons & Hnk'); [|by eauto].
      destruct Hnk'. apply dict_get_is_Some. eauto.
    + exists k'. split_and!; [by right|done|done].
  - simpl. exists k. split_and!; [left| |done]. by apply dict_get_None.
Qed.

(** The spends of the outer loop are kept, and each item adds its own. *)
Lemma completion_loop_elem self ph offered arb items spends r k payments coins amt :
  get_offered_coins self = Ok offered → arbitrage self = Ok arb →
  foldM (completion_step self ph) spends items = Ok r →
  (k, payments) ∈ items → dict_get k offered = Some coins → dict_get k arb = Some amt →
  ∀ c, c ∈ coins →
    ∃ cs, completion_spend self k (all_payments_of ph payments amt) coins c = Ok cs ∧ cs ∈ r.
Proof.
  intros Hoff Harb. revert spends.
  assert (∀ items spends r, foldM (completion_step self ph) spends items = Ok r →
                            ∀ cs, cs ∈ spends → cs ∈ r) as Hkeep.
  { clear items. induction items as [|[k' p'] items IH]; intros spends r'; cbn [foldM].
    - by intros [= <-].
    - intros (acc & Hstep & Hrest)%bind_Ok cs Hcs. apply (IH _ _ Hrest).
      rewrite (completion_step_unfold _ _ _ _ _ _ _ Hoff Harb) in Hstep.
      destruct (dict_get k' offered); [|done]. destruct (dict_get k' arb); [|done].
      apply bind_Ok in Hstep as (css & _ & [= <-]). apply elem_of_app. by left. }
  induction items as [|[k' p'] items IH]; intros spends; cbn [foldM].
  - by intros _ ?%elem_of_nil.
  - intros (acc & Hstep & Hrest)%bind_Ok [Heq|Hin]%elem_of_cons Hcoins Hamt c Hc.
    + injection Heq as <- <-.
      rewrite (completion_step_unfold _ _ _ _ _ _ _ Hoff Harb), Hcoins, Hamt in Hstep.
      apply bind_Ok in Hstep as (css & Hcss & [= <-]).
      destruct (mapM_Ok_elem _ _ _ _ Hcss Hc) as (cs & Hcs & Hin).
      exists cs. split; [done|]. apply (Hkeep _ _ _ Hrest), elem_of_app. by right.
    + by apply (IH _ Hrest).
Qed.

Lemma to_valid_spend_unfold self ph :
  is_valid self = Ok true →
  to_valid_spend self ph
  = completion_spends ← foldM (completion_step self ph) [] (requested_payments self);
    Ok (SpendBundle_aggregate
          [mkSpendBundle completion_spends G2Element_default; bundle self]).
Proof. intros Hv. unfold to_valid_spend. by rewrite Hv. Qed.
End completion.

Section surplus.
Context {Program G2Element : Type} `{!Externals Program G2Element}.
Implicit Types (self : Offer Program G2Element).

End surplus.

(** ** Aggregation: the payment lists *)

Lemma deref_insert_eq (σ : store) (l : loc) (v : list NotarizedPayment) :
  (l < length σ)%nat → deref (<[l := v]> σ) l = v.
Proof. intros Hl. unfold deref. by rewrite list_lookup_insert_eq. Qed.

Lemma deref_insert_ne (σ : store) (l l' : loc) (v : list NotarizedPayment) :
  l ≠ l' → deref (<[l := v]> σ) l' = deref σ l'.
Proof. intros Hl. unfold deref. by rewrite list_lookup_insert_ne. Qed.

Lemma NoDup_snd_inj {K V : Type} (d : list (K * V)) k1 k2 v :
  NoDup (map snd d) → (k1, v) ∈ d → (k2, v) ∈ d → k1 = k2.
Proof.
  intros Hnd [i Hi]%list_elem_of_lookup [j Hj]%list_elem_of_lookup.
  assert (i = j) as ->.
  { eapply NoDup_alt; [exact Hnd| |]; rewrite list_lookup_fmap.
    - by rewrite Hi.
    - by rewrite Hj. }
  congruence.
Qed.

Section aggregate_items.
Context {Program G2Element : Type} `{!Externals Program G2Element}.

Lemma aggregate_items_spec (items : list (AssetKey * loc)) (σ : store)
    (total : dict AssetKey loc) :
  NoDup (map snd total ++ map snd items) →
  (∀ l, l ∈ map snd total ++ map snd items → (l < length σ)%nat) →
  dict_wf total →
  ∃ σ' total',
    foldl aggregate_item (σ, total) items = (σ', total') ∧
    dict_wf total' ∧
    length σ' = length σ ∧
    (∀ kv, kv ∈ total → kv ∈ total') ∧
    (∀ l, l ∈ map snd total' → l ∈ map snd total ++ map snd items) ∧
    (∀ k, held σ' total' k
          = held σ total k
            ++ concat (map (λ it, deref σ it.2) (filter (λ it, it.1 = k) items))) ∧
    (∀ k, k ∈ dict_keys total' ↔ k ∈ dict_keys total ∨ k ∈ map fst items) ∧
    (∀ l, l ∉ map snd total' → deref σ' l = deref σ l).
Proof.
  revert σ total. induction items as [|[k l] items IH]; intros σ total Hnd Hvalid Hwf.
  { exists σ, total. simpl. split_and!; try done.
    - intros l Hl. apply elem_of_app. by left.
    - intros k. by rewrite app_nil_r.
    - intros k. rewrite elem_of_nil. tauto. }
  simpl in Hnd, Hvalid. cbn [foldl]. unfold aggregate_item at 2.
  apply NoDup_app in Hnd as (Hnd_total & Hdisj & [Hl_items Hnd_items]%NoDup_cons).
  assert (l ∉ map snd total) as Hl_total.
  { intros Hin. apply (Hdisj l Hin). left. }
  destruct (dict_get k total) as [t|] eqn:Ht.
  - (* the key is there: the list object at [t] is extended *)
    assert ((k, t) ∈ total) as Hkt by by apply dict_get_Some_elem.
    assert (t ∈ map snd total) as Ht_total.
    { by apply (list_elem_of_fmap_2 snd) in Hkt. }
    assert (t < length σ)%nat as Ht_valid.
    { apply Hvalid, elem_of_app. by left. }
    destruct (IH (list_extend σ t l) total) as
      (σ' & total' & Hfold & Hwf' & Hlen & Hkeep & Hlocs & Hheld & Hkeys & Hframe).
    { apply NoDup_app. split_and!; [done| |done].
      intros x Hx Hx'. apply (Hdisj x Hx). by right. }
    { intros x Hx. unfold list_extend. rewrite length_insert. apply Hvalid.
      apply elem_of_app in Hx as [?|?]; apply elem_of_app; [by left|right; by right]. }
    { done. }
    exists σ', total'. split; [done|]. split_and!; try done.
    + rewrite Hlen. unfold list_extend. by rewrite length_insert.
    + intros x Hx. apply Hlocs in Hx.
      apply elem_of_app in Hx as [?|?]; apply elem_of_app; [by left|right; by right].
    + intros k0. rewrite Hheld. rewrite filter_cons. simpl.
      assert (map (λ it, deref (list_extend σ t l) it.2) (filter (λ it, it.1 = k0) items)
              = map (λ it, deref σ it.2) (filter (λ it, it.1 = k0) items)) as ->.
      { apply map_ext_in. intros [k1 l1] [_ Hin]%list_elem_of_In%list_elem_of_filter.
        simpl. apply deref_insert_ne. intros ->.
        apply (Hdisj l1 Ht_total). right. by apply (list_elem_of_fmap_2 snd) in Hin. }
      unfold held. destruct (decide (k = k0)) as [<-|Hne].
      * rewrite Ht. unfold list_extend. rewrite deref_insert_eq by done.
        simpl. by rewrite <-app_assoc.
      * f_equal. destruct (dict_get k0 total) as [t0|] eqn:Ht0; [|done].
        apply deref_insert_ne. intros ->. apply Hne.
        eapply NoDup_snd_inj; [exact Hnd_total|done|]. by apply dict_get_Some_elem.
    + intros k0. rewrite Hkeys. simpl. rewrite elem_of_cons.
      split; [tauto|]. intros [?|[->|?]]; [tauto| |tauto].
      left. apply dict_get_is_Some. eauto.
    + intros x Hx. rewrite (Hframe x Hx). apply deref_insert_ne. intros ->.
      apply Hx. apply (list_elem_of_fmap_2 snd _ (k, x)), Hkeep. done.
  - (* a new key: the list object itself is stored *)
    assert (k ∉ dict_keys total) as Hk by by apply dict_get_None.
    rewrite (dict_set_fresh _ _ _ Hk).
    destruct (IH σ (total ++ [(k, l)])) as
      (σ' & total' & Hfold & Hwf' & Hlen & Hkeep & Hlocs & Hheld & Hkeys & Hframe).
    { rewrite map_app. simpl. rewrite <-app_assoc. simpl.
      apply NoDup_app. split_and!; [done|done|by apply NoDup_cons]. }
    { intros x Hx. apply Hvalid. rewrite map_app in Hx. simpl in Hx.
      by rewrite <-app_assoc in Hx. }
    { rewrite <-(dict_set_fresh _ _ _ Hk). by apply dict_set_wf. }
    exists σ', total'. split; [done|]. split_and!; try done.
    + intros kv Hkv. apply Hkeep, elem_of_app. by left.
    + intros x Hx. apply Hlocs in Hx. rewrite map_app in Hx. simpl in Hx.
      by rewrite <-app_assoc in Hx.
    + intros k0. rewrite Hheld. rewrite filter_cons. simpl. unfold held.
      rewrite <-(dict_set_fresh _ _ _ Hk), dict_get_set.
      destruct (decide (k0 = k)) as [->|Hne].
      * rewrite decide_True by done. rewrite Ht. done.
      * rewrite decide_False by congruence. done.
    + intros k0. rewrite Hkeys. unfold dict_keys. rewrite map_app. simpl.
      rewrite elem_of_app, list_elem_of_singleton, elem_of_cons. tauto.
Qed.
End aggregate_items.

(** ** Aggregation: the loop over the offers *)

Lemma overlapping_cons {Program G2Element : Type}
    (o : OfferObj Program G2Element) (offers : list (OfferObj Program G2Element)) :
  overlapping (o :: offers) ↔
  (∃ j oj c, offers !! j = Some oj ∧ c ∈ offer_inputs o ∧ c ∈ offer_inputs oj)
  ∨ overlapping offers.
Proof.
  unfold overlapping. split.
  - intros (i & j & oi & oj & c & Hij & Hi & Hj & Hci & Hcj).
    destruct j as [|j]; [lia|]. destruct i as [|i]; simpl in *.
    + injection Hi as <-. left. by exists j, oj, c.
    + right. exists i, j, oi, oj, c. split_and!; try done. lia.
  - intros [(j & oj & c & Hj & Hc & Hcj)|(i & j & oi & oj & c & Hij & Hi & Hj & Hci & Hcj)].
    + exists 0%nat, (S j), o, oj, c. split_and!; try done. lia.
    + exists (S i), (S j), oi, oj, c. split_and!; try done. lia.
Qed.

Lemma dict_get_map_values {K V W : Type} `{EqDecision K} (f : V → W) (d : dict K V) k :
  dict_get k (map (λ '(k, v), (k, f v)) d) = f <$> dict_get k d.
Proof.
  induction d as [|[k0 v0] d IH]; simpl; [done|]. by destruct (decide (k = k0)).
Qed.

Lemma dict_keys_map_values {K V W : Type} (f : V → W) (d : dict K V) :
  dict_keys (map (λ '(k, v), (k, f v)) d) = dict_keys d.
Proof. induction d as [|[k0 v0] d IH]; simpl; [done|]. by rewrite IH. Qed.

Lemma filter_key_wf {K V : Type} `{EqDecision K} (d : dict K V) k :
  dict_wf d →
  filter (λ it, it.1 = k) d
  = match dict_get k d with Some v => [(k, v)] | None => [] end.
Proof.
  unfold dict_wf. induction d as [|[k0 v0] d IH]; [done|].
  intros Hnd. simpl in Hnd. apply NoDup_cons in Hnd as [Hk0 Hd].
  rewrite filter_cons. simpl.
  destruct (decide (k0 = k)) as [->|Hne].
  - rewrite decide_True by done. rewrite IH by done.
    apply dict_get_None in Hk0. by rewrite Hk0.
  - rewrite decide_False by congruence. by apply IH.
Qed.

Lemma elem_of_concat {A : Type} (x : A) (ls : list (list A)) :
  x ∈ concat ls ↔ ∃ l, x ∈ l ∧ l ∈ ls.
Proof.
  induction ls as [|l ls IH]; simpl.
  - rewrite elem_of_nil. split; [done|]. by intros (l & _ & ?%elem_of_nil).
  - rewrite elem_of_app, IH. setoid_rewrite elem_of_cons. naive_solver.
Qed.

Lemma filter_concat {A : Type} (P : A → Prop) `{∀ x, Decision (P x)} (ls : list (list A)) :
  filter P (concat ls) = concat (map (filter P) ls).
Proof.
  induction ls as [|l ls IH]; simpl; [done|]. by rewrite filter_app, IH.
Qed.

Section aggregate_loop.
Context {Program G2Element : Type} `{!Externals Program G2Element}.
Implicit Types (o : OfferObj Program G2Element) (offers : list (OfferObj Program G2Element)).
Implicit Types (tb : SpendBundle Program G2Element).

Lemma input_coins_overlap tb o :
  input_coins tb ∩ input_coins (obj_bundle o) ≠ ∅ ↔
  ∃ c, c ∈ map coin (coin_spends tb) ∧ c ∈ offer_inputs o.
Proof.
  unfold input_coins, offer_inputs. split.
  - intros [c Hc]%set_choose_L. exists c. set_solver.
  - intros (c & ? & ?). set_solver.
Qed.

Lemma aggregate_loop_Raise offers σ total tb σ' e :
  aggregate_loop offers σ total tb = (σ', Raise e) →
  e = OverlappingInputs ∧ (overlaps_prior tb offers ∨ overlapping offers).
Proof.
  revert σ total tb. induction offers as [|o offers IH]; intros σ total tb; simpl; [done|].
  destruct (decide _) as [Hov|Hno].
  - intros [= <- <-]. split; [done|]. left.
    apply input_coins_overlap in Hov as (c & ? & ?). by exists 0%nat, o, c.
  - destruct (foldl _ _ _) as [σ1 total1]. intros [-> Hc]%IH. split; [done|].
    destruct Hc as [(j & oj & c & Hj & Hc & Hcj)|Hov].
    + simpl in Hc. rewrite app_nil_r, map_app, elem_of_app in Hc.
      destruct Hc as [Hc|Hc].
      * left. by exists (S j), oj, c.
      * right. apply overlapping_cons. left. by exists j, oj, c.
    + right. apply overlapping_cons. by right.
Qed.

Lemma aggregate_loop_Ok offers σ total tb σ' total' b' :
  aggregate_loop offers σ total tb = (σ', Ok (total', b')) →
  ¬ (overlaps_prior tb offers ∨ overlapping offers) ∧
  foldl aggregate_item (σ, total) (all_items offers) = (σ', total') ∧
  coin_spends b' = coin_spends tb ++ concat (map (λ o, coin_spends (obj_bundle o)) offers).
Proof.
  revert σ total tb. induction offers as [|o offers IH]; intros σ total tb; simpl.
  - intros [= <- <- <-]. split_and!; [|done|by rewrite app_nil_r].
    intros [(j & oj & c & Hj & _)|(i & j & oi & oj & c & _ & Hi & _)]; done.
  - destruct (decide _) as [Hov|Hno]; [done|].
    unfold all_items. simpl. rewrite foldl_app.
    destruct (foldl aggregate_item (σ, total) _) as [σ1 total1].
    intros (Hnone & Hfold & Hspends)%IH. split_and!; [|done|].
    + intros [(j & oj & c & Hj & Hc & Hcj)|Hov].
      * destruct j as [|j]; simpl in Hj.
        -- injection Hj as <-. apply Hno, input_coins_overlap. by exists c.
        -- apply Hnone. left. exists j, oj, c. split_and!; [done| |done].
           simpl. rewrite app_nil_r, map_app, elem_of_app. by left.
      * apply overlapping_cons in Hov as [(j & oj & c & Hj & Hc & Hcj)|Hov].
        -- apply Hnone. left. exists j, oj, c. split_and!; [done| |done].
           simpl. rewrite app_nil_r, map_app, elem_of_app. by right.
        -- apply Hnone. by right.
    + rewrite Hspends. simpl. by rewrite app_nil_r, <-app_assoc.
Qed.

(** The exceptions of [__post_init__]. *)
Lemma post_init_Raise (self : Offer Program G2Element) e :
  __post_init__ self = Raise e →
  e = IndexError ∨ e = UnpackError ∨ e = BadBytes32 ∨ e = EmptyOffer ∨ e = DuplicatePayment.
Proof.
  unfold __post_init__.
  destruct (get_offered_coins self) as [offered|e'] eqn:Hoff; simpl.
  - destruct offered as [|item offered]; [intros [= <-]; tauto|].
    destruct (duplicate_loop (dict_values (requested_payments self)))
      as [[-> _]|[-> _]]; [done|]. intros [= <-]. tauto.
  - intros [= <-]. apply get_offered_coins_Raise in Hoff. tauto.
Qed.

(** What [aggregate] does when no two offers spend the same coin: it builds
    the merged dictionary and bundle and hands them to the constructor. *)
Lemma aggregate_merge σ offers :
  ¬ overlapping offers → unshared σ offers →
  ∃ σ' o',
    aggregate σ offers = (σ', _ ← __post_init__ (Offer_value σ' o'); Ok o') ∧
    length σ' = length σ ∧
    coin_spends (obj_bundle o') = concat (map (λ o, coin_spends (obj_bundle o)) offers) ∧
    dict_wf (obj_requested_payments o') ∧
    (∀ k, k ∈ dict_keys (obj_requested_payments o') ↔
          ∃ o, o ∈ offers ∧ k ∈ dict_keys (obj_requested_payments o)) ∧
    (∀ k, held σ' (obj_requested_payments o') k = payments_for σ k offers).
Proof.
  intros Hno (Hwf & Hnd & Hvalid). unfold aggregate.
  destruct (aggregate_loop offers σ [] _) as [σ' [[total' b']|e]] eqn:Hloop.
  - apply aggregate_loop_Ok in Hloop as (_ & Hfold & Hspends).
    destruct (aggregate_items_spec (all_items offers) σ [])
      as (σ2 & total2 & Hfold2 & Hwf2 & Hlen & _ & _ & Hheld & Hkeys & _);
      [done|done|apply NoDup_nil_2|].
    rewrite Hfold in Hfold2. injection Hfold2 as <- <-.
    exists σ', (mkOfferObj total' b'). split_and!; try done.
    + intros k. simpl. rewrite Hkeys. unfold all_items. split.
      * intros [?%elem_of_nil|Hk]; [done|].
        apply list_elem_of_fmap in Hk as ([k' l] & -> & Hin).
        apply elem_of_concat in Hin as (items & Hin & Hitems).
        apply list_elem_of_fmap in Hitems as (o & -> & Ho).
        exists o. split; [done|]. by apply (list_elem_of_fmap_2 fst) in Hin.
      * intros (o & Ho & Hk). right.
        apply list_elem_of_fmap in Hk as ([k' l] & -> & Hin).
        apply (list_elem_of_fmap_2 fst). apply elem_of_concat.
        exists (obj_requested_payments o). split; [done|].
        by apply list_elem_of_fmap_2.
    + intros k. simpl. rewrite Hheld. unfold held, payments_for, all_items. simpl.
      rewrite filter_concat, map_map. clear -Hwf.
      induction offers as [|o offers IH]; simpl; [done|].
      rewrite map_app, concat_app, IH.
      2:{ intros o' Ho'. apply Hwf. by right. }
      f_equal. rewrite filter_key_wf by (apply Hwf; left).
      destruct (dict_get k (obj_requested_payments o)); simpl; [|done].
      by rewrite app_nil_r.
  - apply aggregate_loop_Raise in Hloop as [_ [(j & oj & c & _ & Hc & _)|Hov]]; [|done].
    simpl in Hc. by apply elem_of_nil in Hc.
Qed.

Lemma Offer_value_get σ o k :
  dict_get k (requested_payments (Offer_value σ o))
  = deref σ <$> dict_get k (obj_requested_payments o).
Proof. unfold Offer_value. simpl. apply dict_get_map_values. Qed.

Lemma Offer_value_entries σ o k :
  entries k (requested_payments (Offer_value σ o)) = held σ (obj_requested_payments o) k.
Proof.
  unfold entries, held. rewrite Offer_value_get.
  by destruct (dict_get k (obj_requested_payments o)).
Qed.

Lemma aggregate_Raise_overlapping σ offers :
  (aggregate σ offers).2 = Raise OverlappingInputs ↔ overlapping offers.
Proof.
  unfold aggregate.
  destruct (aggregate_loop offers σ [] _) as [σ' [[total' b']|e]] eqn:Hloop; simpl.
  - apply aggregate_loop_Ok in Hloop as (Hnone & _). split; [|tauto].
    destruct (__post_init__ _) as [[]|e] eqn:Hpost; simpl; [done|].
    intros [= ->]. apply post_init_Raise in Hpost. naive_solver.
  - apply aggregate_loop_Raise in Hloop as [-> [(j & oj & c & _ & Hc & _)|Hov]].
    + simpl in Hc. by apply elem_of_nil in Hc.
    + done.
Qed.
End aggregate_loop.

(** ** Aggregation: what it raises, returns and preserves *)

Lemma filter_none {A : Type} (P : A → Prop) `{∀ x, Decision (P x)} (l : list A) :
  (∀ x, x ∈ l → ¬ P x) → filter P l = [].
Proof.
  induction l as [|x l IH]; intros HP; [done|].
  rewrite filter_cons, decide_False by (apply HP; left).
  apply IH. intros y Hy. apply HP. by right.
Qed.

Lemma filter_ext_elem {A : Type} (P Q : A → Prop) `{∀ x, Decision (P x)}
    `{∀ x, Decision (Q x)} (l : list A) :
  (∀ x, x ∈ l → (P x ↔ Q x)) → filter P l = filter Q l.
Proof.
  induction l as [|x l IH]; intros HPQ; [done|].
  rewrite !filter_cons, IH by (intros y Hy; apply HPQ; by right).
  destruct (decide (P x)) as [HP|HP], (decide (Q x)) as [HQ|HQ]; try done.
  - destruct HQ. by apply (HPQ x); [left|].
  - destruct HP. by apply (HPQ x); [left|].
Qed.

Lemma foldr_sum_le {A : Type} (f g : A → Z) (l : list A) :
  (∀ x, x ∈ l → f x ≤ g x) →
  foldr (λ x s, f x + s) 0 l ≤ foldr (λ x s, g x + s) 0 l.
Proof.
  induction l as [|x l IH]; intros Hfg; simpl; [done|].
  assert (f x ≤ g x) by (apply Hfg; left).
  assert (foldr (λ x s, f x + s) 0 l ≤ foldr (λ x s, g x + s) 0 l).
  { apply IH. intros y Hy. apply Hfg. by right. }
  lia.
Qed.

Section aggregate_claims.
Context {Program G2Element : Type} `{!Externals Program G2Element}.
Implicit Types (o : OfferObj Program G2Element) (offers : list (OfferObj Program G2Element)).
Implicit Types (B : SpendBundle Program G2Element).

(** C4 (amended): [aggregate] raises [OverlappingInputs] exactly when some
    coin is spent by two offers of the list, coins being compared as values,
    which is the comparison by name as long as names do not collide.  When
    no coin is spent twice and the payment lists of the offers are different
    list objects, [aggregate] hands the constructor the offer whose spends are
    the concatenation of the spends of the offers and whose payments under
    each key are the concatenation, in the order of the offers, of their
    payments under that key; it returns that offer if the construction-time
    checks pass and raises their exception otherwise. *)
Theorem aggregate_spec σ offers :
  ((aggregate σ offers).2 = Raise OverlappingInputs ↔ overlapping offers) ∧
  ((∀ o o' c c', o ∈ offers → o' ∈ offers → c ∈ offer_inputs o → c' ∈ offer_inputs o' →
                 Coin_name c = Coin_name c' → c = c') →
   (overlapping offers ↔ overlapping_by_name Coin_name offers)) ∧
  (¬ overlapping offers → unshared σ offers →
   ∃ σ' o',
     aggregate σ offers = (σ', _ ← __post_init__ (Offer_value σ' o'); Ok o') ∧
     coin_spends (obj_bundle o') = concat (map (λ o, coin_spends (obj_bundle o)) offers) ∧
     (∀ k, k ∈ dict_keys (requested_payments (Offer_value σ' o')) ↔
           ∃ o, o ∈ offers ∧ k ∈ dict_keys (obj_requested_payments o)) ∧
     (∀ k, k ∈ dict_keys (requested_payments (Offer_value σ' o')) →
           dict_get k (requested_payments (Offer_value σ' o'))
           = Some (payments_for σ k offers))).
Proof.
  split_and!.
  - apply aggregate_Raise_overlapping.
  - intros Hinj. split.
    + intros (i & j & oi & oj & c & Hij & Hi & Hj & Hci & Hcj).
      by exists i, j, oi, oj, c, c.
    + intros (i & j & oi & oj & ci & cj & Hij & Hi & Hj & Hci & Hcj & Hname).
      assert (ci = cj) as <-.
      { eapply (Hinj oi oj); try done; by eapply list_elem_of_lookup_2. }
      by exists i, j, oi, oj, ci.
  - intros Hno Hun.
    destruct (aggregate_merge σ offers Hno Hun)
      as (σ' & o' & Hagg & _ & Hspends & Hwf & Hkeys & Hheld).
    exists σ', o'. split_and!; [done|done| |].
    + intros k. unfold Offer_value. simpl. by rewrite dict_keys_map_values.
    + intros k Hk. rewrite <-Hheld. unfold held. rewrite Offer_value_get.
      apply dict_get_is_Some in Hk as [v Hv]. rewrite Offer_value_get in Hv.
      by destruct (dict_get k (obj_requested_payments o')).
Qed.

Lemma names_disjoint_not_overlapping offers :
  names_disjoint Coin_name offers → ¬ overlapping offers.
Proof.
  intros Hnd (i & j & oi & oj & c & Hij & Hi & Hj & Hci & Hcj).
  apply list_elem_of_fmap in Hci as (csi & -> & Hcsi).
  apply list_elem_of_fmap in Hcj as (csj & Hc & Hcsj).
  eapply (Hnd i j); [lia|done..|by rewrite Hc].
Qed.

(** In the aggregated bundle an addition finds the parent spend it finds in
    the bundle of its own offer. *)
Lemma parent_spend_of_aggregate offers B i o parent cs :
  names_disjoint Coin_name offers →
  coin_spends B = concat (map (λ o, coin_spends (obj_bundle o)) offers) →
  offers !! i = Some o →
  parent_spend_of (obj_bundle o) parent = Ok cs →
  parent_spend_of B parent = Ok cs.
Proof.
  intros Hnd Hspends Hi Hcs.
  pose proof (parent_spend_of_Ok _ _ _ Hcs) as [Hcs_in Hcs_name].
  unfold parent_spend_of in *. rewrite Hspends.
  rewrite <-(take_drop_middle offers i o Hi), map_app, concat_app. simpl.
  rewrite !filter_app.
  rewrite (filter_none _ (concat (map _ (take i offers)))); [simpl|].
  - destruct (filter _ (coin_spends (obj_bundle o))); [done|]. by simplify_eq.
  - intros x (l & Hx & Hl)%elem_of_concat <-.
    apply list_elem_of_fmap in Hl as (oj & -> & Hoj).
    apply list_elem_of_lookup in Hoj as [j Hj].
    apply lookup_take_Some in Hj as [Hj Hlt].
    eapply (Hnd j i); [lia|done..].
Qed.

Lemma additions_aggregate offers B :
  coin_spends B = concat (map (λ o, coin_spends (obj_bundle o)) offers) →
  additions B = concat (map (λ o, additions (obj_bundle o)) offers).
Proof.
  intros Hspends. unfold additions. rewrite Hspends. clear Hspends.
  induction offers as [|o offers IH]; simpl; [done|].
  by rewrite map_app, concat_app, IH.
Qed.

(** The offered coins of the aggregate under a key are those of the offers,
    in order. *)
Lemma offered_aggregate offers B k :
  names_disjoint Coin_name offers →
  coin_spends B = concat (map (λ o, coin_spends (obj_bundle o)) offers) →
  (∀ o a, o ∈ offers → a ∈ additions (obj_bundle o) →
          ∃ cs, parent_spend_of (obj_bundle o) (parent_coin_info a) = Ok cs) →
  filter (λ a, asset_of B a = Some k) (additions B)
  = concat (map (λ o, filter (λ a, asset_of (obj_bundle o) a = Some k)
                             (additions (obj_bundle o))) offers).
Proof.
  intros Hnd Hspends Hparents. rewrite (additions_aggregate _ _ Hspends).
  rewrite filter_concat, map_map.
  f_equal. apply map_ext_in. intros o Ho%list_elem_of_In.
  apply filter_ext_elem. intros a Ha.
  destruct (Hparents o a Ho Ha) as [cs Hcs].
  apply list_elem_of_lookup in Ho as [i Hi].
  unfold asset_of.
  by rewrite Hcs, (parent_spend_of_aggregate _ _ _ _ _ _ Hnd Hspends Hi Hcs).
Qed.

Lemma is_valid_Ok_or_Overflow (self : Offer Program G2Element) offered :
  get_offered_coins self = Ok offered →
  (∃ v, is_valid self = Ok v) ∨ is_valid self = Raise Overflow.
Proof.
  intros Hoff. unfold is_valid, arbitrage, get_offered_amounts. rewrite Hoff. simpl.
  destruct (amounts_of amount offered) as [oa|e] eqn:Hoa; simpl.
  - unfold get_requested_amounts.
    destruct (amounts_of _ (requested_payments self)) as [ra|e] eqn:Hra; simpl.
    + left. eauto.
    + right. f_equal. by eapply amounts_fold_Raise.
  - right. f_equal. by eapply amounts_fold_Raise.
Qed.

(** [is_valid()] returns exactly when every sum of amounts is a
    [uint64]. *)
Lemma is_valid_defined (self : Offer Program G2Element) offered :
  get_offered_coins self = Ok offered →
  (∃ v, is_valid self = Ok v) ↔ amounts_fit self offered.
Proof.
  intros Hoff. split.
  - intros [v Hv].
    destruct (is_valid_Ok_views _ _ Hv) as (offered' & oa & ra & _ & Hoff' & Hoa & Hra & _).
    assert (offered' = offered) as -> by congruence.
    split; by eapply amounts_fold_Ok_fits.
  - intros [Hfit_off Hfit_req].
    destruct (amounts_fold_Ok amount offered [] Hfit_off) as [oa Hoa].
    destruct (amounts_fold_Ok (λ np, p_amount (np_payment np)) (requested_payments self) []
                Hfit_req) as [ra Hra].
    unfold is_valid, arbitrage, get_offered_amounts, get_requested_amounts, amounts_of.
    rewrite Hoff. simpl. rewrite Hoa. simpl. rewrite Hra. simpl. by eexists.
Qed.

(** When [is_valid()] of the aggregate of valid offers returns, it returns
    true. *)
Lemma aggregate_is_valid_true σ offers σ' agg v :
  (∀ o, o ∈ offers → is_valid (Offer_value σ o) = Ok true) →
  names_disjoint Coin_name offers →
  unshared σ offers →
  aggregate σ offers = (σ', Ok agg) →
  is_valid (Offer_value σ' agg) = Ok v →
  v = true.
Proof.
  intros Hvalid Hnd Hun Hagg Hv.
  destruct (aggregate_merge σ offers (names_disjoint_not_overlapping _ Hnd) Hun)
    as (σ2 & o2 & Hagg2 & _ & Hspends & Hwf & Hkeys & Hheld).
  rewrite Hagg in Hagg2. injection Hagg2 as <- Hpost.
  symmetry in Hpost. apply bind_Ok in Hpost as ([] & Hpost & [= ->]).
  destruct (is_valid_Ok_views _ _ Hv) as (offered & oa & ra & arb & Hoff & Hoa & Hra & _).
  assert (is_valid (Offer_value σ' agg) = Ok true) as Htrue; [|congruence].
  apply (is_valid_true_iff _ offered oa ra); try done.
  { unfold dict_wf, Offer_value. simpl. by rewrite dict_keys_map_values. }
  intros k. rewrite Offer_value_entries, Hheld.
  destruct (get_offered_coins_spec _ _ Hoff) as (_ & _ & Hentries & _).
  rewrite Hentries. simpl.
  assert (∀ o, o ∈ offers →
            ∃ offered_o, get_offered_coins (Offer_value σ o) = Ok offered_o) as Hoffs.
  { intros o Ho. destruct (is_valid_Ok_views _ _ (Hvalid o Ho)) as (d & _ & _ & _ & ? & _).
    eauto. }
  rewrite (offered_aggregate offers _ k Hnd Hspends).
  2:{ intros o a Ho Ha. destruct (Hoffs o Ho) as [d Hd].
      by apply get_offered_coins_spec in Hd as (_ & Hp & _); apply Hp. }
  unfold payments_for. rewrite !sum_amounts_concat, !foldr_fmap.
  apply foldr_sum_le. intros o Ho.
  destruct (is_valid_Ok_views _ _ (Hvalid o Ho)) as (d & oa' & ra' & _ & Hd & Hoa' & Hra' & _).
  pose proof (proj1 (is_valid_true_iff (Offer_value σ o) d oa' ra' Hd
                       ltac:(unfold dict_wf, Offer_value; simpl;
                             rewrite dict_keys_map_values; by apply Hun)
                       Hoa' Hra') (Hvalid o Ho) k) as Hle.
  rewrite Offer_value_entries in Hle. unfold held in Hle.
  destruct (get_offered_coins_spec _ _ Hd) as (_ & _ & Hentries_o & _).
  rewrite Hentries_o in Hle. done.
Qed.

(** C6 (amended): if every offer of the list is valid, no coin name is spent
    by two of them, their payment lists are different list objects, and
    [aggregate] returns an offer, then [is_valid()] of that offer is not
    false: it returns true exactly when every sum of amounts of the
    aggregate, of the coins offered under a key and of the payments requested
    under a key, fits in 64 bits, and it raises [Overflow] exactly when one
    of them does not. *)
Theorem aggregate_valid σ offers σ' agg :
  (∀ o, o ∈ offers → is_valid (Offer_value σ o) = Ok true) →
  names_disjoint Coin_name offers →
  unshared σ offers →
  aggregate σ offers = (σ', Ok agg) →
  ∃ offered,
    get_offered_coins (Offer_value σ' agg) = Ok offered ∧
    (is_valid (Offer_value σ' agg) = Ok true ↔ amounts_fit (Offer_value σ' agg) offered) ∧
    (is_valid (Offer_value σ' agg) = Raise Overflow ↔
     ¬ amounts_fit (Offer_value σ' agg) offered) ∧
    (is_valid (Offer_value σ' agg) = Ok true ∨
     is_valid (Offer_value σ' agg) = Raise Overflow).
Proof.
  intros Hvalid Hnd Hun Hagg.
  assert (∃ offered, get_offered_coins (Offer_value σ' agg) = Ok offered) as [offered Hoff].
  { unfold aggregate in Hagg.
    destruct (aggregate_loop offers σ [] _) as [σ1 [[total' b']|e]]; [|done].
    injection Hagg as <- Hpost. apply bind_Ok in Hpost as ([] & Hpost & [= <-]).
    unfold __post_init__ in Hpost. apply bind_Ok in Hpost as (offered & Hoff & _). eauto. }
  exists offered. split; [done|].
  pose proof (is_valid_defined _ _ Hoff) as Hdef.
  pose proof (aggregate_is_valid_true σ offers σ' agg) as Htrue.
  destruct (is_valid_Ok_or_Overflow _ _ Hoff) as [[v Hv]|Hraise].
  - assert (v = true) as -> by by eapply Htrue.
    assert (amounts_fit (Offer_value σ' agg) offered) as Hfit by (apply Hdef; eauto).
    split_and!; [done| |by left].
    split; [congruence|done].
  - assert (¬ amounts_fit (Offer_value σ' agg) offered) as Hnfit.
    { intros [v Hv]%Hdef. congruence. }
    split_and!; [|done|by right].
    split; [congruence|done].
Qed.
End aggregate_claims.
(** ** Serialization *)

Section codec_round_trip.
Context {Program G2Element : Type} `{!Externals Program G2Element}.
Context `{!CodecLaws}.
Implicit Types (o : Offer Program G2Element).

(** A notarized payment is read back from its condition when its payment
    is. *)
Lemma from_condition_read_back np :
  Payment_from_condition (as_condition np) = Ok (np_payment np) →
  from_condition (as_condition np) = Ok np.
Proof.
  intros Hp. unfold from_condition. rewrite Hp. simpl.
  unfold as_condition, as_condition_list. rewrite law_iter. simpl.
  unfold bytes32_of. rewrite law_bytes32. simpl. by destruct np.
Qed.

Lemma from_conditions_read_back (payments : list NotarizedPayment) :
  (∀ np, np ∈ payments → Payment_from_condition (as_condition np) = Ok (np_payment np)) →
  mapM from_condition
       (as_iter (Program_to (VList (map (λ np, VProgram (as_condition np)) payments))))
  = Ok payments.
Proof.
  intros Hp. rewrite law_iter, map_map.
  induction payments as [|np payments IH]; simpl; [done|].
  rewrite law_program, from_condition_read_back by (apply Hp; left). simpl.
  rewrite IH; [done|]. intros np' Hnp'. apply Hp. by right.
Qed.

(** The key of a settlement puzzle is read back from the puzzle. *)
Lemma match_settlement_puzzle (k : AssetKey) :
  match match_cat_puzzle (settlement_puzzle k) with
  | Some curried_args =>
      '(_, tail_hash, _) ← unpack3 curried_args;
      tail_hash ← bytes32_of tail_hash;
      Ok (Some tail_hash)
  | None => Ok None
  end = Ok k.
Proof.
  destruct k as [tail|]; simpl.
  - destruct (law_cat tail) as (m & t & i & -> & Ht). simpl.
    unfold bytes32_of. by rewrite Ht.
  - by rewrite law_offer_mod.
Qed.

(** Decoding the dummy spends rebuilds the dictionary, item by item. *)
Lemma from_bytes_dummies (items acc : dict AssetKey (list NotarizedPayment))
    (leftover : list (CoinSpend Program)) :
  dict_wf (acc ++ items) → payments_read_back items →
  foldM from_bytes_step (acc, leftover) (map additional_coin_spend items)
  = Ok (acc ++ items, leftover).
Proof.
  revert acc. induction items as [|[k payments] items IH]; intros acc Hwf Hp; simpl.
  - by rewrite app_nil_r.
  - rewrite match_settlement_puzzle. simpl.
    rewrite from_conditions_read_back.
    2:{ intros np Hnp. apply (Hp k payments); [left|done]. }
    simpl. rewrite dict_set_fresh.
    2:{ unfold dict_wf, dict_keys in Hwf. rewrite map_app in Hwf. simpl in Hwf.
        apply NoDup_app in Hwf as (_ & Hdisj & _). intros Hk. apply (Hdisj k Hk). left. }
    rewrite IH.
    + by rewrite <-app_assoc.
    + by rewrite <-app_assoc.
    + intros k' p' np Hin. apply (Hp k' p' np). by right.
Qed.

(** Decoding keeps the spends whose coin has another parent than
    [ZERO_32]. *)
Lemma from_bytes_leftover (spends leftover : list (CoinSpend Program))
    (rp : dict AssetKey (list NotarizedPayment)) :
  (∀ cs, cs ∈ spends → parent_coin_info (coin cs) ≠ ZERO_32) →
  foldM from_bytes_step (rp, leftover) spends = Ok (rp, leftover ++ spends).
Proof.
  revert leftover. induction spends as [|cs spends IH]; intros leftover Hp; simpl.
  - by rewrite app_nil_r.
  - rewrite decide_False by (apply Hp; left). simpl.
    rewrite IH; [by rewrite <-app_assoc|]. intros cs' Hcs'. apply Hp. by right.
Qed.

(** C1 (amended): given the laws of the collaborators other than [Payment]
    (the class [CodecLaws]), for an offer accepted by the constructor, with
    pairwise different requested keys, every requested payment of which is
    read back from its condition by [Payment.from_condition], and none of
    whose coin spends spends a coin with parent [ZERO_32],
    [from_bytes(bytes(o))] returns an offer equal to [o]: the same payment
    lists, in the same order, under the same keys, and the same bundle. *)
Theorem from_bytes_bytes o :
  __post_init__ o = Ok () →
  dict_wf (requested_payments o) →
  payments_read_back (requested_payments o) →
  (∀ cs, cs ∈ coin_spends (bundle o) → parent_coin_info (coin cs) ≠ ZERO_32) →
  from_bytes (__bytes__ o) = Ok o.
Proof.
  intros Hpost Hwf Hp Hparents. unfold from_bytes, __bytes__.
  rewrite law_codec. simpl. rewrite app_nil_r, foldM_app.
  rewrite (from_bytes_dummies _ [] []) by done. simpl.
  rewrite from_bytes_leftover by done. simpl.
  rewrite law_signature. unfold Offer_new.
  destruct o as [rp [spends sig]]. simpl in *. by rewrite Hpost.
Qed.
End codec_round_trip.

Section round_trip.
Context {Program G2Element : Type} `{!Externals Program G2Element}.
Context `{!RoundTripLaws}.

Lemma from_condition_as_condition np :
  0 ≤ p_amount (np_payment np) < 2 ^ 64 → from_condition (as_condition np) = Ok np.
Proof. intros Hamt. by apply from_condition_read_back, law_payment. Qed.

(** Payments with [uint64] amounts are read back. *)
Lemma uint64_payments_read_back (rp : dict AssetKey (list NotarizedPayment)) :
  uint64_payments rp → payments_read_back rp.
Proof. intros Hamt k payments np Hin Hnp. apply law_payment. by eapply Hamt. Qed.
End round_trip.

(** ** Notarization *)

Lemma dict_set_middle {K V : Type} `{EqDecision K} (pre rest : dict K V) k v v' :
  k ∉ dict_keys pre →
  dict_set k v' (pre ++ (k, v) :: rest) = pre ++ (k, v') :: rest.
Proof.
  induction pre as [|[k0 v0] pre IH]; simpl.
  - intros _. by rewrite decide_True.
  - rewrite not_elem_of_cons. intros [Hne Hk].
    rewrite decide_False by done. by rewrite IH.
Qed.

Section sorting.
Context {Program G2Element : Type} `{!Externals Program G2Element}.

(** Two insertions commute, unless two different coins have the same
    name. *)
Lemma insert_by_name_comm (x y : Coin) (l : list Coin) :
  (x = y ∨ Coin_name x ≠ Coin_name y) →
  insert_by_name y (insert_by_name x l) = insert_by_name x (insert_by_name y l).
Proof.
  intros [->|Hne]; [done|].
  induction l as [|z l IH]; simpl.
  - repeat case_decide; try done; lia.
  - repeat (case_decide; simpl); try done; try lia. by rewrite IH.
Qed.

Lemma insert_by_name_perm (c : Coin) (l : list Coin) : insert_by_name c l ≡ₚ c :: l.
Proof.
  induction l as [|z l IH]; simpl; [done|].
  case_decide; [|done]. rewrite IH. apply perm_swap.
Qed.

Lemma foldl_insert_perm (l acc : list Coin) :
  foldl (λ acc c, insert_by_name c acc) acc l ≡ₚ l ++ acc.
Proof.
  revert acc. induction l as [|c l IH]; intros acc; simpl; [done|].
  rewrite IH, insert_by_name_perm. by rewrite Permutation_middle.
Qed.

Lemma sorted_by_name_perm (coins : list Coin) : sorted_by_name coins ≡ₚ coins.
Proof. unfold sorted_by_name. by rewrite foldl_insert_perm, app_nil_r. Qed.

Lemma insert_by_name_sorted (c : Coin) (l : list Coin) :
  StronglySorted (λ a b, (Coin_name a ≤ Coin_name b)%N) l →
  StronglySorted (λ a b, (Coin_name a ≤ Coin_name b)%N) (insert_by_name c l).
Proof.
  induction l as [|z l IH]; simpl; intros Hl.
  - by repeat constructor.
  - apply StronglySorted_inv in Hl as [Hl Hz]. case_decide.
    + constructor; [by apply IH|].
      rewrite insert_by_name_perm. by constructor.
    + constructor; [by constructor|].
      constructor; [lia|]. eapply Forall_impl; [exact Hz|]. simpl. intros; lia.
Qed.

Lemma sorted_by_name_sorted (coins : list Coin) :
  StronglySorted (λ a b, (Coin_name a ≤ Coin_name b)%N) (sorted_by_name coins).
Proof.
  unfold sorted_by_name.
  assert (∀ acc, StronglySorted (λ a b, (Coin_name a ≤ Coin_name b)%N) acc →
                 StronglySorted (λ a b, (Coin_name a ≤ Coin_name b)%N)
                   (foldl (λ acc c, insert_by_name c acc) acc coins)) as Hgen.
  { induction coins as [|c coins IH]; intros acc Hacc; simpl; [done|].
    by apply IH, insert_by_name_sorted. }
  apply Hgen. constructor.
Qed.

(** Sorting does not depend on the order of the coins, unless two different
    coins have the same name. *)
Lemma sorted_by_name_permutation (coins1 coins2 : list Coin) :
  coins1 ≡ₚ coins2 →
  (∀ a b, a ∈ coins1 → b ∈ coins1 → Coin_name a = Coin_name b → a = b) →
  sorted_by_name coins1 = sorted_by_name coins2.
Proof.
  unfold sorted_by_name. generalize (@nil Coin).
  intros acc Hperm. revert acc.
  induction Hperm as [|x l1 l2 Hperm IH|x y l|l1 l2 l3 Hperm1 IH1 Hperm2 IH2];
    intros acc Hinj; simpl.
  - done.
  - apply IH. intros a b Ha Hb. apply Hinj; by right.
  - rewrite insert_by_name_comm; [done|].
    destruct (decide (y = x)) as [->|Hne]; [by left|right].
    intros Hname. apply Hne, Hinj; [left|right; left|done].
  - rewrite IH1 by done. apply IH2.
    intros a b Ha Hb. apply Hinj; by rewrite Hperm1.
Qed.
End sorting.

Section notarize_facts.
Context {Program G2Element : Type} `{!Externals Program G2Element}.

Lemma heap_dict_alter (h : heap) (d d' : loc) f lists :
  heap_dict (mkHeap (alter f d (h_dicts h)) lists) d'
  = if decide (d' = d) then
      (if decide (d < length (h_dicts h))%nat then f (heap_dict h d) else [])
    else heap_dict h d'.
Proof.
  unfold heap_dict. simpl. destruct (decide (d' = d)) as [->|Hne].
  - rewrite list_lookup_alter_eq. destruct (decide _) as [Hlt|Hge].
    + apply lookup_lt_is_Some_2 in Hlt as [x ->]. done.
    + rewrite lookup_ge_None_2 by lia. done.
  - by rewrite list_lookup_alter_ne.
Qed.

(** The loop of [notarize_payments], started on the dictionary
    [pre ++ items] with the items [items] left to visit. *)
Lemma notarize_fold (nonce0 : bytes32) (d : loc) (items pre : dict AssetKey loc) (h : heap) :
  heap_dict h d = pre ++ items →
  dict_wf (pre ++ items) →
  (d < length (h_dicts h))%nat →
  let h' := foldl (notarize_item nonce0 d) h items in
  ∃ new_items,
    heap_dict h' d = pre ++ new_items ∧
    Forall2 (λ old new,
               new.1 = old.1 ∧ (length (h_lists h) ≤ new.2)%nat ∧
               ((old.2 < length (h_lists h))%nat →
                heap_list h' new.2
                = map (λ p, Notarized (mkNotarizedPayment (payment_fields p) nonce0))
                      (heap_list h old.2)))
            items new_items ∧
    (∀ l, (l < length (h_lists h))%nat → heap_list h' l = heap_list h l) ∧
    (∀ d', d' ≠ d → heap_dict h' d' = heap_dict h d').
Proof.
  revert pre h. induction items as [|[k l] items IH]; intros pre h Hd Hwf Hvalid; simpl.
  - exists []. split_and!; [done|constructor|done|done].
  - set (notarized := map _ (heap_list h l)).
    set (h1 := mkHeap _ _).
    assert (k ∉ dict_keys pre) as Hk.
    { unfold dict_wf, dict_keys in Hwf. rewrite map_app in Hwf.
      apply NoDup_app in Hwf as (_ & Hdisj & _). intros Hin. apply (Hdisj k Hin). left. }
    assert (heap_dict h1 d = (pre ++ [(k, length (h_lists h))]) ++ items) as Hd1.
    { unfold h1. rewrite heap_dict_alter, !decide_True by done.
      rewrite Hd, dict_set_middle by done. by rewrite <-app_assoc. }
    assert (∀ x, (x < length (h_lists h))%nat → heap_list h1 x = heap_list h x) as Hold.
    { intros x Hx. unfold heap_list, h1. simpl. by rewrite lookup_app_l. }
    destruct (IH (pre ++ [(k, length (h_lists h))]) h1) as (new & Hnew & Hall & Hframe & Hother).
    + done.
    + unfold dict_wf, dict_keys in *. rewrite <-app_assoc. simpl.
      rewrite !map_app in *. simpl in *. done.
    + unfold h1. simpl. by rewrite length_alter.
    + exists ((k, length (h_lists h)) :: new). split_and!.
      * rewrite Hnew. by rewrite <-app_assoc.
      * constructor.
        -- simpl. split_and!; [done|done|]. intros _.
           rewrite Hframe by (unfold h1; simpl; rewrite length_app; simpl; lia).
           unfold heap_list at 1, h1. simpl.
           by rewrite lookup_app_r, Nat.sub_diag by lia.
        -- eapply Forall2_impl; [exact Hall|]. simpl.
           intros [k1 l1] [k2 l2]. simpl. intros (-> & Hle & Hlist).
           assert (length (h_lists h1) = S (length (h_lists h))) as Hlen1.
           { unfold h1. simpl. rewrite length_app. simpl. lia. }
           simpl in *. split_and!; [done|lia|]. intros Hl1.
           rewrite Hlist by lia. by rewrite Hold.
      * intros x Hx. rewrite Hframe, Hold; [done|done|].
        unfold h1. simpl. rewrite length_app. lia.
      * intros d' Hd'. rewrite Hother by done. unfold h1.
        rewrite heap_dict_alter. by rewrite decide_False.
Qed.
End notarize_facts.

Section notarize_claims.
Context {Program G2Element : Type} `{!Externals Program G2Element}.

(** What the loop of [notarize_payments] leaves in the heap. *)
Lemma notarize_payments_heap (h : heap) (d : loc) (coins : list Coin) :
  dict_wf (heap_dict h d) →
  (d < length (h_dicts h))%nat →
  (∀ k l, (k, l) ∈ heap_dict h d → (l < length (h_lists h))%nat) →
  let h' := (notarize_payments h d coins).1 in
  dict_keys (heap_dict h' d) = dict_keys (heap_dict h d) ∧
  (∀ k l, dict_get k (heap_dict h d) = Some l →
     ∃ l', dict_get k (heap_dict h' d) = Some l' ∧
           (length (h_lists h) ≤ l')%nat ∧
           heap_list h' l'
           = map (λ p, Notarized (mkNotarizedPayment (payment_fields p)
                                                      (notarization_nonce coins)))
                 (heap_list h l)) ∧
  (∀ l, (l < length (h_lists h))%nat → heap_list h' l = heap_list h l) ∧
  (∀ d', d' ≠ d → heap_dict h' d' = heap_dict h d').
Proof.
  intros Hwf Hd Hvalid. simpl.
  destruct (notarize_fold (notarization_nonce coins) d (heap_dict h d) [] h)
    as (new & Hnew & Hall & Hframe & Hother); [done|done|done|].
  simpl in Hnew. rewrite Hnew.
  assert (dict_keys new = dict_keys (heap_dict h d)) as Hkeys.
  { clear -Hall. unfold dict_keys.
    induction Hall as [|old new0 olds news (Hfst & _) _ IH]; simpl; [done|].
    by rewrite Hfst, IH. }
  split_and!; [done| |done|done].
  intros k l Hget.
  pose proof (dict_get_Some_elem _ _ _ Hget) as Hin.
  apply list_elem_of_lookup in Hin as [i Hi].
  destruct (Forall2_lookup_l _ _ _ _ _ Hall Hi) as ([k' l'] & Hi' & Hfst & Hle & Hlist).
  simpl in *. subst k'. exists l'. split_and!; [|done|].
  - apply dict_get_elem_wf.
    + unfold dict_wf. by rewrite Hkeys.
    + by eapply list_elem_of_lookup_2.
  - apply Hlist. eapply Hvalid. by apply dict_get_Some_elem.
Qed.

(** C9: [notarize_payments] returns the reference it was given, and the
    dictionary behind it, whose keys are unchanged, now holds under every
    key a new list object with the notarized payments of the list it held;
    no key holds the list it held before.  The old list objects and the other
    dictionaries are untouched. *)
Theorem notarize_payments_in_place (h : heap) (d : loc) (coins : list Coin) :
  dict_wf (heap_dict h d) →
  (d < length (h_dicts h))%nat →
  (∀ k l, (k, l) ∈ heap_dict h d → (l < length (h_lists h))%nat) →
  let h' := (notarize_payments h d coins).1 in
  (notarize_payments h d coins).2 = d ∧
  dict_keys (heap_dict h' d) = dict_keys (heap_dict h d) ∧
  (∀ k l, dict_get k (heap_dict h d) = Some l →
     ∃ l', dict_get k (heap_dict h' d) = Some l' ∧
           l' ≠ l ∧
           heap_list h' l'
           = map (λ p, Notarized (mkNotarizedPayment (payment_fields p)
                                                      (notarization_nonce coins)))
                 (heap_list h l)) ∧
  (∀ l, (l < length (h_lists h))%nat → heap_list h' l = heap_list h l) ∧
  (∀ d', d' ≠ d → heap_dict h' d' = heap_dict h d').
Proof.
  intros Hwf Hd Hvalid h'.
  destruct (notarize_payments_heap h d coins Hwf Hd Hvalid)
    as (Hkeys & Hget & Hframe & Hother).
  split_and!; [done|done| |done|done].
  intros k l Hl. destruct (Hget k l Hl) as (l' & Hl' & Hle & Hlist).
  exists l'. split_and!; [done| |done].
  assert (l < length (h_lists h))%nat; [|lia].
  eapply Hvalid. by apply dict_get_Some_elem.
Qed.

(** C7 (amended): two coin lists that are permutations of each other, without two
    different coins of the same name, give the same nonce; every payment of
    the dictionary that [notarize_payments] leaves is a [NotarizedPayment]
    with that nonce; and the nonce is the tree hash of the list forms of the
    coins sorted by name. *)
Theorem notarize_payments_nonce (h : heap) (d : loc) (coins1 coins2 : list Coin) :
  coins1 ≡ₚ coins2 →
  (∀ a b, a ∈ coins1 → b ∈ coins1 → Coin_name a = Coin_name b → a = b) →
  dict_wf (heap_dict h d) →
  (d < length (h_dicts h))%nat →
  (∀ k l, (k, l) ∈ heap_dict h d → (l < length (h_lists h))%nat) →
  notarization_nonce coins1 = notarization_nonce coins2 ∧
  (∃ sorted_coins,
     sorted_coins ≡ₚ coins1 ∧
     StronglySorted (λ a b, (Coin_name a ≤ Coin_name b)%N) sorted_coins ∧
     notarization_nonce coins1
     = get_tree_hash (Program_to (VList (map Coin_as_list sorted_coins)))) ∧
  (∀ coins, coins = coins1 ∨ coins = coins2 →
     ∀ k l p,
       dict_get k (heap_dict (notarize_payments h d coins).1 d) = Some l →
       p ∈ heap_list (notarize_payments h d coins).1 l →
       ∃ np, p = Notarized np ∧ nonce np = notarization_nonce coins1).
Proof.
  intros Hperm Hinj Hwf Hd Hvalid.
  assert (notarization_nonce coins1 = notarization_nonce coins2) as Hnonce.
  { unfold notarization_nonce. by rewrite (sorted_by_name_permutation coins1 coins2). }
  split_and!; [done| |].
  - exists (sorted_by_name coins1).
    split_and!; [apply sorted_by_name_perm|apply sorted_by_name_sorted|done].
  - intros coins Hcoins k l p Hl Hp.
    assert (notarization_nonce coins = notarization_nonce coins1) as Hsame.
    { by destruct Hcoins as [->| ->]. }
    destruct (notarize_payments_heap h d coins Hwf Hd Hvalid)
      as (Hkeys & Hget & _ & _).
    assert (k ∈ dict_keys (heap_dict h d)) as [l0 Hl0]%dict_get_is_Some.
    { rewrite <-Hkeys. apply dict_get_is_Some. eauto. }
    destruct (Hget k l0 Hl0) as (l' & Hl' & _ & Hlist).
    assert (l' = l) as -> by congruence.
    rewrite Hlist in Hp. apply list_elem_of_fmap in Hp as (p0 & -> & _).
    eexists. split; [reflexivity|]. simpl. done.
Qed.
End notarize_claims.

(** ** The reference instance and the examples *)

Lemma positive_of_to_bytes (p : positive) : positive_of_bytes (positive_to_bytes p) = Some p.
Proof. induction p as [p IH|p IH|]; simpl; by rewrite ?IH. Qed.

Lemma ref_codec_round_trip (b : SpendBundle RProgram Z) :
  ref_SpendBundle_from_bytes (ref_SpendBundle_bytes b) = Ok b.
Proof.
  unfold ref_SpendBundle_from_bytes, ref_SpendBundle_bytes.
  rewrite positive_of_to_bytes. simpl. by rewrite decode_encode.
Qed.

Lemma ref_as_iter_to (l : list (PyVal RProgram)) :
  ref_as_iter (ref_Program_to (VList l)) = map ref_Program_to l.
Proof. induction l as [|x l IH]; simpl in *; [done|]. by rewrite IH. Qed.

Lemma ref_memos_round_trip (memos : list (list byte)) :
  map ref_memo (ref_as_iter (ref_Program_to (VList (map VBytes memos)))) = memos.
Proof. induction memos as [|m memos IH]; simpl in *; [done|]. by rewrite IH. Qed.

#[export] Instance ref_codec_laws : @CodecLaws RProgram Z ref_externals.
Proof.
  split.
  - apply ref_codec_round_trip.
  - intros s. simpl. lia.
  - done.
  - intros tail. by eexists _, _, _.
  - apply ref_as_iter_to.
  - done.
  - done.
Qed.

#[export] Instance ref_round_trip_laws : @RoundTripLaws RProgram Z ref_externals.
Proof.
  split; [apply ref_codec_laws|].
  intros [[ph amt memos] n] Hamt. simpl in Hamt.
  unfold as_condition, as_condition_list, as_condition_args. simpl.
  unfold ref_Payment_from_condition. simpl.
  destruct (decide (0 ≤ amt < 2 ^ 64)); [|done].
  pose proof (ref_memos_round_trip memos) as Hm. simpl in Hm. by rewrite Hm.
Qed.

(** C1: the witness of [from_bytes_bytes], offer M, whose payment carries a
    memo. *)
Lemma from_bytes_bytes_witness : from_bytes (__bytes__ ex_offer_M) = Ok ex_offer_M.
Proof.
  apply (from_bytes_bytes ex_offer_M).
  - vm_compute. reflexivity.
  - solve_NoDup.
  - intros k payments np Hin Hnp. simpl in Hin.
    elem_cases Hin. injection Hin as -> ->. elem_cases Hnp. subst np.
    vm_compute. reflexivity.
  - intros cs Hcs. simpl in Hcs. elem_cases Hcs. subst cs. simpl. discriminate.
Defined.

(** C1, as stated, fails on offer Z, which the constructor accepts: one of
    its coin spends spends a coin whose parent is [ZERO_32], decoding takes
    that spend for a dummy spend and its solution for a list of payment
    conditions, and raises the [ValueError] of [bytes32] at line 37 on the
    first element of the first of them, the opcode 51. *)
Lemma from_bytes_bytes_zero_parent :
  __post_init__ ex_offer_Z = Ok () ∧
  dict_wf (requested_payments ex_offer_Z) ∧
  uint64_payments (requested_payments ex_offer_Z) ∧
  payments_read_back (requested_payments ex_offer_Z) ∧
  from_bytes (__bytes__ ex_offer_Z) = Raise BadBytes32.
Proof.
  split_and!; [by vm_compute|solve_NoDup| | |by vm_compute].
  - intros k payments np Hin Hnp. simpl in Hin.
    elem_cases Hin. injection Hin as -> ->. elem_cases Hnp. subst np. simpl. lia.
  - intros k payments np Hin Hnp. simpl in Hin.
    elem_cases Hin. injection Hin as -> ->. elem_cases Hnp. subst np.
    vm_compute. reflexivity.
Qed.

(** C2: the witness of [arbitrage_is_valid_spec], offer A, which offers 1000
    XCH and requests 500 of the CAT. *)
Lemma arbitrage_is_valid_spec_witness :
  ∃ arbitrage_dict,
    arbitrage ex_offer_A = Ok arbitrage_dict ∧
    dict_wf arbitrage_dict ∧
    (∀ k, k ∈ dict_keys arbitrage_dict ↔
          k ∈ dict_keys [(None : AssetKey, 1000)] ∨ k ∈ dict_keys [(Some ex_tail, 500)]) ∧
    (∀ k, k ∈ dict_keys arbitrage_dict →
          dict_get k arbitrage_dict
          = Some (get0 k [(None, 1000)] - get0 k [(Some ex_tail, 500)])) ∧
    ∃ b, is_valid ex_offer_A = Ok b ∧
         (b = true ↔ ∀ value, value ∈ dict_values arbitrage_dict → 0 ≤ value).
Proof.
  apply (arbitrage_is_valid_spec ex_offer_A [(None, 1000)] [(Some ex_tail, 500)]);
    vm_compute; reflexivity.
Defined.

(** The bundle of offer A is well formed. *)
Lemma ex_bundle_A_well_formed : well_formed_bundle ex_bundle_A.
Proof.
  intros a Ha. exists (ex_native_spend 11%N 1000 1000). split; [left|].
  elem_compute Ha. by subst a.
Qed.

(** C3: the witness of [Offer_new_spec], the fields of offer A, whose
    bundle offers one coin. *)
Lemma Offer_new_spec_witness :
  (Offer_new (requested_payments ex_offer_A) ex_bundle_A = Raise EmptyOffer ↔
   [(None : AssetKey, [ex_coin_A])] = []) ∧
  (Offer_new (requested_payments ex_offer_A) ex_bundle_A = Raise DuplicatePayment ↔
   [(None : AssetKey, [ex_coin_A])] ≠ [] ∧ duplicate_payment (requested_payments ex_offer_A)) ∧
  (Offer_new (requested_payments ex_offer_A) ex_bundle_A
   = Ok (mkOffer (requested_payments ex_offer_A) ex_bundle_A) ↔
   [(None : AssetKey, [ex_coin_A])] ≠ [] ∧
   ¬ duplicate_payment (requested_payments ex_offer_A)).
Proof.
  apply (proj2 (proj2 (Offer_new_spec (requested_payments ex_offer_A) ex_bundle_A))
           [(None, [ex_coin_A])]).
  by vm_compute.
Defined.

(** C3, as stated, fails on a bundle that offers nothing together with a
    payment requested twice: the bundle is well formed, two requested
    payments have the same name, and yet the exception is [EmptyOffer], not
    [DuplicatePayment]. *)
Lemma Offer_new_empty_before_duplicate :
  well_formed_bundle ex_bundle_empty ∧
  duplicate_payment ex_duplicates ∧
  Offer_new ex_duplicates ex_bundle_empty = Raise EmptyOffer ∧
  ¬ (Offer_new ex_duplicates ex_bundle_empty = Raise DuplicatePayment ↔
     duplicate_payment ex_duplicates).
Proof.
  assert (duplicate_payment ex_duplicates) as Hdup.
  { exists None, [ex_payment 33%N 700 9%N; ex_payment 33%N 700 9%N], 0%nat, 1%nat,
      (ex_payment 33%N 700 9%N), (ex_payment 33%N 700 9%N).
    split_and!; [left|done|done|done|done]. }
  split_and!; [|done|done|].
  - intros a Ha. elem_compute Ha.
  - intros [_ Hraise]. specialize (Hraise Hdup). by vm_compute in Hraise.
Qed.


(** C4: the witness of [aggregate_spec], offers A and B. *)
Lemma aggregate_spec_witness :
  ∃ σ' o',
    aggregate ex_store_AB [ex_obj_A; ex_obj_B]
    = (σ', _ ← __post_init__ (Offer_value σ' o'); Ok o') ∧
    coin_spends (obj_bundle o')
    = concat (map (λ o, coin_spends (obj_bundle o)) [ex_obj_A; ex_obj_B]) ∧
    (∀ k, k ∈ dict_keys (requested_payments (Offer_value σ' o')) ↔
          ∃ o, o ∈ [ex_obj_A; ex_obj_B] ∧ k ∈ dict_keys (obj_requested_payments o)) ∧
    (∀ k, k ∈ dict_keys (requested_payments (Offer_value σ' o')) →
          dict_get k (requested_payments (Offer_value σ' o'))
          = Some (payments_for ex_store_AB k [ex_obj_A; ex_obj_B])).
Proof.
  destruct (aggregate_spec ex_store_AB [ex_obj_A; ex_obj_B]) as (Hraise & _ & Hmerge).
  apply Hmerge.
  - intros Hov. apply Hraise in Hov. by vm_compute in Hov.
  - solve_unshared.
Defined.

(** C4, as stated, fails on the empty list and on offers C and D when D
    requests the very payment C requests: no coin is spent twice, and
    [aggregate] returns no offer, it raises the exception of the
    constructor.  It also fails on offers S and T, where S holds one list
    object under two keys: [aggregate] returns an offer whose payments under
    the CAT are not the concatenation of the payments of S and T under the
    CAT, the payment of T under XCH has been added to them. *)
Lemma aggregate_disjoint_raises :
  (¬ overlapping ([] : list (OfferObj RProgram Z)) ∧
   (aggregate [] ([] : list (OfferObj RProgram Z))).2 = Raise EmptyOffer) ∧
  (¬ overlapping [ex_obj_C; ex_obj_D] ∧
   (aggregate ex_store_CC [ex_obj_C; ex_obj_D]).2 = Raise DuplicatePayment) ∧
  (¬ overlapping [ex_obj_S; ex_obj_T] ∧
   aggregate ex_store_ST [ex_obj_S; ex_obj_T] = (ex_store_ST', Ok ex_obj_ST) ∧
   dict_get (Some ex_tail) (requested_payments (Offer_value ex_store_ST' ex_obj_ST))
   ≠ Some (payments_for ex_store_ST (Some ex_tail) [ex_obj_S; ex_obj_T])).
Proof.
  split_and!.
  - intros (i & j & oi & oj & c & _ & Hi & _). by rewrite lookup_nil in Hi.
  - by vm_compute.
  - intros Hov. apply (aggregate_Raise_overlapping ex_store_CC) in Hov.
    by vm_compute in Hov.
  - by vm_compute.
  - intros Hov. apply (aggregate_Raise_overlapping ex_store_ST) in Hov.
    by vm_compute in Hov.
  - by vm_compute.
  - intros Heq. by vm_compute in Heq.
Qed.

(** C8: [aggregate] changes its first argument.  Offers C and D both
    request XCH; [aggregate] accepts them, stores the payment list of C in
    the dictionary it builds and extends that list with the payments of D:
    after the call offer C requests both payments. *)
Theorem aggregate_extends_first_offer :
  aggregate ex_store_CD [ex_obj_C; ex_obj_D] = (ex_store_CD', Ok ex_obj_CD) ∧
  requested_payments (Offer_value ex_store_CD ex_obj_C)
  = [(None, [ex_payment 33%N 700 9%N])] ∧
  requested_payments (Offer_value ex_store_CD' ex_obj_C)
  = [(None, [ex_payment 33%N 700 9%N; ex_payment 34%N 200 8%N])].
Proof. split_and!; by vm_compute. Qed.

(** C6: the witness of [aggregate_valid], offers C and D. *)
Lemma aggregate_valid_witness :
  ∃ offered,
    get_offered_coins (Offer_value ex_store_CD' ex_obj_CD) = Ok offered ∧
    (is_valid (Offer_value ex_store_CD' ex_obj_CD) = Ok true ↔
     amounts_fit (Offer_value ex_store_CD' ex_obj_CD) offered) ∧
    (is_valid (Offer_value ex_store_CD' ex_obj_CD) = Raise Overflow ↔
     ¬ amounts_fit (Offer_value ex_store_CD' ex_obj_CD) offered) ∧
    (is_valid (Offer_value ex_store_CD' ex_obj_CD) = Ok true ∨
     is_valid (Offer_value ex_store_CD' ex_obj_CD) = Raise Overflow).
Proof.
  apply (aggregate_valid ex_store_CD [ex_obj_C; ex_obj_D]).
  - intros o Ho. elem_cases Ho; subst o; by vm_compute.
  - solve_names_disjoint.
  - solve_unshared.
  - by vm_compute.
Defined.

(** C6, as stated, fails on two offers of 2^63 XCH each: each is valid, no
    coin name is spent twice, [aggregate] returns their aggregate, and
    [is_valid()] of the aggregate does not return true, it raises
    [Overflow], since 2^64 is no [uint64].  It also fails on offers S and T,
    where S holds one list object under two keys: both are valid, no coin
    name is spent twice, and [is_valid()] of their aggregate is false. *)
Lemma aggregate_valid_overflow :
  (is_valid (Offer_value [] ex_obj_big1) = Ok true ∧
   is_valid (Offer_value [] ex_obj_big2) = Ok true ∧
   names_disjoint ref_Coin_name [ex_obj_big1; ex_obj_big2] ∧
   aggregate [] [ex_obj_big1; ex_obj_big2] = ([], Ok ex_obj_big) ∧
   is_valid (Offer_value [] ex_obj_big) = Raise Overflow) ∧
  (is_valid (Offer_value ex_store_ST ex_obj_S) = Ok true ∧
   is_valid (Offer_value ex_store_ST ex_obj_T) = Ok true ∧
   names_disjoint ref_Coin_name [ex_obj_S; ex_obj_T] ∧
   aggregate ex_store_ST [ex_obj_S; ex_obj_T] = (ex_store_ST', Ok ex_obj_ST) ∧
   is_valid (Offer_value ex_store_ST' ex_obj_ST) = Ok false).
Proof.
  split; split_and!; try by vm_compute.
  - solve_names_disjoint.
  - solve_names_disjoint.
Qed.



(** C10: [to_valid_spend] returns a spend bundle on every valid offer whose
    requested asset keys all have offered coins, and raises [KeyError] on
    every valid offer with a requested asset key without offered coins; and
    there is such an offer: offer K is accepted by the constructor and
    valid, its requested payments under the CAT sum to zero, no coin is
    offered under the CAT, and [to_valid_spend] raises [KeyError], not
    [Incomplete]. *)
Theorem to_valid_spend_completes :
  (∀ (Program G2Element : Type) (X : Externals Program G2Element)
     (self : Offer Program G2Element) (arbitrage_ph : bytes32)
     (offered : dict AssetKey (list Coin)),
     is_valid self = Ok true →
     get_offered_coins self = Ok offered →
     ((∀ k, k ∈ dict_keys (requested_payments self) → k ∈ dict_keys offered) →
      ∃ sb, to_valid_spend self arbitrage_ph = Ok sb) ∧
     ((∃ k, k ∈ dict_keys (requested_payments self) ∧ (k ∉ dict_keys offered)) →
      ∃ k, k ∈ dict_keys (requested_payments self) ∧ (k ∉ dict_keys offered) ∧
           to_valid_spend self arbitrage_ph = Raise (KeyError k))) ∧
  (__post_init__ ex_offer_K = Ok () ∧
   is_valid ex_offer_K = Ok true ∧
   sum_amounts (λ np, p_amount (np_payment np))
               (entries (Some ex_tail) (requested_payments ex_offer_K)) = 0 ∧
   (∃ offered, get_offered_coins ex_offer_K = Ok offered ∧
               dict_get (Some ex_tail) offered = None) ∧
   to_valid_spend ex_offer_K 44%N = Raise (KeyError (Some ex_tail))).
Proof.
  split.
  - intros Program G2Element X self arbitrage_ph offered Hvalid Hoff.
    destruct (is_valid_Ok_views _ _ Hvalid)
      as (offered' & oa & ra & arb & Hoff' & _ & _ & Harb & Hkeys).
    assert (offered' = offered) as -> by congruence.
    rewrite (to_valid_spend_unfold _ _ Hvalid). split.
    + intros Hall.
      destruct (completion_loop_Ok self arbitrage_ph offered arb
                  (requested_payments self) [] Hoff Harb) as [spends ->]; [|by eexists].
      intros k Hk. split; [by apply Hall|by apply Hkeys].
    + intros Hmissing.
      destruct (completion_loop_KeyError self arbitrage_ph offered arb
                  (requested_payments self) [] Hoff Harb Hkeys Hmissing)
        as (k & Hk & Hnk & ->).
      by exists k.
  - split_and!; try by vm_compute.
    eexists. split; by vm_compute.
Qed.

(** C10: the witness of [to_valid_spend_completes], offer C. *)
Lemma to_valid_spend_completes_witness : ∃ sb, to_valid_spend ex_offer_C 44%N = Ok sb.
Proof.
  apply (proj1 (proj1 to_valid_spend_completes RProgram Z ref_externals ex_offer_C 44%N
                  [(None, [ex_coin_C])] ltac:(by vm_compute) ltac:(by vm_compute))).
  intros k Hk. simpl in Hk. elem_cases Hk. subst k. left.
Defined.

(** C9: the witness of [notarize_payments_in_place], the example heap. *)
Lemma notarize_payments_in_place_witness :
  let h' := (notarize_payments ex_heap 0%nat [ex_coin1; ex_coin2]).1 in
  (notarize_payments ex_heap 0%nat [ex_coin1; ex_coin2]).2 = 0%nat ∧
  dict_keys (heap_dict h' 0%nat) = dict_keys (heap_dict ex_heap 0%nat) ∧
  (∀ k l, dict_get k (heap_dict ex_heap 0%nat) = Some l →
     ∃ l', dict_get k (heap_dict h' 0%nat) = Some l' ∧
           l' ≠ l ∧
           heap_list h' l'
           = map (λ p, Notarized (mkNotarizedPayment (payment_fields p)
                                    (notarization_nonce [ex_coin1; ex_coin2])))
                 (heap_list ex_heap l)) ∧
  (∀ l, (l < length (h_lists ex_heap))%nat → heap_list h' l = heap_list ex_heap l) ∧
  (∀ d', d' ≠ 0%nat → heap_dict h' d' = heap_dict ex_heap d').
Proof.
  apply (notarize_payments_in_place ex_heap 0%nat [ex_coin1; ex_coin2]).
  - solve_NoDup.
  - simpl. lia.
  - intros k l Hin. elem_compute Hin; injection Hin as -> ->; simpl; lia.
Defined.

(** C7: the witness of [notarize_payments_nonce], the two coins of the
    example in both orders. *)
Lemma notarize_payments_nonce_witness :
  notarization_nonce [ex_coin1; ex_coin2] = notarization_nonce [ex_coin2; ex_coin1] ∧
  (∃ sorted_coins,
     sorted_coins ≡ₚ [ex_coin1; ex_coin2] ∧
     StronglySorted (λ a b, (Coin_name a ≤ Coin_name b)%N) sorted_coins ∧
     notarization_nonce [ex_coin1; ex_coin2]
     = get_tree_hash (Program_to (VList (map Coin_as_list sorted_coins)))) ∧
  (∀ coins, coins = [ex_coin1; ex_coin2] ∨ coins = [ex_coin2; ex_coin1] →
     ∀ k l p,
       dict_get k (heap_dict (notarize_payments ex_heap 0%nat coins).1 0%nat) = Some l →
       p ∈ heap_list (notarize_payments ex_heap 0%nat coins).1 l →
       ∃ np, p = Notarized np ∧ nonce np = notarization_nonce [ex_coin1; ex_coin2]).
Proof.
  apply (notarize_payments_nonce ex_heap 0%nat [ex_coin1; ex_coin2] [ex_coin2; ex_coin1]).
  - apply perm_swap.
  - intros a b Ha Hb Hname. elem_cases Ha; elem_cases Hb; subst a b; try done;
      by vm_compute in Hname.
  - solve_NoDup.
  - simpl. lia.
  - intros k l Hin. elem_compute Hin; injection Hin as -> ->; simpl; lia.
Defined.

(** C7, as stated, fails on the lists [[ex_coin1]] and
    [[ex_coin1; ex_coin1]]: they hold the same set of coins, and their
    nonces differ, since sorting keeps a coin as often as it is listed. *)
Lemma notarization_nonce_repeated_coin :
  (∀ c, c ∈ [ex_coin1] ↔ c ∈ [ex_coin1; ex_coin1]) ∧
  notarization_nonce [ex_coin1] ≠ notarization_nonce [ex_coin1; ex_coin1].
Proof.
  split.
  - intros c. rewrite !elem_of_cons. tauto.
  - intros Heq. by vm_compute in Heq.
Qed.

(** ** The scenarios of the specification, on the reference instance *)

(** Offer A offers 1000 XCH and requests 500 of the CAT: its arbitrage is
    1000 XCH and -500 of the CAT, it is not valid, and its bytes decode back
    to it. *)
Example scenario_native_for_token :
  arbitrage ex_offer_A = Ok [(Some ex_tail, -500); (None, 1000)] ∧
  is_valid ex_offer_A = Ok false ∧
  from_bytes (__bytes__ ex_offer_A) = Ok ex_offer_A.
Proof. split_and!; by vm_compute. Qed.

(** The aggregate of A and its mirror B is valid. *)
Example scenario_balanced_aggregation :
  aggregate ex_store_AB [ex_obj_A; ex_obj_B] = (ex_store_AB, Ok ex_obj_AB) ∧
  is_valid (Offer_value ex_store_AB ex_obj_AB) = Ok true.
Proof. split; by vm_compute. Qed.

(** Aggregating A with itself is rejected. *)
Example scenario_overlap_rejection :
  aggregate ex_store_AB [ex_obj_A; ex_obj_A] = (ex_store_AB, Raise OverlappingInputs).
Proof. by vm_compute. Qed.

(** An offer with two identical payments under one asset is rejected. *)
Example scenario_duplicate_rejection :
  Offer_new ex_duplicates_C ex_bundle_C = Raise DuplicatePayment.
Proof. by vm_compute. Qed.

(** An offer whose bundle pays nothing to a settlement puzzle is rejected. *)
Example scenario_empty_rejection :
  Offer_new [(None, [ex_payment 33%N 700 9%N])] ex_bundle_empty = Raise EmptyOffer.
Proof. by vm_compute. Qed.

(** Offer C offers 1000 XCH and requests 700: the solution of the completion
    spend of its offered coin holds two conditions, the requested 700 and the
    surplus of 300 for the payout puzzle hash. *)
Example scenario_surplus_payout :
  to_valid_spend ex_offer_C 44%N = Ok ex_completion_C ∧
  (solution <$> coin_spends ex_completion_C !! 0%nat)
  = Some (RCons (ex_condition 9%N 33%N 700) (RCons (ex_condition ZERO_32 44%N 300) RNil)).
Proof. split; by vm_compute. Qed.

(** * Further properties of the module *)

(** ** The offered coins and the amount views *)

Section offered_views.
Context {Program G2Element : Type} `{!Externals Program G2Element}.
Implicit Types (self : Offer Program G2Element) (b : SpendBundle Program G2Element).

Lemma asset_of_settlement b a k :
  asset_of b a = Some k →
  puzzle_hash a = get_tree_hash (settlement_puzzle k) ∧
  ∃ cs, parent_spend_of b (parent_coin_info a) = Ok cs.
Proof.
  unfold asset_of. intros Ha.
  destruct (parent_spend_of b (parent_coin_info a)) as [cs|]; [|done].
  split; [|by eexists].
  destruct (offer_target (puzzle_reveal cs)) as [[tail_hash offer_ph]|] eqn:Ht; [|done].
  destruct (decide _) as [->|]; [|done]. injection Ha as <-.
  unfold offer_target in Ht. destruct (match_cat_puzzle (puzzle_reveal cs)) as [args|].
  - apply bind_Ok in Ht as ([[m t] i] & _ & (h & _ & [= <- <-])%bind_Ok). done.
  - by injection Ht as <- <-.
Qed.

(** X1: [get_offered_coins] returns exactly for the bundles in which every
    addition has its parent among the coin spends and every CAT parent puzzle
    has three curried arguments with a [bytes32] tail hash.  Otherwise it
    raises the [IndexError] of the empty filter of line 97, and then some
    addition has no parent spend, or the [ValueError] of the unpacking of
    line 100 or of [bytes32] at line 101, and then some CAT parent puzzle
    cannot be read; it raises nothing else. *)
Theorem get_offered_coins_defined self :
  ((∃ offered, get_offered_coins self = Ok offered) ↔
   well_formed_bundle (bundle self) ∧ readable_parents (bundle self)) ∧
  (∀ e, get_offered_coins self = Raise e →
        (e = IndexError ∧ ¬ well_formed_bundle (bundle self)) ∨
        ((e = UnpackError ∨ e = BadBytes32) ∧ ¬ readable_parents (bundle self))).
Proof.
  split; [split|].
  - intros [offered Hoff]. by eapply get_offered_coins_well_formed.
  - intros [Hwf Hread]. by apply get_offered_coins_Ok.
  - apply get_offered_coins_Raise.
Qed.

(** X2: every coin that [get_offered_coins] files under an asset key is an
    addition of the bundle that pays to the settlement puzzle of that key
    (for XCH the hash [Offer.ph()]), and no key holds an empty list. *)
Theorem offered_coins_pay_to_settlement self offered k coins :
  get_offered_coins self = Ok offered →
  dict_get k offered = Some coins →
  coins ≠ [] ∧
  ∀ c, c ∈ coins →
    c ∈ additions (bundle self) ∧
    puzzle_hash c = get_tree_hash (settlement_puzzle k) ∧
    (k = None → puzzle_hash c = ph).
Proof.
  intros Hoff Hk. split.
  { destruct (offered_coins_nonempty _ _ _ _ Hoff Hk) as (c & rest & ->). done. }
  intros c Hc.
  pose proof (offered_coins_asset _ _ _ _ _ Hoff Hk Hc) as Hasset.
  destruct (asset_of_settlement _ _ _ Hasset) as [Hph _].
  destruct (get_offered_coins_spec _ _ Hoff) as (_ & _ & Hentries & _).
  split_and!.
  - assert (c ∈ entries k offered) as Hin by (unfold entries; by rewrite Hk).
    rewrite Hentries in Hin. by apply list_elem_of_filter in Hin as [_ ?].
  - done.
  - intros ->. done.
Qed.

(** X3: [get_offered_coins] groups the additions without reordering them:
    its keys are pairwise different, and the list under a key is the
    sub-list, in the order of [additions()], of the additions whose parent
    puzzle has that key and which pay to the settlement puzzle hash of the
    key; an addition of another kind is in no list. *)
Theorem get_offered_coins_groups self offered :
  get_offered_coins self = Ok offered →
  dict_wf offered ∧
  (∀ k, entries k offered
        = filter (λ a, asset_of (bundle self) a = Some k) (additions (bundle self))) ∧
  (∀ k coins a, (k, coins) ∈ offered → a ∈ coins → asset_of (bundle self) a = Some k) ∧
  (∀ a, a ∈ additions (bundle self) → asset_of (bundle self) a = None →
        ∀ k coins, (k, coins) ∈ offered → a ∉ coins).
Proof.
  intros Hoff.
  destruct (get_offered_coins_spec _ _ Hoff) as (Hwf & _ & Hentries & _).
  split_and!; [done|done| |].
  - intros k coins a Hk Ha. apply dict_get_elem_wf in Hk; [|done].
    by eapply offered_coins_asset.
  - intros a _ Hnone k coins Hk Ha. apply dict_get_elem_wf in Hk; [|done].
    pose proof (offered_coins_asset _ _ _ _ _ Hoff Hk Ha). congruence.
Qed.
End offered_views.

Section amount_views_spec.
Context {Program G2Element : Type} `{!Externals Program G2Element}.
Implicit Types (self : Offer Program G2Element).

(** X4: [get_requested_amounts] returns exactly when the amounts of the
    payments of every key sum to a [uint64], and raises nothing but the
    [Overflow] of [uint64] otherwise; what it returns has the keys of the
    requested payments and, under each, the sum of the amounts. *)
Theorem get_requested_amounts_defined self :
  ((∃ amounts, get_requested_amounts self = Ok amounts) ↔
   ∀ k payments, (k, payments) ∈ requested_payments self →
     0 ≤ sum_amounts (λ np, p_amount (np_payment np)) payments < 2 ^ 64) ∧
  (∀ e, get_requested_amounts self = Raise e → e = Overflow) ∧
  (∀ amounts, get_requested_amounts self = Ok amounts →
     dict_wf (requested_payments self) →
     ∀ k, dict_get k amounts
          = sum_amounts (λ np, p_amount (np_payment np))
              <$> dict_get k (requested_payments self)).
Proof.
  split_and!.
  - apply amounts_of_defined.
  - intros e. apply amounts_fold_Raise.
  - intros amounts Ha Hwf. by apply amounts_of_get.
Qed.

(** X5: [get_offered_amounts] passes on what [get_offered_coins] raises,
    the [IndexError] of an addition without a parent spend or the
    [ValueError] of a CAT parent puzzle that cannot be read; it raises
    [Overflow] exactly when the offered coins are defined and the coins
    offered under some key sum to more than a [uint64]; it raises nothing
    else.  What it returns holds, under each key of the offered coins, the
    sum of their amounts. *)
Theorem get_offered_amounts_spec self :
  (∀ e, get_offered_coins self = Raise e → get_offered_amounts self = Raise e) ∧
  (get_offered_amounts self = Raise Overflow ↔
   ∃ offered k coins,
     get_offered_coins self = Ok offered ∧ (k, coins) ∈ offered ∧
     ¬ (0 ≤ sum_amounts amount coins < 2 ^ 64)) ∧
  (∀ e, get_offered_amounts self = Raise e →
        (e = Overflow ∧ ∃ offered, get_offered_coins self = Ok offered) ∨
        (get_offered_coins self = Raise e ∧
         (e = IndexError ∨ e = UnpackError ∨ e = BadBytes32))) ∧
  (∀ amounts, get_offered_amounts self = Ok amounts →
     ∃ offered, get_offered_coins self = Ok offered ∧
       ∀ k, dict_get k amounts = sum_amounts amount <$> dict_get k offered).
Proof.
  unfold get_offered_amounts.
  destruct (get_offered_coins self) as [offered|e0] eqn:Hoff; simpl.
  - destruct (get_offered_coins_spec _ _ Hoff) as (Hdwf & _).
    split_and!.
    + done.
    + split.
      * intros Hr. exists offered.
        destruct (decide (Forall (λ it : AssetKey * list Coin,
                                    0 ≤ sum_amounts amount it.2 < 2 ^ 64) offered))
          as [Hall|Hex].
        -- destruct (amounts_fold_Ok amount offered []) as [amounts Ha].
           { intros k l Hin. by apply (proj1 (Forall_forall _ _) Hall (k, l)). }
           unfold amounts_of in Hr. congruence.
        -- apply not_Forall_Exists in Hex; [|apply _].
           apply Exists_exists in Hex as ([k coins] & Hin & Hbad). by exists k, coins.
      * intros (offered' & k & coins & [= <-] & Hin & Hbad).
        destruct (amounts_of amount offered) as [amounts|e] eqn:Ha.
        -- exfalso. apply Hbad. by eapply amounts_fold_Ok_fits.
        -- f_equal. by eapply amounts_fold_Raise.
    + intros e He. left. split; [by eapply amounts_fold_Raise|by eexists].
    + intros amounts Ha. exists offered. split; [done|]. by apply amounts_of_get.
  - pose proof (get_offered_coins_Raise _ _ Hoff) as He0.
    split_and!.
    + by intros e [= <-].
    + split.
      * intros [= ->]. destruct He0 as [[? _]|[[?|?] _]]; done.
      * by intros (? & ? & ? & ? & _).
    + intros e [= <-]. right. split; [done|]. tauto.
    + done.
Qed.

(** X6: for an offer with pairwise different requested keys, [is_valid],
    when it returns, tells whether under every asset key the requested
    payments sum to at most what the offered coins sum to; in particular an
    offer that requests nothing is valid. *)
Theorem is_valid_compares_sums self offered v :
  dict_wf (requested_payments self) →
  get_offered_coins self = Ok offered →
  is_valid self = Ok v →
  (v = true ↔
   ∀ k, sum_amounts (λ np, p_amount (np_payment np)) (entries k (requested_payments self))
        ≤ sum_amounts amount (entries k offered)) ∧
  (requested_payments self = [] → v = true).
Proof.
  intros Hwf Hoff Hv.
  destruct (is_valid_Ok_views _ _ Hv) as (offered' & oa & ra & arb & Hoff' & Hoa & Hra & _).
  assert (offered' = offered) as -> by congruence.
  pose proof (is_valid_true_iff _ _ _ _ Hoff Hwf Hoa Hra) as Hiff.
  assert (v = true ↔
          ∀ k, sum_amounts (λ np, p_amount (np_payment np))
                 (entries k (requested_payments self))
               ≤ sum_amounts amount (entries k offered)) as Hv'.
  { rewrite <- Hiff. split; [by intros ->|congruence]. }
  split; [done|].
  intros Hnil. apply Hv'. intros k. rewrite Hnil. unfold entries at 1. simpl.
  destruct (get_offered_coins_spec _ _ Hoff) as (Hdwf & _).
  unfold entries. destruct (dict_get k offered) as [coins|] eqn:Hk; simpl; [|done].
  apply dict_get_Some_elem in Hk.
  by destruct (amounts_fold_Ok_fits amount _ _ _ Hoa _ _ Hk).
Qed.
End amount_views_spec.

(** ** Completion: the exceptions and the shape of the result *)

Lemma mapM_Ok_Forall2 {A B : Type} (g : A → result B) (l : list A) (ys : list B) :
  mapM g l = Ok ys → Forall2 (λ x y, g x = Ok y) l ys.
Proof.
  revert ys. induction l as [|x l IH]; intros ys; simpl.
  - intros [= <-]. constructor.
  - intros (y & Hy & (ys' & Hys' & [= <-])%bind_Ok)%bind_Ok. constructor; [done|by apply IH].
Qed.

Lemma Forall2_map_r {A B : Type} (f : B → A) (l : list A) (ys : list B) :
  Forall2 (λ x y, f y = x) l ys → map f ys = l.
Proof. induction 1 as [|x y l ys Hxy _ IH]; simpl; congruence. Qed.

Lemma Forall2_elem_r {A B : Type} (R : A → B → Prop) (l : list A) (ys : list B) y :
  Forall2 R l ys → y ∈ ys → ∃ x, x ∈ l ∧ R x y.
Proof.
  induction 1 as [|x y' l ys Hxy _ IH]; [by intros ?%elem_of_nil|].
  intros [->|Hin]%elem_of_cons.
  - exists x. split; [left|done].
  - destruct (IH Hin) as (x' & ? & ?). exists x'. split; [by right|done].
Qed.

Lemma Forall2_elem_l {A B : Type} (R : A → B → Prop) (l : list A) (ys : list B) x :
  Forall2 R l ys → x ∈ l → ∃ y, y ∈ ys ∧ R x y.
Proof.
  induction 1 as [|x' y l ys Hxy _ IH]; [by intros ?%elem_of_nil|].
  intros [->|Hin]%elem_of_cons.
  - exists y. split; [left|done].
  - destruct (IH Hin) as (y' & ? & ?). exists y'. split; [by right|done].
Qed.

Section completion_shape.
Context {Program G2Element : Type} `{!Externals Program G2Element}.
Implicit Types (self : Offer Program G2Element) (b : SpendBundle Program G2Element).


(** The fields of a completion spend. *)
Lemma completion_spend_fields self k all_payments offered_coins c cs :
  completion_spend self k all_payments offered_coins c = Ok cs →
  coin cs = c ∧ puzzle_reveal cs = settlement_puzzle k ∧
  match k with
  | None => solution cs = inner_solution_of all_payments offered_coins c
  | Some tail =>
      ∃ lineage_proof,
        solution cs
        = cat_spend_solution
            (mkSpendableCAT c tail OFFER_MOD
               (inner_solution_of all_payments offered_coins c) lineage_proof)
  end.
Proof.
  unfold completion_spend. destruct k as [tail|].
  - intros (ps & _ & Hcs)%bind_Ok.
    destruct (match_cat_puzzle (puzzle_reveal ps)) as [args|]; [|done].
    apply bind_Ok in Hcs as ([[m t] i] & _ & Hcs).
    injection Hcs as <-. simpl. split_and!; [done|done|by eexists].
  - by intros [= <-].
Qed.

Lemma completion_loop_shape self arbitrage_ph offered arb items spends r :
  get_offered_coins self = Ok offered → arbitrage self = Ok arb →
  foldM (completion_step self arbitrage_ph) spends items = Ok r →
  ∃ css,
    r = spends ++ css ∧
    map coin css = concat (map (λ item, entries item.1 offered) items) ∧
    ∀ cs, cs ∈ css →
      puzzle_hash (coin cs) = get_tree_hash (puzzle_reveal cs) ∧
      ∃ k, k ∈ dict_keys items ∧ puzzle_reveal cs = settlement_puzzle k.
Proof.
  intros Hoff Harb. revert spends r.
  induction items as [|[k payments] items IH]; intros spends r; cbn [foldM].
  - intros [= <-]. exists []. split_and!; [by rewrite app_nil_r|done|].
    by intros cs ?%elem_of_nil.
  - intros (acc & Hstep & Hrest)%bind_Ok.
    rewrite (completion_step_unfold _ _ _ _ _ _ _ Hoff Harb) in Hstep.
    destruct (dict_get k offered) as [coins|] eqn:Hcoins; [|done].
    destruct (dict_get k arb) as [amt|]; [|done].
    apply bind_Ok in Hstep as (css & Hcss & [= <-]).
    destruct (IH _ _ Hrest) as (css' & -> & Hcoins' & Hall).
    apply mapM_Ok_Forall2 in Hcss.
    exists (css ++ css'). split_and!.
    + by rewrite app_assoc.
    + rewrite map_app, Hcoins'. simpl. f_equal.
      unfold entries. rewrite Hcoins. simpl.
      apply Forall2_map_r. eapply Forall2_impl; [done|]. simpl.
      by intros c cs [? _]%completion_spend_fields.
    + intros cs [Hin|Hin]%elem_of_app.
      * destruct (Forall2_elem_r _ _ _ _ Hcss Hin) as (c & Hc & Hcs). simpl in Hcs.
        apply completion_spend_fields in Hcs as (Hcoin & Hreveal & _).
        rewrite Hcoin, Hreveal. split.
        -- pose proof (offered_coins_asset _ _ _ _ _ Hoff Hcoins Hc) as Hasset.
           by apply asset_of_settlement in Hasset as [? _].
        -- exists k. split; [left|done].
      * destruct (Hall cs Hin) as (? & k' & ? & ?). split; [done|].
        exists k'. split; [by right|done].
Qed.


(** X8: the spend bundle that [to_valid_spend] returns ends with the coin
    spends of the offer, unchanged, under the offer's signature aggregated
    with [G2Element()], and starts with one completion spend for every coin
    offered under a requested key, in the order of the requested keys and of
    the offered coins; each of them reveals the settlement puzzle of a
    requested key, and that puzzle hashes to the puzzle hash of the coin. *)
Theorem to_valid_spend_shape self arbitrage_ph sb :
  to_valid_spend self arbitrage_ph = Ok sb →
  ∃ offered completion_spends,
    get_offered_coins self = Ok offered ∧
    coin_spends sb = completion_spends ++ coin_spends (bundle self) ∧
    aggregated_signature sb
    = AugSchemeMPL_aggregate [G2Element_default; aggregated_signature (bundle self)] ∧
    map coin completion_spends
    = concat (map (λ item, entries item.1 offered) (requested_payments self)) ∧
    ∀ cs, cs ∈ completion_spends →
      puzzle_hash (coin cs) = get_tree_hash (puzzle_reveal cs) ∧
      ∃ k, k ∈ dict_keys (requested_payments self) ∧ puzzle_reveal cs = settlement_puzzle k.
Proof.
  intros Hsb.
  assert (is_valid self = Ok true) as Hv.
  { unfold to_valid_spend in Hsb. destruct (is_valid self) as [[|]|]; done. }
  rewrite (to_valid_spend_unfold _ _ Hv) in Hsb.
  apply bind_Ok in Hsb as (css & Hloop & [= <-]).
  destruct (is_valid_Ok_views _ _ Hv) as (offered & _ & _ & arb & Hoff & _ & _ & Harb & _).
  destruct (completion_loop_shape _ _ _ _ _ _ _ Hoff Harb Hloop) as (css' & -> & Hcoins & Hall).
  exists offered, css'. split_and!; try done.
  simpl. by rewrite app_nil_r.
Qed.

(** X9: only the first offered coin of a key declares the payments.  In
    the result of [to_valid_spend], an offered coin of a requested key that
    is not the first coin of the key is spent with the empty list as its
    inner solution. *)
Theorem to_valid_spend_single_declarer self arbitrage_ph sb offered k payments coins c :
  to_valid_spend self arbitrage_ph = Ok sb →
  get_offered_coins self = Ok offered →
  (k, payments) ∈ requested_payments self →
  dict_get k offered = Some coins →
  c ∈ coins →
  head coins ≠ Some c →
  ∃ cs,
    cs ∈ coin_spends sb ∧ coin cs = c ∧ puzzle_reveal cs = settlement_puzzle k ∧
    match k with
    | None => solution cs = Program_to (VList [])
    | Some tail =>
        ∃ lineage_proof,
          solution cs
          = cat_spend_solution
              (mkSpendableCAT c tail OFFER_MOD (Program_to (VList [])) lineage_proof)
    end.
Proof.
  intros Hsb Hoff Hitem Hcoins Hc Hnotfirst.
  assert (is_valid self = Ok true) as Hv.
  { unfold to_valid_spend in Hsb. destruct (is_valid self) as [[|]|]; done. }
  rewrite (to_valid_spend_unfold _ _ Hv) in Hsb.
  apply bind_Ok in Hsb as (css & Hloop & [= <-]).
  destruct (is_valid_Ok_views _ _ Hv) as (offered' & _ & _ & arb & Hoff' & _ & _ & Harb & Hkeys).
  assert (offered' = offered) as -> by congruence.
  assert (k ∈ dict_keys arb) as [amt Hamt]%dict_get_is_Some.
  { apply Hkeys. by apply (list_elem_of_fmap_2 fst) in Hitem. }
  destruct (completion_loop_elem _ _ _ _ _ _ _ _ _ _ _ Hoff Harb Hloop Hitem Hcoins Hamt c Hc)
    as (cs & Hcs & Hin).
  apply completion_spend_fields in Hcs as (Hcoin & Hreveal & Hsol).
  exists cs. split_and!; [|done|done|].
  - simpl. rewrite app_nil_r. apply elem_of_app. by left.
  - unfold inner_solution_of in Hsol. by rewrite decide_False in Hsol.
Qed.

(** X10: without a surplus nothing is added to the payments.  In the result
    of [to_valid_spend], when the arbitrage of a requested key is not
    positive, the first offered coin of the key declares exactly the
    requested payments of the key, in their order. *)
Theorem to_valid_spend_exact_payments self arbitrage_ph sb offered arb k payments coins amt :
  to_valid_spend self arbitrage_ph = Ok sb →
  get_offered_coins self = Ok offered →
  arbitrage self = Ok arb →
  (k, payments) ∈ requested_payments self →
  dict_get k offered = Some coins →
  dict_get k arb = Some amt →
  amt ≤ 0 →
  let inner_solution :=
    Program_to (VList (map (λ np, VProgram (as_condition np)) payments)) in
  ∃ c rest cs,
    coins = c :: rest ∧ cs ∈ coin_spends sb ∧ coin cs = c ∧
    match k with
    | None => solution cs = inner_solution
    | Some tail =>
        ∃ lineage_proof,
          solution cs
          = cat_spend_solution (mkSpendableCAT c tail OFFER_MOD inner_solution lineage_proof)
    end.
Proof.
  intros Hsb Hoff Harb Hitem Hcoins Hamt Hle inner_solution.
  assert (is_valid self = Ok true) as Hv.
  { unfold to_valid_spend in Hsb. destruct (is_valid self) as [[|]|]; done. }
  rewrite (to_valid_spend_unfold _ _ Hv) in Hsb.
  apply bind_Ok in Hsb as (css & Hloop & [= <-]).
  destruct (offered_coins_nonempty _ _ _ _ Hoff Hcoins) as (c & rest & ->).
  destruct (completion_loop_elem _ _ _ _ _ _ _ _ _ _ _ Hoff Harb Hloop Hitem Hcoins Hamt c)
    as (cs & Hcs & Hin); [left|].
  apply completion_spend_fields in Hcs as (Hcoin & _ & Hsol).
  exists c, rest, cs. split_and!; [done| |done|].
  - simpl. rewrite app_nil_r. apply elem_of_app. by left.
  - unfold inner_solution_of, all_payments_of in Hsol. simpl in Hsol.
    rewrite decide_True in Hsol by done.
    rewrite (decide_False (P := 0 < amt)) in Hsol by lia. done.
Qed.
End completion_shape.

(** ** Decoding *)

Section decoding.
Context {Program G2Element : Type} `{!Externals Program G2Element}.
Implicit Types (o : Offer Program G2Element) (cs : CoinSpend Program).

Lemma from_bytes_loop (spends leftover leftover' : list (CoinSpend Program))
    (rp rp' : dict AssetKey (list NotarizedPayment)) :
  foldM from_bytes_step (rp, leftover) spends = Ok (rp', leftover') →
  leftover' = leftover ++ filter (λ cs, parent_coin_info (coin cs) ≠ ZERO_32) spends ∧
  (dict_wf rp → dict_wf rp') ∧
  (∀ k, k ∈ dict_keys rp' ↔ k ∈ dict_keys rp ∨ ∃ cs, cs ∈ spends ∧ dummy_for k cs) ∧
  (∀ k, match last (filter (dummy_for k) spends) with
        | Some cs =>
            ∃ payments, mapM from_condition (as_iter (solution cs)) = Ok payments ∧
                        dict_get k rp' = Some payments
        | None => dict_get k rp' = dict_get k rp
        end).
Proof.
  revert rp leftover. induction spends as [|cs0 spends IH]; intros rp leftover; cbn [foldM].
  - intros [= <- <-]. split_and!; [by rewrite app_nil_r|done| |done].
    intros k. split; [by left|]. intros [?|(cs & ?%elem_of_nil & _)]; done.
  - intros ([rp0 leftover0] & Hstep & Hrest)%bind_Ok.
    destruct (IH _ _ Hrest) as (-> & Hwf & Hkeys & Hlast). clear IH Hrest.
    unfold from_bytes_step in Hstep.
    destruct (decide (parent_coin_info (coin cs0) = ZERO_32)) as [Hzero|Hnz].
    + apply bind_Ok in Hstep as (k0 & Hk0 & (payments & Hpayments & [= <- <-])%bind_Ok).
      change (dummy_key cs0 = Ok k0) in Hk0.
      split_and!.
      * rewrite filter_cons_False; [done|]. by intros ?.
      * intros Hrp. by apply Hwf, dict_set_wf.
      * intros k. rewrite Hkeys, elem_of_dict_keys_set. split.
        -- intros [[->|?]|(cs & Hcs & Hd)].
           ++ right. exists cs0. split; [left|done].
           ++ by left.
           ++ right. exists cs. split; [by right|done].
        -- intros [?|(cs & [->|Hcs]%elem_of_cons & Hd)].
           ++ left. by right.
           ++ left. left. destruct Hd as [_ Hd]. congruence.
           ++ right. by exists cs.
      * intros k. specialize (Hlast k).
        destruct (decide (dummy_for k cs0)) as [Hd|Hnd].
        -- rewrite filter_cons_True by done.
           destruct (filter (dummy_for k) spends) as [|cs1 rest] eqn:Hf.
           ++ simpl in *. exists payments. split; [done|].
              rewrite Hlast, dict_get_set. destruct Hd as [_ Hd].
              rewrite decide_True; [done|]. congruence.
           ++ rewrite last_cons_cons.
              destruct (last (cs1 :: rest)) eqn:Hl; [done|]. by apply last_None in Hl.
        -- rewrite filter_cons_False by done.
           destruct (last (filter (dummy_for k) spends)); [done|].
           rewrite Hlast, dict_get_set. rewrite decide_False; [done|].
           intros ->. by apply Hnd.
    + injection Hstep as <- <-. split_and!.
      * rewrite filter_cons_True by done. by rewrite <-app_assoc.
      * done.
      * intros k. rewrite Hkeys. split.
        -- intros [?|(cs & Hcs & Hd)]; [by left|]. right. exists cs. split; [by right|done].
        -- intros [?|(cs & [->|Hcs]%elem_of_cons & Hd)]; [by left| |].
           ++ by destruct Hd.
           ++ right. by exists cs.
      * intros k. rewrite filter_cons_False; [apply Hlast|]. by intros [? _].
Qed.

(** X11: what [from_bytes] returns passed the checks of the constructor;
    its bundle keeps the signature and, in their order, exactly the decoded
    coin spends whose coin does not have the parent [ZERO_32], so no coin of
    the bundle has that parent; its requested payments have pairwise
    different keys, the keys read off the decoded spends whose coin has the
    parent [ZERO_32]. *)
Theorem from_bytes_result (as_bytes : list byte) o :
  from_bytes as_bytes = Ok o →
  ∃ decoded,
    SpendBundle_from_bytes as_bytes = Ok decoded ∧
    coin_spends (bundle o)
    = filter (λ cs, parent_coin_info (coin cs) ≠ ZERO_32) (coin_spends decoded) ∧
    aggregated_signature (bundle o) = aggregated_signature decoded ∧
    (∀ cs, cs ∈ coin_spends (bundle o) → parent_coin_info (coin cs) ≠ ZERO_32) ∧
    dict_wf (requested_payments o) ∧
    (∀ k, k ∈ dict_keys (requested_payments o) ↔
          ∃ cs, cs ∈ coin_spends decoded ∧ dummy_for k cs) ∧
    __post_init__ o = Ok ().
Proof.
  unfold from_bytes. intros (decoded & Hdec & ([rp leftover] & Hloop & Hnew)%bind_Ok)%bind_Ok.
  exists decoded. split; [done|].
  destruct (from_bytes_loop _ _ _ _ _ Hloop) as (Hleft & Hwf & Hkeys & _).
  unfold Offer_new in Hnew. apply bind_Ok in Hnew as ([] & Hinit & [= <-]). simpl in *.
  subst leftover. split_and!; try done.
  - intros cs Hcs. by apply list_elem_of_filter in Hcs as [? _].
  - apply Hwf. constructor.
  - intros k. rewrite Hkeys. split; [|by right].
    intros [Hk|?]; [|done]. by apply elem_of_nil in Hk.
Qed.

(** X12: when several decoded dummy spends carry the same asset key, the
    last one wins: the payments [from_bytes] returns under a key are the
    conditions of the solution of the last dummy spend of that key. *)
Theorem from_bytes_last_dummy (as_bytes : list byte) o decoded k cs :
  from_bytes as_bytes = Ok o →
  SpendBundle_from_bytes as_bytes = Ok decoded →
  last (filter (dummy_for k) (coin_spends decoded)) = Some cs →
  ∃ payments,
    mapM from_condition (as_iter (solution cs)) = Ok payments ∧
    dict_get k (requested_payments o) = Some payments.
Proof.
  unfold from_bytes. intros (decoded' & Hdec & ([rp leftover] & Hloop & Hnew)%bind_Ok)%bind_Ok.
  intros Hdec' Hlast. assert (decoded' = decoded) as -> by congruence.
  destruct (from_bytes_loop _ _ _ _ _ Hloop) as (_ & _ & _ & Hget).
  specialize (Hget k). rewrite Hlast in Hget.
  unfold Offer_new in Hnew. apply bind_Ok in Hnew as ([] & _ & [= <-]). done.
Qed.
End decoding.

Section conditions.
Context {Program G2Element : Type} `{!Externals Program G2Element}.
Context `{!RoundTripLaws}.

(** X13: a notarized payment with a [uint64] amount is read back from its
    condition, nonce included, so two such payments with the same condition
    are the same payment. *)
Theorem notarized_condition_round_trip (np np' : NotarizedPayment) :
  0 ≤ p_amount (np_payment np) < 2 ^ 64 →
  from_condition (as_condition np) = Ok np ∧
  (0 ≤ p_amount (np_payment np') < 2 ^ 64 →
   as_condition np = as_condition np' → np = np').
Proof.
  intros Hnp. split; [by apply from_condition_as_condition|].
  intros Hnp' Heq.
  pose proof (from_condition_as_condition np Hnp) as H1.
  pose proof (from_condition_as_condition np' Hnp') as H2.
  rewrite Heq in H1. congruence.
Qed.
End conditions.

(** ** Announcements *)

Section announcement_facts.
Context {Program G2Element : Type} `{!Externals Program G2Element}.
Implicit Types (self : Offer Program G2Element).
Implicit Types (d : dict AssetKey (list NotarizedPayment)).

(** The announcements of one item of the dictionary. *)
#[local] Abbreviation item_announcements :=
  (λ item : AssetKey * list NotarizedPayment,
     map (λ p, mkAnnouncement (get_tree_hash (settlement_puzzle item.1)) (name p)) item.2).

Lemma calculate_announcements_concat d :
  calculate_announcements d = concat (map item_announcements d).
Proof.
  unfold calculate_announcements.
  assert (∀ acc, foldl (λ announcements '(tail, payments),
                          announcements
                          ++ map (mkAnnouncement
                                    match tail with
                                    | Some tail =>
                                        get_tree_hash (construct_cat_puzzle CAT_MOD tail OFFER_MOD)
                                    | None => get_tree_hash OFFER_MOD
                                    end)
                                 (map (λ p, get_tree_hash (as_condition p)) payments))
                       acc d
                 = acc ++ concat (map item_announcements d)) as Hgen.
  { induction d as [|[k ps] d IH]; intros acc; simpl.
    - by rewrite app_nil_r.
    - rewrite IH, <-app_assoc. do 2 f_equal. rewrite map_map.
      by destruct k. }
  apply (Hgen []).
Qed.

(** X14: [calculate_announcements] yields one announcement per payment, in
    the order of the keys of the dictionary and, under a key, of its
    payments; the origin is the hash of the settlement puzzle of the key and
    the message the name of the payment. *)
Theorem calculate_announcements_spec d :
  calculate_announcements d
  = concat (map (λ item : AssetKey * list NotarizedPayment,
                   map (λ p, mkAnnouncement (get_tree_hash (settlement_puzzle item.1)) (name p))
                       item.2) d) ∧
  length (calculate_announcements d) = length (concat (dict_values d)) ∧
  (∀ d', calculate_announcements (d ++ d')
         = calculate_announcements d ++ calculate_announcements d').
Proof.
  split_and!.
  - apply calculate_announcements_concat.
  - rewrite calculate_announcements_concat. unfold dict_values.
    induction d as [|[k ps] d IH]; simpl; [done|].
    by rewrite !length_app, length_map, IH.
  - intros d'. by rewrite !calculate_announcements_concat, map_app, concat_app.
Qed.

Lemma elem_of_calculate_announcements d a :
  a ∈ calculate_announcements d ↔
  ∃ k payments p, (k, payments) ∈ d ∧ p ∈ payments ∧
    a = mkAnnouncement (get_tree_hash (settlement_puzzle k)) (name p).
Proof.
  rewrite calculate_announcements_concat, elem_of_concat. split.
  - intros (l & Ha & Hl). apply list_elem_of_fmap in Hl as ([k ps] & -> & Hin).
    apply list_elem_of_fmap in Ha as (p & -> & Hp). by exists k, ps, p.
  - intros (k & ps & p & Hin & Hp & ->). exists (item_announcements (k, ps)). split.
    + apply list_elem_of_fmap. by exists p.
    + apply list_elem_of_fmap. by exists (k, ps).
Qed.

(** X15: the announcements of the requested payments of an offer are made
    from where the offer pays: the origin of the announcement of a payment
    requested under a key is the puzzle hash of every coin offered under
    that key, and of the dummy coin that [__bytes__] writes for the key. *)
Theorem announcement_origin self offered a :
  get_offered_coins self = Ok offered →
  a ∈ calculate_announcements (requested_payments self) →
  ∃ k payments p,
    (k, payments) ∈ requested_payments self ∧ p ∈ payments ∧
    message a = name p ∧
    origin_info a = puzzle_hash (coin (additional_coin_spend (k, payments))) ∧
    ∀ c, c ∈ entries k offered → puzzle_hash c = origin_info a.
Proof.
  intros Hoff (k & payments & p & Hin & Hp & ->)%elem_of_calculate_announcements.
  exists k, payments, p. split_and!; try done.
  intros c Hc. simpl. unfold entries in Hc.
  destruct (dict_get k offered) as [coins|] eqn:Hk; simpl in Hc; [|by apply elem_of_nil in Hc].
  pose proof (offered_coins_asset _ _ _ _ _ Hoff Hk Hc) as Hasset.
  by apply asset_of_settlement in Hasset as [? _].
Qed.

(** X16: an offer that the constructor accepts announces nothing twice:
    when its requested keys are pairwise different and no two of them have
    settlement puzzles of the same hash, the announcements of its requested
    payments are pairwise different. *)
Theorem announcements_NoDup self :
  __post_init__ self = Ok () →
  dict_wf (requested_payments self) →
  (∀ k k', k ∈ dict_keys (requested_payments self) →
           k' ∈ dict_keys (requested_payments self) →
           get_tree_hash (settlement_puzzle k) = get_tree_hash (settlement_puzzle k') →
           k = k') →
  NoDup (calculate_announcements (requested_payments self)).
Proof.
  intros Hinit Hwf Hinj.
  assert (∀ payments, payments ∈ dict_values (requested_payments self) →
                      NoDup (map name payments)) as Hnames.
  { unfold __post_init__ in Hinit. apply bind_Ok in Hinit as (offered & _ & Hloop).
    destruct offered as [|? ?]; [done|].
    destruct (duplicate_loop (dict_values (requested_payments self))) as [[_ Hok]|[Hr _]].
    - done.
    - simpl in Hr. rewrite Hr in Hloop. done. }
  rewrite calculate_announcements_concat.
  revert Hwf Hinj Hnames. generalize (requested_payments self). intros d.
  induction d as [|[k ps] d IH]; intros Hwf Hinj Hnames; simpl; [constructor|].
  unfold dict_wf in Hwf. simpl in Hwf. apply NoDup_cons in Hwf as [Hk Hwf].
  apply NoDup_app. split_and!.
  - rewrite <-(map_map name (mkAnnouncement (get_tree_hash (settlement_puzzle k)))).
    apply NoDup_fmap_2; [by intros x y [= ->]|]. apply Hnames. left.
  - intros a Ha (l & Hal & Hl)%elem_of_concat.
    apply list_elem_of_fmap in Ha as (p & -> & Hp).
    apply list_elem_of_fmap in Hl as ([k' ps'] & -> & Hin).
    apply list_elem_of_fmap in Hal as (p' & [= Horigin _] & Hp'). simpl in *.
    apply Hk. rewrite (Hinj k k'); [| left | right | done].
    + by apply (list_elem_of_fmap_2 fst) in Hin.
    + by apply (list_elem_of_fmap_2 fst) in Hin.
  - apply IH; [done| |].
    + intros k1 k2 Hk1 Hk2. apply Hinj; by right.
    + intros payments Hp. apply Hnames. by right.
Qed.
End announcement_facts.

(** ** Aggregation: the list objects, the offered coins, the arbitrage *)

Lemma dict_get_app {K V : Type} `{EqDecision K} (k : K) (d1 d2 : dict K V) :
  dict_get k (d1 ++ d2)
  = match dict_get k d1 with Some v => Some v | None => dict_get k d2 end.
Proof.
  induction d1 as [|[k' v'] d1 IH]; simpl; [done|]. by destruct (decide (k = k')).
Qed.

Section aggregate_objects.
Context {Program G2Element : Type} `{!Externals Program G2Element}.
Implicit Types (o : OfferObj Program G2Element) (offers : list (OfferObj Program G2Element)).

(** The dictionary that the inner loop of [aggregate] builds keeps, under
    each key, the first list object stored under the key. *)
Lemma aggregate_items_dict (items : list (AssetKey * loc)) (σ : store)
    (total : dict AssetKey loc) k :
  dict_get k (foldl aggregate_item (σ, total) items).2
  = match dict_get k total with Some l => Some l | None => dict_get k items end.
Proof.
  revert σ total. induction items as [|[k' l'] items IH]; intros σ total; simpl.
  - by destruct (dict_get k total).
  - destruct (dict_get k' total) as [t|] eqn:Ht; rewrite IH.
    + destruct (dict_get k total) eqn:Hk; [done|].
      rewrite decide_False; [done|]. intros ->. congruence.
    + rewrite dict_get_set. destruct (decide (k = k')) as [->|Hne].
      * by rewrite Ht.
      * done.
Qed.

(** The first list stored under a key, going through the offers in their
    order, is the list of the first offer that has the key. *)
Lemma all_items_first_holder offers i o k l :
  offers !! i = Some o →
  dict_get k (obj_requested_payments o) = Some l →
  (∀ j oj, (j < i)%nat → offers !! j = Some oj →
           dict_get k (obj_requested_payments oj) = None) →
  dict_get k (all_items offers) = Some l.
Proof.
  revert i. induction offers as [|o0 offers IH]; intros i Hi Hl Hfirst; [done|].
  unfold all_items. simpl. rewrite dict_get_app. destruct i as [|i]; simpl in Hi.
  - injection Hi as ->. by rewrite Hl.
  - rewrite (Hfirst 0%nat o0); [|lia|done].
    apply (IH i); [done|done|]. intros j oj Hj Hoj. apply (Hfirst (S j)); [lia|done].
Qed.

(** X17: what [aggregate] does to the list objects of its arguments, for
    offers that spend different coins and hold different list objects.
    Whatever it then returns or raises, for every asset key the first list
    object stored under the key, going through the offers in order, has been
    extended in place to the payments of all the offers for that key, and it
    is the list of the offer returned; every other list object is
    unchanged, and no object is created. *)
Theorem aggregate_list_objects σ offers :
  ¬ overlapping offers →
  unshared σ offers →
  length (aggregate σ offers).1 = length σ ∧
  (∀ k l, dict_get k (all_items offers) = Some l →
          deref (aggregate σ offers).1 l = payments_for σ k offers) ∧
  (∀ l, (∀ k, dict_get k (all_items offers) ≠ Some l) →
        deref (aggregate σ offers).1 l = deref σ l) ∧
  (∀ o' k, (aggregate σ offers).2 = Ok o' →
           dict_get k (obj_requested_payments o') = dict_get k (all_items offers)) ∧
  (∀ i o k l, offers !! i = Some o →
     dict_get k (obj_requested_payments o) = Some l →
     (∀ j oj, (j < i)%nat → offers !! j = Some oj →
              dict_get k (obj_requested_payments oj) = None) →
     dict_get k (all_items offers) = Some l).
Proof.
  intros Hno (Hwf & Hnd & Hvalid).
  assert (∃ σ' total' b',
            aggregate_loop offers σ [] (mkSpendBundle [] G2Element_default)
            = (σ', Ok (total', b'))) as (σ' & total' & b' & Hloop).
  { destruct (aggregate_loop offers σ [] _) as [σ' [[total' b']|e]] eqn:Hloop; [by eauto|].
    apply aggregate_loop_Raise in Hloop as [_ [(j & oj & c & _ & Hc & _)|Hov]]; [|done].
    simpl in Hc. by apply elem_of_nil in Hc. }
  pose proof Hloop as Hloop'.
  apply aggregate_loop_Ok in Hloop' as (_ & Hfold & _).
  destruct (aggregate_items_spec (all_items offers) σ [])
    as (σ2 & total2 & Hfold2 & Hwf2 & Hlen & _ & _ & Hheld & _ & Hframe);
    [done|done|apply NoDup_nil_2|].
  rewrite Hfold in Hfold2. injection Hfold2 as <- <-.
  assert (∀ k, dict_get k total' = dict_get k (all_items offers)) as Hdict.
  { intros k. pose proof (aggregate_items_dict (all_items offers) σ [] k) as Hd.
    by rewrite Hfold in Hd. }
  assert ((aggregate σ offers).1 = σ') as Hσ.
  { unfold aggregate. by rewrite Hloop. }
  rewrite Hσ. split_and!.
  - done.
  - intros k l Hl. specialize (Hheld k). unfold held in Hheld at 1 2.
    rewrite Hdict, Hl in Hheld. simpl in Hheld. rewrite Hheld.
    unfold payments_for, all_items. rewrite filter_concat, map_map. clear -Hwf.
    induction offers as [|o offers IH]; simpl; [done|].
    rewrite map_app, concat_app, IH.
    2:{ intros o' Ho'. apply Hwf. by right. }
    f_equal. rewrite filter_key_wf by (apply Hwf; left).
    destruct (dict_get k (obj_requested_payments o)); simpl; [|done].
    by rewrite app_nil_r.
  - intros l Hl. apply Hframe. intros Hin.
    apply list_elem_of_fmap in Hin as ([k l'] & -> & Hin). simpl in Hl.
    apply dict_get_elem_wf in Hin; [|done]. rewrite Hdict in Hin. by apply (Hl k).
  - intros o' k. unfold aggregate. rewrite Hloop. simpl.
    intros ([] & _ & [= <-])%bind_Ok. simpl. apply Hdict.
  - apply all_items_first_holder.
Qed.
End aggregate_objects.

Section aggregate_amounts.
Context {Program G2Element : Type} `{!Externals Program G2Element}.
Implicit Types (o : OfferObj Program G2Element) (offers : list (OfferObj Program G2Element)).
Implicit Types (self : Offer Program G2Element).

Lemma arbitrage_offered self arb :
  arbitrage self = Ok arb → ∃ offered, get_offered_coins self = Ok offered.
Proof.
  unfold arbitrage, get_offered_amounts.
  intros (oa & (offered & Hoff & _)%bind_Ok & _)%bind_Ok. eauto.
Qed.

(** The arbitrage of a key is what the offered coins of the key sum to less
    what its requested payments sum to. *)
Lemma arbitrage_get0 self arb offered k :
  arbitrage self = Ok arb →
  get_offered_coins self = Ok offered →
  dict_wf (requested_payments self) →
  get0 k arb
  = sum_amounts amount (entries k offered)
    - sum_amounts (λ np, p_amount (np_payment np)) (entries k (requested_payments self)).
Proof.
  intros Harb Hoff Hwf. pose proof Harb as Harb'. unfold arbitrage in Harb'.
  apply bind_Ok in Harb' as (oa & Hoa & (ra & Hra & _)%bind_Ok).
  destruct (arbitrage_characterization self oa ra Hoa Hra) as (arb' & Harb2 & _ & Hget & _).
  assert (arb' = arb) as -> by congruence.
  pose proof Hoa as Hoa'. unfold get_offered_amounts in Hoa'. rewrite Hoff in Hoa'.
  simpl in Hoa'.
  destruct (get_offered_coins_spec _ _ Hoff) as (Hdwf & _).
  rewrite <-(amounts_of_get0 _ _ _ Hoa' Hdwf k), <-(amounts_of_get0 _ _ _ Hra Hwf k).
  unfold get0 at 1. rewrite Hget.
  destruct (decide (k ∈ dict_keys ra ++ dict_keys oa)) as [|Hnotin]; [done|].
  simpl. apply not_elem_of_app in Hnotin as [Hra_k Hoa_k].
  apply dict_get_None in Hra_k, Hoa_k. unfold get0. by rewrite Hra_k, Hoa_k.
Qed.

Lemma aggregate_Ok_spends σ offers σ' agg :
  aggregate σ offers = (σ', Ok agg) →
  coin_spends (obj_bundle agg) = concat (map (λ o, coin_spends (obj_bundle o)) offers) ∧
  ∃ offered, get_offered_coins (Offer_value σ' agg) = Ok offered.
Proof.
  unfold aggregate.
  destruct (aggregate_loop offers σ [] _) as [σ1 [[total' b']|e]] eqn:Hloop; [|done].
  intros [= <- Hpost]. apply bind_Ok in Hpost as ([] & Hpost & [= <-]).
  apply aggregate_loop_Ok in Hloop as (_ & _ & Hspends). simpl in *.
  split; [done|].
  unfold __post_init__ in Hpost. apply bind_Ok in Hpost as (offered & Hoff & _). eauto.
Qed.

(** X18: the aggregate offers what its inputs offer.  When no coin name is
    spent by two offers and the offered coins of every input offer are
    defined, the coins that the offer returned by [aggregate] offers under a
    key are the coins the input offers offer under that key, in the order of
    the offers. *)
Theorem aggregate_offered_coins σ offers σ' agg offered_by k :
  names_disjoint Coin_name offers →
  aggregate σ offers = (σ', Ok agg) →
  Forall2 (λ o offered, get_offered_coins (Offer_value σ o) = Ok offered) offers offered_by →
  ∃ offered,
    get_offered_coins (Offer_value σ' agg) = Ok offered ∧
    entries k offered = concat (map (entries k) offered_by).
Proof.
  intros Hnd Hagg Hall.
  destruct (aggregate_Ok_spends _ _ _ _ Hagg) as (Hspends & offered & Hoff).
  exists offered. split; [done|].
  destruct (get_offered_coins_spec _ _ Hoff) as (_ & _ & Hentries & _).
  rewrite Hentries. simpl.
  rewrite (offered_aggregate offers _ k Hnd Hspends).
  2:{ intros o a Ho Ha.
      destruct (Forall2_elem_l _ _ _ _ Hall Ho) as (d & _ & Hd).
      by apply get_offered_coins_spec in Hd as (_ & Hp & _); apply Hp. }
  clear -Hall. induction Hall as [|o d offers ds Hd _ IH]; simpl; [done|].
  rewrite IH. f_equal.
  destruct (get_offered_coins_spec _ _ Hd) as (_ & _ & Hentries & _). by rewrite Hentries.
Qed.

(** X19: the arbitrage adds up.  When no coin name is spent by two offers
    and the offers hold different list objects, the arbitrage of the offer
    returned by [aggregate] is, for every asset key, the sum of the arbitrages
    of the input offers for that key, a key that an offer does not have
    counting for 0. *)
Theorem aggregate_arbitrage σ offers σ' agg arbs arb k :
  names_disjoint Coin_name offers →
  unshared σ offers →
  aggregate σ offers = (σ', Ok agg) →
  Forall2 (λ o a, arbitrage (Offer_value σ o) = Ok a) offers arbs →
  arbitrage (Offer_value σ' agg) = Ok arb →
  get0 k arb = foldr (λ a s, get0 k a + s) 0 arbs.
Proof.
  intros Hnd Hun Hagg Hall Harb.
  destruct (aggregate_merge σ offers (names_disjoint_not_overlapping _ Hnd) Hun)
    as (σ2 & o2 & Hagg2 & _ & Hspends & Hwf & _ & Hheld).
  rewrite Hagg in Hagg2. injection Hagg2 as <- Hpost.
  symmetry in Hpost. apply bind_Ok in Hpost as ([] & _ & [= ->]).
  destruct (arbitrage_offered _ _ Harb) as [offered Hoff].
  rewrite (arbitrage_get0 _ _ _ k Harb Hoff).
  2:{ unfold dict_wf, Offer_value. simpl. by rewrite dict_keys_map_values. }
  rewrite Offer_value_entries, Hheld.
  destruct (get_offered_coins_spec _ _ Hoff) as (_ & _ & Hentries & _).
  rewrite Hentries. simpl.
  rewrite (offered_aggregate offers _ k Hnd Hspends).
  2:{ intros o a Ho Ha.
      destruct (Forall2_elem_l _ _ _ _ Hall Ho) as (a' & _ & Ha').
      destruct (arbitrage_offered _ _ Ha') as [d Hd].
      by apply get_offered_coins_spec in Hd as (_ & Hp & _); apply Hp. }
  unfold payments_for. rewrite !sum_amounts_concat, !foldr_fmap.
  destruct Hun as (Hwfs & _). clear -Hall Hwfs.
  induction Hall as [|o a offers arbs Ha _ IH]; simpl; [done|].
  rewrite <-IH by (intros o' Ho'; apply Hwfs; by right).
  destruct (arbitrage_offered _ _ Ha) as [d Hd].
  rewrite (arbitrage_get0 _ _ _ k Ha Hd).
  2:{ unfold dict_wf, Offer_value. simpl. rewrite dict_keys_map_values. apply Hwfs. left. }
  rewrite Offer_value_entries. unfold held.
  destruct (get_offered_coins_spec _ _ Hd) as (_ & _ & Hentries & _).
  rewrite Hentries. simpl. lia.
Qed.
End aggregate_amounts.

(** ** Notarizing again, and offers as bytes and on a stream *)

Section notarize_again.
Context {Program G2Element : Type} `{!Externals Program G2Element}.

Lemma notarize_fold_lengths (nonce0 : bytes32) (d : loc) (items : dict AssetKey loc) (h : heap) :
  let h' := foldl (notarize_item nonce0 d) h items in
  length (h_dicts h') = length (h_dicts h) ∧
  length (h_lists h') = (length (h_lists h) + length items)%nat.
Proof.
  revert h. induction items as [|[k l] items IH]; intros h; simpl; [lia|].
  destruct (IH (notarize_item nonce0 d h (k, l))) as [Hd Hl]. simpl in *.
  rewrite Hd, Hl, length_alter, length_app. simpl. lia.
Qed.

(** The lists that the loop of [notarize_payments] stores are objects of the
    heap it leaves. *)
Lemma notarize_fold_locs (nonce0 : bytes32) (d : loc) (items pre : dict AssetKey loc)
    (h : heap) :
  heap_dict h d = pre ++ items →
  dict_wf (pre ++ items) →
  (d < length (h_dicts h))%nat →
  let h' := foldl (notarize_item nonce0 d) h items in
  ∀ k l, (k, l) ∈ heap_dict h' d → (k, l) ∈ pre ∨ (l < length (h_lists h'))%nat.
Proof.
  revert pre h. induction items as [|[k0 l0] items IH]; intros pre h Hd Hwf Hvalid; simpl.
  - intros k l Hin. left. rewrite Hd, app_nil_r in Hin. done.
  - set (h1 := mkHeap _ _).
    assert (k0 ∉ dict_keys pre) as Hk.
    { unfold dict_wf, dict_keys in Hwf. rewrite map_app in Hwf.
      apply NoDup_app in Hwf as (_ & Hdisj & _). intros Hin. apply (Hdisj k0 Hin). left. }
    assert (heap_dict h1 d = (pre ++ [(k0, length (h_lists h))]) ++ items) as Hd1.
    { unfold h1. rewrite heap_dict_alter, !decide_True by done.
      rewrite Hd, dict_set_middle by done. by rewrite <-app_assoc. }
    intros k l Hin.
    destruct (IH (pre ++ [(k0, length (h_lists h))]) h1) with (k := k) (l := l)
      as [Hpre|Hlt].
    + done.
    + unfold dict_wf, dict_keys in *. rewrite <-app_assoc. simpl.
      rewrite !map_app in *. simpl in *. done.
    + unfold h1. simpl. by rewrite length_alter.
    + done.
    + apply elem_of_app in Hpre as [?|Heq]; [by left|].
      apply list_elem_of_singleton in Heq as [= -> ->]. right.
      destruct (notarize_fold_lengths nonce0 d items h1) as [_ Hlen]. simpl in Hlen.
      rewrite Hlen. unfold h1. simpl. rewrite length_app. simpl. lia.
    + by right.
Qed.

(** X20: notarizing a dictionary that has been notarized replaces the
    nonce and keeps the payments.  After [notarize_payments] with the coins
    [coins1] and then with the coins [coins2], the dictionary has its keys,
    in their order, and holds under each key the payments it held at first,
    notarized with the nonce of [coins2]: what a single call with [coins2]
    stores. *)
Theorem notarize_payments_again (h : heap) (d : loc) (coins1 coins2 : list Coin) :
  dict_wf (heap_dict h d) →
  (d < length (h_dicts h))%nat →
  (∀ k l, (k, l) ∈ heap_dict h d → (l < length (h_lists h))%nat) →
  let h1 := (notarize_payments h d coins1).1 in
  let h2 := (notarize_payments h1 d coins2).1 in
  dict_keys (heap_dict h2 d) = dict_keys (heap_dict h d) ∧
  ∀ k l, dict_get k (heap_dict h d) = Some l →
    ∃ l2 l', dict_get k (heap_dict h2 d) = Some l2 ∧
      dict_get k (heap_dict (notarize_payments h d coins2).1 d) = Some l' ∧
      heap_list h2 l2
      = map (λ p, Notarized (mkNotarizedPayment (payment_fields p)
                                                 (notarization_nonce coins2)))
            (heap_list h l) ∧
      heap_list h2 l2 = heap_list (notarize_payments h d coins2).1 l'.
Proof.
  intros Hwf Hd Hvalid h1 h2.
  destruct (notarize_payments_heap h d coins1 Hwf Hd Hvalid) as (Hkeys1 & Hlists1 & _ & _).
  destruct (notarize_payments_heap h d coins2 Hwf Hd Hvalid) as (_ & Hlists2 & _ & _).
  fold h1 in Hkeys1, Hlists1.
  assert (dict_wf (heap_dict h1 d)) as Hwf1 by (unfold dict_wf; by rewrite Hkeys1).
  assert (d < length (h_dicts h1))%nat as Hd1.
  { unfold h1, notarize_payments. simpl.
    by rewrite (proj1 (notarize_fold_lengths _ d (heap_dict h d) h)). }
  assert (∀ k l, (k, l) ∈ heap_dict h1 d → (l < length (h_lists h1))%nat) as Hvalid1.
  { intros k l Hin.
    destruct (notarize_fold_locs (notarization_nonce coins1) d (heap_dict h d) [] h)
      with (k := k) (l := l) as [Hnil|Hlt]; [done|done|done|done| |done].
    by apply elem_of_nil in Hnil. }
  destruct (notarize_payments_heap h1 d coins2 Hwf1 Hd1 Hvalid1) as (Hkeys2 & Hlists12 & _ & _).
  fold h2 in Hkeys2, Hlists12.
  split; [by rewrite Hkeys2|].
  intros k l Hl.
  destruct (Hlists1 k l Hl) as (l1 & Hl1 & _ & Hlist1).
  destruct (Hlists12 k l1 Hl1) as (l2 & Hl2 & _ & Hlist2).
  destruct (Hlists2 k l Hl) as (l' & Hl' & _ & Hlist').
  assert (heap_list h2 l2
          = map (λ p, Notarized (mkNotarizedPayment (payment_fields p)
                                                     (notarization_nonce coins2)))
                (heap_list h l)) as Heq.
  { rewrite Hlist2, Hlist1, map_map. done. }
  exists l2, l'. split_and!; [done|done|done|]. by rewrite Heq, Hlist'.
Qed.
End notarize_again.

Section encoding.
Context {Program G2Element : Type} `{!Externals Program G2Element}.
Context `{!RoundTripLaws}.
Implicit Types (o : Offer Program G2Element).

(** The spend bundle that [__bytes__] serialises is read back as the
    offer. *)
Lemma from_bytes_as_spend_bundle o :
  __post_init__ o = Ok () →
  dict_wf (requested_payments o) →
  uint64_payments (requested_payments o) →
  (∀ cs, cs ∈ coin_spends (bundle o) → parent_coin_info (coin cs) ≠ ZERO_32) →
  from_bytes (SpendBundle_bytes (as_spend_bundle o)) = Ok o.
Proof.
  intros Hpost Hwf Hamt Hparents. unfold from_bytes.
  rewrite law_codec. simpl. rewrite app_nil_r, foldM_app.
  rewrite (from_bytes_dummies _ [] []) by (try done; by apply uint64_payments_read_back).
  simpl.
  rewrite from_bytes_leftover by done. simpl.
  rewrite law_signature. unfold Offer_new.
  destruct o as [rp [spends sig]]. simpl in *. by rewrite Hpost.
Qed.

(** X21: different offers have different bytes.  Two different offers
    accepted by the constructor, with pairwise different requested keys and
    [uint64] amounts, none of whose coin spends spends a coin with parent
    [ZERO_32], are not serialised to the same bytes. *)
Theorem bytes_injective o1 o2 :
  (∀ o, o = o1 ∨ o = o2 →
     __post_init__ o = Ok () ∧
     dict_wf (requested_payments o) ∧
     uint64_payments (requested_payments o) ∧
     (∀ cs, cs ∈ coin_spends (bundle o) → parent_coin_info (coin cs) ≠ ZERO_32)) →
  o1 ≠ o2 →
  __bytes__ o1 ≠ __bytes__ o2.
Proof.
  intros Hvalid Hne Heq.
  destruct (Hvalid o1) as (Hp1 & Hw1 & Hu1 & Hz1); [by left|].
  destruct (Hvalid o2) as (Hp2 & Hw2 & Hu2 & Hz2); [by right|].
  pose proof (from_bytes_as_spend_bundle o1 Hp1 Hw1 Hu1 Hz1) as H1.
  pose proof (from_bytes_as_spend_bundle o2 Hp2 Hw2 Hu2 Hz2) as H2.
  unfold __bytes__ in Heq. rewrite Heq in H1. congruence.
Qed.
End encoding.

Section streams.
Context {Program G2Element : Type} `{!Externals Program G2Element}.
Context `{!StreamExternals Program G2Element}.
Context `{!RoundTripLaws} `{!StreamLaws}.
Implicit Types (o : Offer Program G2Element).

(** X22: an offer is read back from a stream.  For an offer accepted by the
    constructor, with pairwise different requested keys and [uint64]
    amounts, none of whose coin spends spends a coin with parent [ZERO_32],
    [stream] writes at the end of the stream, and [parse], started where
    [stream] started to write, returns the offer and stops where [stream]
    stopped. *)
Theorem stream_parse_round_trip o (f rest : list byte) :
  __post_init__ o = Ok () →
  dict_wf (requested_payments o) →
  uint64_payments (requested_payments o) →
  (∀ cs, cs ∈ coin_spends (bundle o) → parent_coin_info (coin cs) ≠ ZERO_32) →
  ∃ written,
    stream o f = Ok (f ++ written) ∧
    parse (written ++ rest) = Ok (o, rest).
Proof.
  intros Hpost Hwf Hamt Hparents.
  exists (SpendBundle_stream (as_spend_bundle o)). split.
  - unfold stream, __bytes__. by rewrite law_codec.
  - unfold parse. rewrite law_parse_stream. simpl.
    by rewrite from_bytes_as_spend_bundle.
Qed.
End streams.

(** ** The data layer RPC: [process_change] *)

Lemma dict_keys_set {K V : Type} `{EqDecision K} (k : K) (v : V) (d : dict K V) :
  dict_keys (dict_set k v d)
  = if decide (k ∈ dict_keys d) then dict_keys d else dict_keys d ++ [k].
Proof.
  destruct (decide (k ∈ dict_keys d)) as [Hin|Hnotin].
  - by apply dict_keys_set_in.
  - rewrite dict_set_fresh by done. unfold dict_keys. by rewrite map_app.
Qed.

(** A dictionary display that repeats no key: the keys of the display come
    after the keys of the unpacked dictionary, in the order of the display,
    those the dictionary has already being left where they are. *)
Lemma dict_keys_set_display {K V : Type} `{EqDecision K} (k : K) (v : V)
    (d d' : dict K V) (news : list K) :
  k ∉ news →
  dict_keys d' = dict_keys d ++ filter (λ x, x ∉ dict_keys d) news →
  dict_keys (dict_set k v d')
  = dict_keys d ++ filter (λ x, x ∉ dict_keys d) (news ++ [k]).
Proof.
  intros Hk Hd'. rewrite dict_keys_set, Hd', filter_app.
  destruct (decide (k ∈ dict_keys d)) as [Hin|Hnotin].
  - rewrite decide_True by (apply elem_of_app; by left).
    rewrite (filter_cons_False _ k) by (intros ?; done). by rewrite filter_nil, app_nil_r.
  - rewrite decide_False.
    + rewrite (filter_cons_True _ k) by done. by rewrite filter_nil, app_assoc.
    + intros [?|Hin]%elem_of_app; [done|]. by apply list_elem_of_filter in Hin as [_ ?].
Qed.

(** A key is none of the keys of a list that is written out. *)
Ltac solve_not_listed :=
  let H := fresh "H" in
  intros H; repeat (apply elem_of_cons in H as [H|H]; [discriminate|]);
  by apply elem_of_nil in H.

Lemma rpc_bind_Return {E A B : Type} (m : rpc_result E A) (f : A → rpc_result E B) (b : B) :
  m ≫= f = Return b ↔ ∃ a, m = Return a ∧ f a = Return b.
Proof.
  destruct m as [a|e]; simpl; split.
  - intros Hf. by exists a.
  - by intros (a' & [= <-] & Hf).
  - done.
  - by intros (a' & ? & _).
Qed.

Lemma rpc_bind_Throw {E A B : Type} (m : rpc_result E A) (f : A → rpc_result E B)
    (e : rpc_exn E) :
  m ≫= f = Throw e ↔ m = Throw e ∨ ∃ a, m = Return a ∧ f a = Throw e.
Proof.
  destruct m as [a|e']; simpl; split.
  - intros Hf. right. by exists a.
  - by intros [?|(a' & [= <-] & Hf)].
  - intros [= <-]. by left.
  - intros [H|(a' & ? & _)]; [by injection H as ->|done].
Qed.

Section process_change_facts.
Context {Any E : Type} `{!Conversions Any E}.
Implicit Types (change : dict string Any).

Lemma process_change_has_key change r :
  process_change change = Return r → ∃ raw_key, dict_get "key" change = Some raw_key.
Proof.
  unfold process_change.
  intros (rnh & _ & (side & _ & (value & _ & (raw_key & Hraw & _)%rpc_bind_Return)
            %rpc_bind_Return)%rpc_bind_Return)%rpc_bind_Return.
  unfold getitem in Hraw. destruct (dict_get "key" change) as [raw|]; [by eexists|done].
Qed.

(** X23: what [process_change] returns.  The dictionary returned has the
    keys of [change], in their order, followed by those of ["value"],
    ["reference_node_hash"] and ["side"] that [change] does not have; it
    agrees with [change] outside the four keys of the display; it holds the
    converted key under ["key"], which [change] must have, and [None] under
    each optional key that [change] does not have or has with [None]. *)
Theorem process_change_returns change r :
  process_change change = Return r →
  dict_keys r
  = dict_keys change
    ++ filter (λ k, k ∉ dict_keys change) ["value"; "reference_node_hash"; "side"] ∧
  (dict_wf change → dict_wf r) ∧
  (∀ k, k ∉ ["key"; "value"; "reference_node_hash"; "side"] →
        dict_get k r = dict_get k change) ∧
  (∃ raw_key key,
     dict_get "key" change = Some raw_key ∧ hexstr_to_bytes raw_key = inr key ∧
     dict_get "key" r = Some key) ∧
  (∀ k, k ∈ ["value"; "reference_node_hash"; "side"] →
        get_or_None k change = PyNone → dict_get k r = Some PyNone).
Proof.
  unfold process_change.
  intros (rnh & Hrnh & (side & Hside & (value & Hvalue &
            (raw_key & Hraw & (key & Hkey & [= <-])%rpc_bind_Return)%rpc_bind_Return)
            %rpc_bind_Return)%rpc_bind_Return)%rpc_bind_Return.
  unfold getitem in Hraw.
  destruct (dict_get "key" change) as [raw|] eqn:Hget; [|done]. injection Hraw as ->.
  assert ("key" ∈ dict_keys change) as Hin by (apply dict_get_is_Some; eauto).
  split_and!.
  - rewrite (dict_keys_set_display "side" _ change _ ["key"; "value"; "reference_node_hash"]).
    + simpl. by rewrite (filter_cons_False _ "key") by (intros ?; done).
    + solve_not_listed.
    + apply (dict_keys_set_display _ _ change _ ["key"; "value"]);
        [solve_not_listed|].
      apply (dict_keys_set_display _ _ change _ ["key"]); [solve_not_listed|].
      apply (dict_keys_set_display _ _ change _ []); [solve_not_listed|].
      by rewrite filter_nil, app_nil_r.
  - intros Hwf. by do 4 apply dict_set_wf.
  - intros k Hk. rewrite !dict_get_set.
    repeat (rewrite decide_False; [|intros ->; apply Hk; by repeat constructor]). done.
  - exists raw_key, key. split_and!; [done| |].
    + unfold call in Hkey. destruct (hexstr_to_bytes raw_key); [done|]. by injection Hkey as ->.
    + rewrite !dict_get_set. repeat (rewrite decide_False by done). by rewrite decide_True.
  - intros k Hk Hnone. rewrite !dict_get_set.
    apply elem_of_cons in Hk as [->|Hk]; [|apply elem_of_cons in Hk as [->|Hk]];
      [| |apply list_elem_of_singleton in Hk as ->].
    + rewrite !(decide_False (P := "value" = _)) by done. rewrite decide_True by done.
      rewrite Hnone in Hvalue. rewrite decide_False in Hvalue by (intros ?; done).
      by injection Hvalue as <-.
    + rewrite !(decide_False (P := "reference_node_hash" = "side")) by done.
      rewrite decide_True by done.
      rewrite Hnone in Hrnh. rewrite decide_False in Hrnh by (intros ?; done).
      by injection Hrnh as <-.
    + rewrite decide_True by done.
      rewrite Hnone in Hside. rewrite decide_False in Hside by (intros ?; done).
      by injection Hside as <-.
Qed.

(** X24: the exceptions of [process_change].  The only [KeyError] is that
    of the key ["key"], raised for a dictionary without that key; such a
    dictionary is never processed, and when it also has none of the three
    optional keys the exception is the [KeyError].  The optional fields are
    converted first, so their conversion errors come before the
    [KeyError]. *)
Theorem process_change_raises change :
  (∀ k, process_change change = Throw (MissingKey k) →
        k = "key" ∧ dict_get "key" change = None) ∧
  (dict_get "key" change = None → ∀ r, process_change change ≠ Return r) ∧
  (dict_get "key" change = None →
   get_or_None "reference_node_hash" change = PyNone →
   get_or_None "side" change = PyNone →
   get_or_None "value" change = PyNone →
   process_change change = Throw (MissingKey "key")) ∧
  (∀ e, get_or_None "reference_node_hash" change ≠ PyNone →
        hexstr_to_bytes (get_or_None "reference_node_hash" change) = inl e →
        process_change change = Throw (ConversionError e)).
Proof.
  split_and!.
  - intros k Hthrow. unfold process_change in Hthrow.
    assert (∀ r : E + Any, call r ≠ Throw (MissingKey k)) as Hcall.
    { by intros [e|v]. }
    apply rpc_bind_Throw in Hthrow as [Hthrow|(rnh & _ & Hthrow)].
    { destruct (decide _); [|done].
      apply rpc_bind_Throw in Hthrow as [Hthrow|(b & _ & Hthrow)]; by apply Hcall in Hthrow. }
    apply rpc_bind_Throw in Hthrow as [Hthrow|(side & _ & Hthrow)].
    { destruct (decide _); [|done]. by apply Hcall in Hthrow. }
    apply rpc_bind_Throw in Hthrow as [Hthrow|(value & _ & Hthrow)].
    { destruct (decide _); [|done]. by apply Hcall in Hthrow. }
    apply rpc_bind_Throw in Hthrow as [Hthrow|(raw_key & _ & Hthrow)].
    { unfold getitem in Hthrow. destruct (dict_get "key" change); [done|].
      by injection Hthrow as <-. }
    apply rpc_bind_Throw in Hthrow as [Hthrow|(key & _ & Hthrow)]; [|done].
    by apply Hcall in Hthrow.
  - intros Hnone r Hr. apply process_change_has_key in Hr as [raw_key Hraw]. congruence.
  - intros Hkey Hrnh Hside Hvalue. unfold process_change, getitem.
    rewrite Hrnh, Hside, Hvalue, Hkey.
    by rewrite !decide_False by (intros ?; done).
  - intros e Hnn He. unfold process_change.
    destruct (decide (get_or_None "reference_node_hash" change ≠ PyNone)); [|done].
    by rewrite He.
Qed.
End process_change_facts.

(** ** The further properties on the examples *)

(** X1, on offer H, whose CAT parent puzzle has a tail hash that is not a
    [bytes32]: [get_offered_coins] raises the [ValueError] of line 101. *)
Lemma get_offered_coins_defined_witness :
  (BadBytes32 = IndexError ∧ ¬ well_formed_bundle (bundle ex_offer_H)) ∨
  ((BadBytes32 = UnpackError ∨ BadBytes32 = BadBytes32) ∧
   ¬ readable_parents (bundle ex_offer_H)).
Proof.
  apply (proj2 (get_offered_coins_defined ex_offer_H) BadBytes32). by vm_compute.
Defined.

(** X5, on offer I, whose CAT parent puzzle has two curried arguments:
    [get_offered_amounts] passes on the [ValueError] of line 100. *)
Lemma get_offered_amounts_spec_witness :
  get_offered_amounts ex_offer_I = Raise UnpackError.
Proof.
  apply (proj1 (get_offered_amounts_spec ex_offer_I) UnpackError). by vm_compute.
Defined.

(** X13, on the payment of offer A and a payment with another nonce. *)
Lemma notarized_condition_round_trip_witness :
  from_condition (as_condition (ex_payment 33%N 500 9%N)) = Ok (ex_payment 33%N 500 9%N) ∧
  (0 ≤ p_amount (np_payment (ex_payment 33%N 500 8%N)) < 2 ^ 64 →
   as_condition (ex_payment 33%N 500 9%N) = as_condition (ex_payment 33%N 500 8%N) →
   ex_payment 33%N 500 9%N = ex_payment 33%N 500 8%N).
Proof.
  apply (notarized_condition_round_trip (ex_payment 33%N 500 9%N) (ex_payment 33%N 500 8%N)).
  simpl. lia.
Defined.

(** X2, on offer A, which offers one XCH coin. *)
Lemma offered_coins_pay_to_settlement_witness :
  [ex_coin_A] ≠ [] ∧
  ∀ c, c ∈ [ex_coin_A] →
    c ∈ additions (bundle ex_offer_A) ∧
    puzzle_hash c = get_tree_hash (settlement_puzzle None) ∧
    ((None : AssetKey) = None → puzzle_hash c = ph).
Proof.
  apply (offered_coins_pay_to_settlement ex_offer_A [(None, [ex_coin_A])] None [ex_coin_A]);
    by vm_compute.
Defined.

(** X3, on offer G, which offers an XCH coin and a CAT coin. *)
Lemma get_offered_coins_groups_witness :
  let offered : dict AssetKey (list Coin) :=
    [(None, [ex_coin_A]); (Some ex_tail, [ex_coin_B])] in
  dict_wf offered ∧
  (∀ k, entries k offered
        = filter (λ a, asset_of (bundle ex_offer_G) a = Some k)
                 (additions (bundle ex_offer_G))) ∧
  (∀ k coins a, (k, coins) ∈ offered → a ∈ coins →
                asset_of (bundle ex_offer_G) a = Some k) ∧
  (∀ a, a ∈ additions (bundle ex_offer_G) → asset_of (bundle ex_offer_G) a = None →
        ∀ k coins, (k, coins) ∈ offered → a ∉ coins).
Proof.
  apply (get_offered_coins_groups ex_offer_G [(None, [ex_coin_A]); (Some ex_tail, [ex_coin_B])]).
  by vm_compute.
Defined.

(** X6, on offer C, which offers 1000 XCH and requests 700. *)
Lemma is_valid_compares_sums_witness :
  (true = true ↔
   ∀ k, sum_amounts (λ np, p_amount (np_payment np))
          (entries k (requested_payments ex_offer_C))
        ≤ sum_amounts amount (entries k [(None : AssetKey, [ex_coin_C])])) ∧
  (requested_payments ex_offer_C = [] → true = true).
Proof.
  apply (is_valid_compares_sums ex_offer_C [(None, [ex_coin_C])] true).
  - solve_NoDup.
  - by vm_compute.
  - by vm_compute.
Defined.


(** X8, on offer F, which offers two XCH coins. *)
Lemma to_valid_spend_shape_witness :
  ∃ offered completion_spends,
    get_offered_coins ex_offer_F = Ok offered ∧
    coin_spends ex_completion_F = completion_spends ++ coin_spends (bundle ex_offer_F) ∧
    aggregated_signature ex_completion_F
    = AugSchemeMPL_aggregate [G2Element_default; aggregated_signature (bundle ex_offer_F)] ∧
    map coin completion_spends
    = concat (map (λ item, entries item.1 offered) (requested_payments ex_offer_F)) ∧
    ∀ cs, cs ∈ completion_spends →
      puzzle_hash (coin cs) = get_tree_hash (puzzle_reveal cs) ∧
      ∃ k, k ∈ dict_keys (requested_payments ex_offer_F) ∧
           puzzle_reveal cs = settlement_puzzle k.
Proof.
  apply (to_valid_spend_shape ex_offer_F 44%N ex_completion_F). by vm_compute.
Defined.

(** X9, on offer F: the second offered coin declares nothing. *)
Lemma to_valid_spend_single_declarer_witness :
  ∃ cs,
    cs ∈ coin_spends ex_completion_F ∧ coin cs = ex_coin_D ∧
    puzzle_reveal cs = settlement_puzzle None ∧
    solution cs = Program_to (VList []).
Proof.
  apply (to_valid_spend_single_declarer ex_offer_F 44%N ex_completion_F
           [(None, [ex_coin_C; ex_coin_D])] None [ex_payment 33%N 700 9%N]
           [ex_coin_C; ex_coin_D] ex_coin_D).
  - by vm_compute.
  - by vm_compute.
  - left.
  - done.
  - right. left.
  - by vm_compute.
Defined.

(** X10, on offer E, which requests what it offers. *)
Lemma to_valid_spend_exact_payments_witness :
  ∃ c rest cs,
    [ex_coin_C] = c :: rest ∧ cs ∈ coin_spends ex_completion_E ∧ coin cs = c ∧
    solution cs
    = Program_to (VList (map (λ np, VProgram (as_condition np)) [ex_payment 33%N 1000 9%N])).
Proof.
  apply (to_valid_spend_exact_payments ex_offer_E 44%N ex_completion_E
           [(None, [ex_coin_C])] [(None, 0)] None [ex_payment 33%N 1000 9%N] [ex_coin_C] 0).
  - by vm_compute.
  - by vm_compute.
  - by vm_compute.
  - left.
  - done.
  - done.
  - lia.
Defined.

(** X11, on the bytes of the bundle with two dummy spends. *)
Lemma from_bytes_result_witness :
  ∃ decoded,
    SpendBundle_from_bytes (SpendBundle_bytes ex_bundle_dummies) = Ok decoded ∧
    coin_spends (bundle ex_offer_C)
    = filter (λ cs, parent_coin_info (coin cs) ≠ ZERO_32) (coin_spends decoded) ∧
    aggregated_signature (bundle ex_offer_C) = aggregated_signature decoded ∧
    (∀ cs, cs ∈ coin_spends (bundle ex_offer_C) → parent_coin_info (coin cs) ≠ ZERO_32) ∧
    dict_wf (requested_payments ex_offer_C) ∧
    (∀ k, k ∈ dict_keys (requested_payments ex_offer_C) ↔
          ∃ cs, cs ∈ coin_spends decoded ∧ dummy_for k cs) ∧
    __post_init__ ex_offer_C = Ok ().
Proof.
  apply (from_bytes_result (SpendBundle_bytes ex_bundle_dummies) ex_offer_C). by vm_compute.
Defined.

(** X12, on the same bytes: the second dummy spend for XCH wins. *)
Lemma from_bytes_last_dummy_witness :
  ∃ payments,
    mapM from_condition (as_iter (solution (ex_dummy [ex_payment 33%N 700 9%N])))
    = Ok payments ∧
    dict_get None (requested_payments ex_offer_C) = Some payments.
Proof.
  apply (from_bytes_last_dummy (SpendBundle_bytes ex_bundle_dummies) ex_offer_C
           ex_bundle_dummies None (ex_dummy [ex_payment 33%N 700 9%N])).
  - by vm_compute.
  - by vm_compute.
  - by vm_compute.
Defined.

(** X15, on offer C and the announcement of its payment. *)
Lemma announcement_origin_witness :
  ∃ k payments p,
    (k, payments) ∈ requested_payments ex_offer_C ∧ p ∈ payments ∧
    message (mkAnnouncement ex_native_ph (name (ex_payment 33%N 700 9%N))) = name p ∧
    origin_info (mkAnnouncement ex_native_ph (name (ex_payment 33%N 700 9%N)))
    = puzzle_hash (coin (additional_coin_spend (k, payments))) ∧
    ∀ c, c ∈ entries k [(None : AssetKey, [ex_coin_C])] →
         puzzle_hash c
         = origin_info (mkAnnouncement ex_native_ph (name (ex_payment 33%N 700 9%N))).
Proof.
  apply (announcement_origin ex_offer_C [(None, [ex_coin_C])]
           (mkAnnouncement ex_native_ph (name (ex_payment 33%N 700 9%N)))).
  - by vm_compute.
  - left.
Defined.

(** X16, on offer G, which requests a CAT and XCH. *)
Lemma announcements_NoDup_witness :
  NoDup (calculate_announcements (requested_payments ex_offer_G)).
Proof.
  apply (announcements_NoDup ex_offer_G).
  - by vm_compute.
  - solve_NoDup.
  - intros k k' Hk Hk' Heq. simpl in Hk, Hk'.
    elem_cases Hk; elem_cases Hk'; subst k k';
      first [reflexivity | (vm_compute in Heq; discriminate Heq)].
Defined.

(** X17, on the offers C and D, which both request XCH. *)
Lemma aggregate_list_objects_witness :
  length (aggregate ex_store_CD [ex_obj_C; ex_obj_D]).1 = length ex_store_CD ∧
  (∀ k l, dict_get k (all_items [ex_obj_C; ex_obj_D]) = Some l →
          deref (aggregate ex_store_CD [ex_obj_C; ex_obj_D]).1 l
          = payments_for ex_store_CD k [ex_obj_C; ex_obj_D]) ∧
  (∀ l, (∀ k, dict_get k (all_items [ex_obj_C; ex_obj_D]) ≠ Some l) →
        deref (aggregate ex_store_CD [ex_obj_C; ex_obj_D]).1 l = deref ex_store_CD l) ∧
  (∀ o' k, (aggregate ex_store_CD [ex_obj_C; ex_obj_D]).2 = Ok o' →
           dict_get k (obj_requested_payments o')
           = dict_get k (all_items [ex_obj_C; ex_obj_D])) ∧
  (∀ i o k l, [ex_obj_C; ex_obj_D] !! i = Some o →
     dict_get k (obj_requested_payments o) = Some l →
     (∀ j oj, (j < i)%nat → [ex_obj_C; ex_obj_D] !! j = Some oj →
              dict_get k (obj_requested_payments oj) = None) →
     dict_get k (all_items [ex_obj_C; ex_obj_D]) = Some l).
Proof.
  apply (aggregate_list_objects ex_store_CD [ex_obj_C; ex_obj_D]).
  - apply names_disjoint_not_overlapping. solve_names_disjoint.
  - solve_unshared.
Defined.

(** X18, on the offers A and B. *)
Lemma aggregate_offered_coins_witness :
  ∃ offered,
    get_offered_coins (Offer_value ex_store_AB ex_obj_AB) = Ok offered ∧
    entries None offered
    = concat (map (entries None)
                  [[(None : AssetKey, [ex_coin_A])]; [(Some ex_tail, [ex_coin_B])]]).
Proof.
  apply (aggregate_offered_coins ex_store_AB [ex_obj_A; ex_obj_B] ex_store_AB ex_obj_AB
           [[(None, [ex_coin_A])]; [(Some ex_tail, [ex_coin_B])]] None).
  - solve_names_disjoint.
  - by vm_compute.
  - repeat constructor.
Defined.

(** X19, on the offers A and B, whose arbitrages cancel. *)
Lemma aggregate_arbitrage_witness :
  get0 None [(Some ex_tail, 0); (None, 0)]
  = foldr (λ a s, get0 None a + s) 0
          [[(Some ex_tail, -500); (None, 1000)]; [(None, -1000); (Some ex_tail, 500)]].
Proof.
  apply (aggregate_arbitrage ex_store_AB [ex_obj_A; ex_obj_B] ex_store_AB ex_obj_AB
           [[(Some ex_tail, -500); (None, 1000)]; [(None, -1000); (Some ex_tail, 500)]]
           [(Some ex_tail, 0); (None, 0)] None).
  - solve_names_disjoint.
  - solve_unshared.
  - by vm_compute.
  - repeat constructor.
  - by vm_compute.
Defined.

(** X20, on the example heap, notarized with one coin and then with two. *)
Lemma notarize_payments_again_witness :
  let h1 := (notarize_payments ex_heap 0%nat [ex_coin1]).1 in
  let h2 := (notarize_payments h1 0%nat [ex_coin1; ex_coin2]).1 in
  dict_keys (heap_dict h2 0%nat) = dict_keys (heap_dict ex_heap 0%nat) ∧
  ∀ k l, dict_get k (heap_dict ex_heap 0%nat) = Some l →
    ∃ l2 l', dict_get k (heap_dict h2 0%nat) = Some l2 ∧
      dict_get k (heap_dict (notarize_payments ex_heap 0%nat [ex_coin1; ex_coin2]).1 0%nat)
      = Some l' ∧
      heap_list h2 l2
      = map (λ p, Notarized (mkNotarizedPayment (payment_fields p)
                               (notarization_nonce [ex_coin1; ex_coin2])))
            (heap_list ex_heap l) ∧
      heap_list h2 l2
      = heap_list (notarize_payments ex_heap 0%nat [ex_coin1; ex_coin2]).1 l'.
Proof.
  apply (notarize_payments_again ex_heap 0%nat [ex_coin1] [ex_coin1; ex_coin2]).
  - solve_NoDup.
  - simpl. lia.
  - intros k l Hin. elem_compute Hin; injection Hin as -> ->; simpl; lia.
Defined.

(** X21, on the offers A and C. *)
Lemma bytes_injective_witness : __bytes__ ex_offer_A ≠ __bytes__ ex_offer_C.
Proof.
  apply (bytes_injective ex_offer_A ex_offer_C); [|done].
  intros o [->| ->].
  - split_and!; [by vm_compute|solve_NoDup| |].
    + intros k payments np Hin Hnp. simpl in Hin.
      elem_cases Hin. injection Hin as -> ->. elem_cases Hnp. subst np. simpl. lia.
    + intros cs Hcs. simpl in Hcs. elem_cases Hcs. subst cs. simpl. discriminate.
  - split_and!; [by vm_compute|solve_NoDup| |].
    + intros k payments np Hin Hnp. simpl in Hin.
      elem_cases Hin. injection Hin as -> ->. elem_cases Hnp. subst np. simpl. lia.
    + intros cs Hcs. simpl in Hcs. elem_cases Hcs. subst cs. simpl. discriminate.
Defined.

Lemma ref_split_frame_stream (p : positive) (rest : list byte) :
  ref_split_frame (positive_to_bytes p ++ x02 :: rest) = Some (positive_to_bytes p, rest).
Proof. induction p as [p IH|p IH|]; simpl; by rewrite ?IH. Qed.

#[export] Instance ref_stream_laws : @StreamLaws RProgram Z ref_stream_externals.
Proof.
  split. intros b rest. simpl. unfold ref_SpendBundle_parse, ref_SpendBundle_bytes.
  rewrite <-app_assoc. simpl. rewrite ref_split_frame_stream.
  pose proof (ref_codec_round_trip b) as Hb. unfold ref_SpendBundle_bytes in Hb.
  by rewrite Hb.
Qed.

(** X22, on offer A, written after one byte and followed by another. *)
Lemma stream_parse_round_trip_witness :
  ∃ written,
    stream ex_offer_A [x07] = Ok ([x07] ++ written) ∧
    parse (written ++ [x09]) = Ok (ex_offer_A, [x09]).
Proof.
  apply (stream_parse_round_trip ex_offer_A [x07] [x09]).
  - by vm_compute.
  - solve_NoDup.
  - intros k payments np Hin Hnp. simpl in Hin.
    elem_cases Hin. injection Hin as -> ->. elem_cases Hnp. subst np. simpl. lia.
  - intros cs Hcs. simpl in Hcs. elem_cases Hcs. subst cs. simpl. discriminate.
Defined.

(** X23, on the change that inserts a value. *)
Lemma process_change_returns_witness :
  dict_keys ex_change_processed
  = dict_keys ex_change
    ++ filter (λ k, k ∉ dict_keys ex_change) ["value"; "reference_node_hash"; "side"] ∧
  (dict_wf ex_change → dict_wf ex_change_processed) ∧
  (∀ k, k ∉ ["key"; "value"; "reference_node_hash"; "side"] →
        dict_get k ex_change_processed = dict_get k ex_change) ∧
  (∃ raw_key key,
     dict_get "key" ex_change = Some raw_key ∧ hexstr_to_bytes raw_key = inr key ∧
     dict_get "key" ex_change_processed = Some key) ∧
  (∀ k, k ∈ ["value"; "reference_node_hash"; "side"] →
        get_or_None k ex_change = PyNone → dict_get k ex_change_processed = Some PyNone).
Proof.
  apply (process_change_returns ex_change ex_change_processed). by vm_compute.
Defined.

(** A CAT parent puzzle that cannot be read stops every method that looks at
    the offered coins: offer H, with a tail hash that is not a [bytes32],
    and offer I, with two curried arguments. *)
Lemma scenario_unreadable_parent :
  get_offered_coins ex_offer_H = Raise BadBytes32 ∧
  Offer_new (requested_payments ex_offer_H) (bundle ex_offer_H) = Raise BadBytes32 ∧
  is_valid ex_offer_H = Raise BadBytes32 ∧
  to_valid_spend ex_offer_H 44%N = Raise BadBytes32 ∧
  get_offered_coins ex_offer_I = Raise UnpackError ∧
  Offer_new (requested_payments ex_offer_I) (bundle ex_offer_I) = Raise UnpackError ∧
  to_valid_spend ex_offer_I 44%N = Raise UnpackError.
Proof. split_and!; by vm_compute. Qed.
